(** * posh-to-dash: a shallow embedding of the crawl-to-archive pipeline

    The Python script [posh-to-dash.py] downloads the PowerShell reference
    pages, rewrites them for offline use, indexes them in a SQLite file and
    packs the whole as a Dash docset.  This development models the parts of
    the script that carry its logic and proves what they do.

    Conventions.
    - A Python [str] is a list of Unicode code points ([list N]).  The string
      literals of the script are written [u "..."].
    - Library code that cannot be written down here (the Unicode
      alphanumeric table behind [\w], Unicode lower-casing beyond ASCII,
      [urllib.parse.urljoin]) is a variable of the section that uses it.
    - [os.path] is the POSIX flavour ([posixpath]).
    - Code that raises returns a [result]; code that performs I/O threads
      the world it acts on explicitly. *)

From Stdlib Require Import NArith Ascii String.
From stdpp Require Import base option list gmap.

Set Warnings "-register-all".

Local Open Scope N_scope.
Local Open Scope list_scope.

(** ** Python strings *)

Module Str.

Definition char := N.
Definition str := list N.

(** The literal [u "abc"] is the [str] of the code points of an ASCII
    literal. *)
Definition u (s : string) : str :=
  List.map N_of_ascii (list_ascii_of_string s).

Definition eqb (a b : str) : bool := bool_decide (a = b).

(** [s.startswith(p)] *)
Fixpoint startswith (s p : str) {struct p} : bool :=
  match p, s with
  | [], _ => true
  | c :: p', d :: s' => (c =? d) && startswith s' p'
  | _ :: _, [] => false
  end.

(** [s.lstrip(chars)] for a one-character [chars]. *)
Fixpoint lstrip_char (c : char) (s : str) : str :=
  match s with
  | d :: s' => if d =? c then lstrip_char c s' else s
  | [] => []
  end.

(** [str.isspace] of one code point: the white-space table of CPython
    ([_PyUnicode_IsWhitespace]). *)
Definition isspace (c : char) : bool :=
  ((9 <=? c) && (c <=? 13)) || ((28 <=? c) && (c <=? 32))
  || (c =? 133) || (c =? 160) || (c =? 5760)
  || ((8192 <=? c) && (c <=? 8202))
  || (c =? 8232) || (c =? 8233) || (c =? 8239) || (c =? 8287)
  || (c =? 12288).

Fixpoint lstrip (s : str) : str :=
  match s with
  | c :: s' => if isspace c then lstrip s' else s
  | [] => []
  end.

Definition rstrip (s : str) : str := rev (lstrip (rev s)).

(** [s.strip()] *)
Definition strip (s : str) : str := rstrip (lstrip s).

Definition is_ascii (s : str) : bool := forallb (λ c, c <? 128) s.

Definition ascii_lower (c : char) : char :=
  if (65 <=? c) && (c <=? 90) then c + 32 else c.

(** A surrogate code point, U+D800 to U+DFFF. *)
Definition is_surrogate (c : char) : bool := (55296 <=? c) && (c <=? 57343).

(** [s.encode("utf-8")] does not raise: [s] has no surrogate. *)
Definition encodable (s : str) : bool :=
  forallb (λ c, negb (is_surrogate c)) s.

End Str.

Import Str.

(** ** Results of code that can raise *)

Inductive result (E A : Type) : Type :=
| Ok (a : A)
| Raise (e : E).
Arguments Ok {E A} a.
Arguments Raise {E A} e.

(** The exceptions that the modelled code can meet. *)
Inductive exn :=
| ConnectionResetError
| URLError                         (* urllib.error.URLError *)
| WebDriverException (code : nat)  (* any other failure of the browser *)
| RequestException (url : str)     (* raised by requests.get *)
| KeyError (key : str)
| IndexError
| AttributeError                   (* an attribute of None *)
| UnboundLocalError (name : str)
| OperationalError                 (* sqlite3.OperationalError *)
| UnicodeEncodeError               (* a text that does not encode as UTF-8 *)
| OSError (path : str).

(** ** [PoshWebDriver.get_url_page]: the page-render fetch

    The browser is outside the script.  What it answers to the [n]-th
    [driver.get(url); driver.page_source] of a run is given by an oracle; the
    calls the method makes on it are recorded in order.  Quitting the
    session, sleeping and opening a session are taken to succeed. *)

Module WebDriver.

(** The [except (ConnectionResetError, urllib.error.URLError)] clause. *)
Definition caught (e : exn) : bool :=
  match e with
  | ConnectionResetError | URLError => true
  | _ => false
  end.

Inductive event :=
| DriverGet (url : str)      (* self.driver.get(url); self.driver.page_source *)
| DriverQuit                 (* self.driver.quit() *)
| Sleep (seconds : nat)      (* time.sleep(2) *)
| NewSession.                (* self.driver = webdriver.PhantomJS(...) *)

(** The browser's answer to one load: the page source, or an exception. *)
Definition oracle := nat → result exn str.

Record world := {
  loads : nat;            (* page loads asked of the browser so far *)
  trace : list event;     (* calls made, oldest first *)
}.

Definition fresh : world := {| loads := 0; trace := [] |}.

Definition emit (e : event) (w : world) : world :=
  {| loads := loads w; trace := trace w ++ [e] |}.

(** One [self.driver.get(url); index_html = self.driver.page_source]. *)
Definition render (o : oracle) (url : str) (w : world) : result exn str * world :=
  (o (loads w),
   {| loads := S (loads w); trace := trace w ++ [DriverGet url] |}).

(** [not index_html]: [None] and the empty string are both falsy. *)
Definition falsy (index_html : option str) : bool :=
  match index_html with
  | None | Some [] => true
  | Some (_ :: _) => false
  end.

Definition get_url_page (o : oracle) (url : str) (w : world)
  : result exn (option str) * world :=
  (* try: self.driver.get(url); index_html = self.driver.page_source *)
  let '(r, w) := render o url w in
  let first : result exn (option str * world) :=
    match r with
    | Ok html => Ok (Some html, w)
    | Raise e =>
        if caught e then
          (* quit, sleep, new session, index_html = None *)
          Ok (None, emit NewSession (emit (Sleep 2) (emit DriverQuit w)))
        else Raise e
    end in
  match first with
  | Raise e => (Raise e, w)
  | Ok (index_html, w) =>
      (* try a second time, and raise error if fail *)
      if falsy index_html then
        let '(r, w) := render o url w in
        match r with
        | Ok html => (Ok (Some html), w)
        | Raise e => (Raise e, w)
        end
      else (Ok index_html, w)
  end.

End WebDriver.

(** ** The fragment of [re] the script uses

    A backtracking matcher in continuation-passing style: a greedy [+] first
    tries to take one more character and falls back to what follows it, as
    [re] does.  The script's patterns have one capture group. *)

Module Re.

Inductive regex :=
| Eps
| Chr (c : char)                (* a literal character *)
| Plus (cls : char → bool)      (* [cls+], greedy *)
| Seq (r1 r2 : regex)
| Group (r : regex).            (* ( r ) *)

Fixpoint lit (s : str) : regex :=
  match s with
  | [] => Eps
  | c :: s' => Seq (Chr c) (lit s')
  end.

Section Matcher.
Context {A : Type}.

Fixpoint plus_k (cls : char → bool) (s : str) (k : str → option A)
  : option A :=
  match s with
  | c :: s' =>
      if cls c then
        match plus_k cls s' k with
        | Some r => Some r
        | None => k s'
        end
      else None
  | [] => None
  end.

Fixpoint run (r : regex) (s : str) (cap : option str)
    (k : str → option str → option A) : option A :=
  match r with
  | Eps => k s cap
  | Chr c =>
      match s with
      | d :: s' => if c =? d then k s' cap else None
      | [] => None
      end
  | Plus cls => plus_k cls s (λ s', k s' cap)
  | Seq r1 r2 => run r1 s cap (λ s' cap', run r2 s' cap' k)
  | Group r1 =>
      run r1 s cap
        (λ s' _, k s' (Some (take (length s - length s')%nat s)))
  end.
End Matcher.

(** A match anchored at the start of [s]: the text of group 1 and what
    follows the match. *)
Definition match_at (r : regex) (s : str) : option (str * str) :=
  run r s None (λ s' cap, Some (default [] cap, s')).

(** [pattern.findall(s)] for a pattern with one group: the group of every
    match, leftmost first, matches not overlapping. *)
Fixpoint findall_from (fuel : nat) (r : regex) (s : str) : list str :=
  match fuel with
  | O => []
  | S fuel' =>
      match match_at r s with
      | Some (g, rest) =>
          if (length rest <? length s)%nat
          then g :: findall_from fuel' r rest
          else g :: match s with
                    | [] => []
                    | _ :: s' => findall_from fuel' r s'
                    end
      | None =>
          match s with
          | [] => []
          | _ :: s' => findall_from fuel' r s'
          end
      end
  end.

Definition findall (r : regex) (s : str) : list str :=
  findall_from (S (length s)) r s.

(** [\w] on ASCII: letters, digits and the underscore. *)
Definition ascii_word (c : char) : bool :=
  ((48 <=? c) && (c <=? 57)) || ((65 <=? c) && (c <=? 90))
  || (c =? 95) || ((97 <=? c) && (c <=? 122)).

(** [\w] of a [str] pattern: beyond ASCII it is the Unicode alphanumeric
    table, here [unicode_alnum]. *)
Definition word (unicode_alnum : char → bool) (c : char) : bool :=
  if c <? 128 then ascii_word c else unicode_alnum c.

End Re.

(** ** [os.path] (POSIX) *)

Module OsPath.

Definition sep : char := 47.

Fixpoint endswith_sep (p : str) : bool :=
  match p with
  | [] => false
  | [c] => c =? sep
  | _ :: p' => endswith_sep p'
  end.

(** [os.path.join(a, b)] *)
Definition join (a b : str) : str :=
  if startswith b [sep] then b
  else if bool_decide (a = []) || endswith_sep a then a ++ b
  else a ++ sep :: b.

(** [p[p.rfind('/') + 1:]] *)
Fixpoint after_last_sep (p acc : str) : str :=
  match p with
  | [] => acc
  | c :: p' => if c =? sep then after_last_sep p' p' else after_last_sep p' acc
  end.

(** [os.path.basename(p)] *)
Definition basename (p : str) : str := after_last_sep p p.

(** [os.path.dirname(p)] *)
Definition dirname (p : str) : str :=
  let head := take (length p - length (basename p))%nat p in
  if bool_decide (head = []) || forallb (λ c, c =? sep) head then head
  else rev (lstrip_char sep (rev head)).

(** [s.split(c)] and [c.join(parts)] *)
Fixpoint split_on (c : char) (s : str) : list str :=
  match s with
  | [] => [[]]
  | d :: s' =>
      if d =? c then [] :: split_on c s'
      else match split_on c s' with
           | [] => [[d]]
           | w :: ws => (d :: w) :: ws
           end
  end.

Fixpoint join_with (c : char) (parts : list str) : str :=
  match parts with
  | [] => []
  | [w] => w
  | w :: ws => w ++ c :: join_with c ws
  end.

(** [os.path.normpath(path)] *)
Definition initial_slashes (path : str) : nat :=
  if startswith path [sep] then
    if startswith path [sep; sep] && negb (startswith path [sep; sep; sep])
    then 2%nat else 1%nat
  else 0%nat.

Definition dot : str := [46].
Definition pardir : str := [46; 46].

(** The loop of [normpath] over the components; [new_comps] is kept in
    reverse, its last element first. *)
Fixpoint norm_comps (slashes : nat) (comps : list str) (rev_new : list str)
  : list str :=
  match comps with
  | [] => rev rev_new
  | comp :: rest =>
      if bool_decide (comp = []) || bool_decide (comp = dot) then
        norm_comps slashes rest rev_new
      else if negb (bool_decide (comp = pardir))
              || ((slashes =? 0)%nat && bool_decide (rev_new = []))
              || match rev_new with
                 | top :: _ => bool_decide (top = pardir)
                 | [] => false
                 end
      then norm_comps slashes rest (comp :: rev_new)
      else norm_comps slashes rest (tail rev_new)
  end.

Definition normpath (path : str) : str :=
  let slashes := initial_slashes path in
  let comps := norm_comps slashes (split_on sep path) [] in
  let path' := replicate slashes sep ++ join_with sep comps in
  if bool_decide (path' = []) then dot else path'.

(** [os.path.abspath(path)]; [cwd] is [os.getcwd()]. *)
Definition abspath (cwd path : str) : str :=
  if startswith path [sep] then normpath path
  else normpath (join cwd path).

Fixpoint commonprefix_len (a b : list str) : nat :=
  match a, b with
  | x :: a', y :: b' =>
      if bool_decide (x = y) then S (commonprefix_len a' b') else O
  | _, _ => O
  end.

Definition nonempty_comps (p : str) : list str :=
  List.filter (λ x, negb (bool_decide (x = []))) (split_on sep p).

(** [os.path.relpath(path, start)], for a non-empty [path]. *)
Definition relpath (cwd path start : str) : str :=
  let start_list := nonempty_comps (abspath cwd start) in
  let path_list := nonempty_comps (abspath cwd path) in
  let i := commonprefix_len start_list path_list in
  let rel_list :=
    replicate (length start_list - i)%nat pardir ++ drop i path_list in
  match rel_list with
  | [] => dot
  | first :: others => fold_left join others first
  end.

End OsPath.

(** ** [class Configuration] *)

Module Configuration.

Definition posh_version : str := u "6".
Definition docset_name : str := u "Powershell".
Definition domain : str := u "docs.microsoft.com".
(** ["%s/en-us/powershell/module" % domain] *)
Definition base_url : str := domain ++ u "/en-us/powershell/module".
Definition default_theme_uri : str :=
  u "_themes/docs.theme/master/en-us/_themes".

Record t := {
  powershell_version : str;     (* args.version *)
  output_folder : str;          (* args.output *)
}.

(** ["view=powershell-{0:s}".format(self.powershell_version)] *)
Definition powershell_version_param (c : t) : str :=
  u "view=powershell-" ++ powershell_version c.

(** [os.path.join(args.output, "_build_{0:s}".format(version))] *)
Definition build_folder (c : t) : str :=
  OsPath.join (output_folder c) (u "_build_" ++ powershell_version c).

(** ["https://{0:s}/psdocs/toc.json?{2:s}".format(base_url, version, param)] *)
Definition docs_toc_url (c : t) : str :=
  u "https://" ++ base_url ++ u "/psdocs/toc.json?"
    ++ powershell_version_param c.

End Configuration.

(** ** A state-and-exception monad for the code that does I/O *)

Definition io (W E A : Type) : Type := W → result E A * W.

Definition ret {W E A} (a : A) : io W E A := λ w, (Ok a, w).

Definition bind {W E A B} (m : io W E A) (f : A → io W E B) : io W E B :=
  λ w, match m w with
       | (Ok a, w') => f a w'
       | (Raise e, w') => (Raise e, w')
       end.

Definition raise {W E A} (e : E) : io W E A := λ w, (Raise e, w).

Declare Scope io_scope.
Delimit Scope io_scope with io.
Notation "'let!' x ':=' m 'in' k" := (bind m (λ x, k))
  (at level 10, x name, m at level 100, k at level 200) : io_scope.
Notation "'do!' m 'in' k" := (bind m (λ _, k))
  (at level 10, m at level 100, k at level 200) : io_scope.

(** ** The content fetcher and the table-of-contents crawler *)

Module Crawler.

(** What the n-th request of the run, a GET of [url], answers: the body
    of the response, or nothing when [requests.get] raises. *)
Definition oracle := nat → str → option str.

(** The network and the file system of a run.  The file system is
    outside the script: what it raises, if anything, when a directory is to
    be made and when a file is to be opened for writing, after the files
    written so far, is part of the world. *)
Record world := {
  requested : list str;           (* URLs asked for, oldest first *)
  written : list (str * str);     (* (file, text) written, oldest first *)
  (* os.makedirs(name, exist_ok = True) *)
  makedirs_error : list (str * str) → str → option exn;
  (* open(file, 'w', encoding="utf8") *)
  open_error : list (str * str) → str → option exn;
}.

(** No request yet, nothing written, and a file system that takes every
    directory and every file. *)
Definition empty : world :=
  {| requested := []; written := [];
     makedirs_error := λ _ _, None; open_error := λ _ _, None |}.

(** [requests.get(url)] is called. *)
Definition ask (url : str) (w : world) : world :=
  {| requested := requested w ++ [url]; written := written w;
     makedirs_error := makedirs_error w; open_error := open_error w |}.

(** The file is there with [text] in it. *)
Definition write (output_filename text : str) (w : world) : world :=
  {| requested := requested w;
     written := written w ++ [(output_filename, text)];
     makedirs_error := makedirs_error w; open_error := open_error w |}.

(** [download_textfile(url, output_filename)] *)
Definition download_textfile (o : oracle) (url output_filename : str)
  : io world exn unit :=
  λ w,
    (* ensure the folder path actually exist *)
    match makedirs_error w (written w) (OsPath.dirname output_filename) with
    | Some e => (Raise e, w)
    | None =>
        (* r = requests.get(url, data = params) *)
        let w1 := ask url w in
        match o (length (requested w)) url with
        | None => (Raise (RequestException url), w1)
        | Some text =>
            (* with open(output_filename, 'w', encoding="utf8") as f:
                 f.write(r.text) *)
            match open_error w (written w) output_filename with
            | Some e => (Raise e, w1)
            | None =>
                if encodable text then (Ok (), write output_filename text w1)
                else (Raise UnicodeEncodeError, write output_filename [] w1)
            end
        end
    end.

Record toc_entry := { toc_title : str; href : str }.

Record cmdlet_infos := { name : str; path : str }.

Record module_infos := {
  m_name : str;
  index : str;
  cmdlets : list cmdlet_infos;
}.

Section Crawl.
(** [urllib.parse.urljoin] and [str.lower] beyond ASCII are library
    code; [cwd] is the working directory of the run. *)
Variable urljoin : str → str → str.
Variable cwd : str.
Variable unicode_lower : str → str.
Variable o : oracle.

Let relpath := OsPath.relpath cwd.

(** [s.lower()] *)
Definition lower (s : str) : str :=
  if is_ascii s then List.map ascii_lower s else unicode_lower s.

(** [download_page_contents(configuration, uri, output_filepath)] *)
Definition versionned_url (configuration : Configuration.t) (uri : str)
  : str :=
  let full_url := urljoin (Configuration.docs_toc_url configuration) uri in
  full_url ++ u "?" ++ Configuration.powershell_version_param configuration.

Definition download_page_contents (configuration : Configuration.t)
    (uri output_filepath : str) : io world exn unit :=
  download_textfile o (versionned_url configuration uri) output_filepath.

(** [cmdlet_name.lower() in ("about", "functions", "providers", "provider")] *)
Definition special_toc (cmdlet_name : str) : bool :=
  bool_decide (lower cmdlet_name ∈
    [u "about"; u "functions"; u "providers"; u "provider"]).

Definition cmdlet_filepath (module_dir cmdlet_name : str) : str :=
  OsPath.join module_dir (cmdlet_name ++ u ".html").

(** The loop [for cmdlet in cmdlets] with its accumulator
    [cmdlets_infos]. *)
Fixpoint download_cmdlets (configuration : Configuration.t)
    (module_dir root_dir : str) (cmdlets : list toc_entry)
    (cmdlets_infos : list cmdlet_infos)
  : io world exn (list cmdlet_infos) :=
  match cmdlets with
  | [] => ret cmdlets_infos
  | cmdlet :: rest =>
      let cmdlet_name := toc_title cmdlet in
      if special_toc cmdlet_name then
        (* skip special toc *)
        download_cmdlets configuration module_dir root_dir rest cmdlets_infos
      else
        let cmdlet_uri := href cmdlet in
        let file := cmdlet_filepath module_dir cmdlet_name in
        (do! download_page_contents configuration cmdlet_uri file in
         download_cmdlets configuration module_dir root_dir rest
           (cmdlets_infos ++
              [{| name := cmdlet_name; path := relpath file root_dir |}]))%io
  end.

(** [download_module_contents] *)
Definition download_module_contents (configuration : Configuration.t)
    (module_name module_uri module_dir : str) (cmdlets : list toc_entry)
    (root_dir : str) : io world exn module_infos :=
  let module_filepath := OsPath.join module_dir (module_name ++ u ".html") in
  (do! download_page_contents configuration module_uri module_filepath in
   let! infos := download_cmdlets configuration module_dir root_dir cmdlets [] in
   ret {| m_name := module_name;
          index := relpath module_filepath root_dir;
          cmdlets := infos |})%io.

(** What a TOC child entry that is kept turns into. *)
Definition record_of (module_dir root_dir : str) (cmdlet : toc_entry)
  : cmdlet_infos :=
  {| name := toc_title cmdlet;
     path := relpath (cmdlet_filepath module_dir (toc_title cmdlet)) root_dir |}.

Definition url_of (configuration : Configuration.t) (cmdlet : toc_entry)
  : str := versionned_url configuration (href cmdlet).

Definition kept (cmdlets : list toc_entry) : list toc_entry :=
  List.filter (λ c, negb (special_toc (toc_title c))) cmdlets.
End Crawl.

(** An entry of [modules_toc['items'][0]['children']]: a module and the
    entries of its commands. *)
Record toc_module := {
  module_title : str;             (* module['toc_title'] *)
  module_href : str;              (* module["href"] *)
  children : list toc_entry;      (* module['children'] *)
}.

(** [d[k] = v] on a dict, as the list of its items in the order in which it
    yields them: a key that is there keeps its place and takes the new
    value, a new key goes to the end. *)
Fixpoint dict_set (d : list (str * module_infos)) (k : str) (v : module_infos)
  : list (str * module_infos) :=
  match d with
  | [] => [(k, v)]
  | (k', v') :: rest =>
      if eqb k' k then (k', v) :: rest else (k', v') :: dict_set rest k v
  end.

Section CrawlToc.
Variable urljoin : str → str → str.
Variable cwd : str.
Variable unicode_lower : str → str.
Variable o : oracle.
(** [json.loads(r.text)['items'][0]['children']]: decoding is library code;
    a text that is no table of contents raises. *)
Variable toc_of : str → result exn (list toc_module).

(** [r = requests.get(url)], then [r.text] *)
Definition get_text (url : str) : io world exn str :=
  λ w,
    let w1 := ask url w in
    match o (length (requested w)) url with
    | None => (Raise (RequestException url), w1)
    | Some text => (Ok text, w1)
    end.

(** The loop [for module in modules_toc['items'][0]['children']] with its
    accumulator [content_toc]. *)
Fixpoint crawl_modules (configuration : Configuration.t) (download_dir : str)
    (modules : list toc_module) (content_toc : list (str * module_infos))
  : io world exn (list (str * module_infos)) :=
  match modules with
  | [] => ret content_toc
  | module :: rest =>
      let module_name := module_title module in
      let module_uri := module_href module in
      let module_cmdlets := children module in
      let module_dir :=
        OsPath.join (OsPath.join download_dir Configuration.base_url)
          module_name in
      (let! infos :=
         download_module_contents urljoin cwd unicode_lower o configuration
           module_name module_uri module_dir module_cmdlets download_dir in
       crawl_modules configuration download_dir rest
         (dict_set content_toc module_name infos))%io
  end.

(** [crawl_posh_contents(configuration, download_dir)] *)
Definition crawl_posh_contents (configuration : Configuration.t)
    (download_dir : str) : io world exn (list (str * module_infos)) :=
  (let! text := get_text (Configuration.docs_toc_url configuration) in
   match toc_of text with
   | Raise e => raise e
   | Ok modules => crawl_modules configuration download_dir modules []
   end)%io.
End CrawlToc.

End Crawler.


(** ** The parsed document (BeautifulSoup)

    A tag is a Python object: two tags with equal markup are still two
    objects, and [extract] or an attribute assignment acts on one object.
    Each tag of the tree carries the identity [id] of its object. *)

Module Soup.

Inductive node :=
| Text (s : str)
| Tag (id : nat) (name : str) (attrs : list (str * str))
      (contents : list node).

(** The contents of the [BeautifulSoup] object. *)
Definition soup := list node.

Fixpoint get (attrs : list (str * str)) (key : str) : option str :=
  match attrs with
  | [] => None
  | (k, v) :: rest => if eqb k key then Some v else get rest key
  end.

(** [tag[key] = value] *)
Fixpoint set (attrs : list (str * str)) (key value : str)
  : list (str * str) :=
  match attrs with
  | [] => [(key, value)]
  | (k, v) :: rest =>
      if eqb k key then (k, value) :: rest else (k, v) :: set rest key value
  end.

(** The tags and strings below a node, in document order. *)
Fixpoint descendants (n : node) : list node :=
  match n with
  | Text _ => []
  | Tag _ _ _ contents => flat_map (λ c, c :: descendants c) contents
  end.

Definition soup_descendants (s : soup) : list node :=
  flat_map (λ c, c :: descendants c) s.

(** [tag.text] *)
Fixpoint text (n : node) : str :=
  match n with
  | Text s => s
  | Tag _ _ _ contents => flat_map text contents
  end.

(** The values of a multi-valued attribute: [\S+] over the value. *)
Fixpoint words_from (s cur : str) : list str :=
  match s with
  | [] => if bool_decide (cur = []) then [] else [rev cur]
  | c :: s' =>
      if isspace c then
        if bool_decide (cur = []) then words_from s' []
        else rev cur :: words_from s' []
      else words_from s' (c :: cur)
  end.

Definition words (s : str) : list str := words_from s [].

(** The parser splits [class] on every tag and [rel] on [a], [link] and
    [area] into a list of values. *)
Definition multi_valued (tag_name key : str) : bool :=
  eqb key (u "class")
  || (eqb key (u "rel")
      && (eqb tag_name (u "a") || eqb tag_name (u "link")
          || eqb tag_name (u "area"))).

(** One entry of the [attrs] argument of [findAll] against a tag.  An
    absent attribute matches the empty string only; a multi-valued
    attribute matches on any of its values or on the values joined by a
    space. *)
Definition attr_matches (tag_name : str) (attrs : list (str * str))
    (wanted : str * str) : bool :=
  let '(key, against) := wanted in
  match get attrs key with
  | None => eqb against []
  | Some v =>
      if multi_valued tag_name key then
        existsb (λ item, eqb item against) (words v)
        || eqb (OsPath.join_with 32 (words v)) against
      else eqb v against
  end.

Definition matches (name : str) (wanted : list (str * str)) (n : node)
  : bool :=
  match n with
  | Text _ => false
  | Tag _ nm attrs _ => eqb nm name && forallb (attr_matches nm attrs) wanted
  end.

(** [tag.findAll(name, attrs)] and [soup.findAll(name, attrs)] *)
Definition findAll (name : str) (wanted : list (str * str)) (n : node)
  : list node :=
  List.filter (matches name wanted) (descendants n).

Definition soup_findAll (name : str) (wanted : list (str * str)) (s : soup)
  : list node :=
  List.filter (matches name wanted) (soup_descendants s).

(** [soup.head], [soup.body]: the first tag of that name, or [None]. *)
Definition find (name : str) (s : soup) : option node :=
  head (soup_findAll name [] s).

Definition has_id (i : nat) (n : node) : bool :=
  match n with
  | Text _ => false
  | Tag j _ _ _ => (i =? j)%nat
  end.

(** [tag.extract()] for the tag [i]: it leaves the tree with all that is
    below it.  A tag that is not in the tree leaves it unchanged. *)
Fixpoint extract_in (i : nat) (n : node) : node :=
  match n with
  | Text s => Text s
  | Tag j nm attrs contents =>
      Tag j nm attrs
        ((fix go (cs : list node) : list node :=
            match cs with
            | [] => []
            | c :: cs' =>
                if has_id i c then go cs' else extract_in i c :: go cs'
            end) contents)
  end.

Fixpoint extract (i : nat) (s : soup) : soup :=
  match s with
  | [] => []
  | c :: s' => if has_id i c then extract i s' else extract_in i c :: extract i s'
  end.

(** [tag[key] = value] for the tag [i]. *)
Fixpoint assign_in (i : nat) (key value : str) (n : node) : node :=
  match n with
  | Text s => Text s
  | Tag j nm attrs contents =>
      Tag j nm (if (i =? j)%nat then set attrs key value else attrs)
        (List.map (assign_in i key value) contents)
  end.

Definition assign (i : nat) (key value : str) (s : soup) : soup :=
  List.map (assign_in i key value) s.

Definition id_of (n : node) : option nat :=
  match n with
  | Text _ => None
  | Tag i _ _ _ => Some i
  end.

Definition attrs_of (n : node) : list (str * str) :=
  match n with
  | Text _ => []
  | Tag _ _ attrs _ => attrs
  end.

Definition name_of (n : node) : str :=
  match n with
  | Text _ => []
  | Tag _ nm _ _ => nm
  end.

End Soup.

(** ** The markup rewriter: [rewrite_soup] and [rewrite_index_soup] *)

Module Rewriter.
Import Soup.

(** [collections.namedtuple('ThemeResourceRecord', 'url, path')] *)
Record ThemeResourceRecord := { url : str; path : str }.

Global Instance ThemeResourceRecord_eq_dec : EqDecision ThemeResourceRecord.
Proof. solve_decision. Defined.

Definition hyphen : char := 45.
Definition question : char := 63.
Definition slash : char := 47.
Definition period : char := 46.

Definition rstrip_char (c : char) (s : str) : str :=
  rev (lstrip_char c (rev s)).

(** The element patterns of the site's navigation. *)
Definition nav_elements : list (str * list (str * str)) :=
  [ (u "nav", [(u "class", u "doc-outline"); (u "role", u "navigation")]);
    (u "ul", [(u "class", u "breadcrumbs"); (u "role", u "navigation")]);
    (u "div", [(u "class", u "sidebar"); (u "role", u "navigation")]);
    (u "div", [(u "class", u "dropdown dropdown-full mobilenavi")]);
    (u "p", [(u "class", u "api-browser-description")]);
    (u "div", [(u "class", u "api-browser-search-field-container")]);
    (u "div", [(u "class", u "pageActions")]);
    (u "div", [(u "class", u "container footerContainer")]);
    (u "div", [(u "class", u "dropdown-container")]) ].

Definition index_nav_elements : list (str * list (str * str)) :=
  [ (u "nav", [(u "class", u "doc-outline"); (u "role", u "navigation")]);
    (u "ul", [(u "class", u "breadcrumbs"); (u "role", u "navigation")]);
    (u "div", [(u "class", u "sidebar"); (u "role", u "navigation")]);
    (u "div", [(u "class", u "dropdown dropdown-full mobilenavi")]);
    (u "p", [(u "class", u "api-browser-description")]);
    (u "div", [(u "class", u "api-browser-search-field-container")]);
    (u "div", [(u "class", u "pageActions")]);
    (u "div", [(u "class", u "dropdown-container")]);
    (u "div", [(u "class", u "container footerContainer")]);
    (u "div", [(u "data-bi-name", u "header"); (u "id", u "headerAreaHolder")]) ].

(** [for x in found: x.extract()] *)
Definition extract_all (found : list node) (s : soup) : soup :=
  fold_left (λ s' n, match id_of n with
                     | Some i => extract i s'
                     | None => s'
                     end) found s.

(** [for nav in nav_elements: for nav_tag in soup.findAll(...): extract] *)
Definition remove_nav (patterns : list (str * list (str * str))) (s : soup)
  : soup :=
  fold_left (λ s' nav, extract_all (soup_findAll nav.1 nav.2 s') s')
    patterns s.

Section Rewrite.
Variable unicode_alnum : char → bool.
Variable cwd : str.

Let word := Re.word unicode_alnum.
Let relpath := OsPath.relpath cwd.

(** [re.compile(r"(\w+-\w+)\?view=powershell-")] *)
Definition link_pattern : Re.regex :=
  Re.Seq
    (Re.Group (Re.Seq (Re.Plus word) (Re.Seq (Re.Chr hyphen) (Re.Plus word))))
    (Re.Seq (Re.Chr question) (Re.lit (u "view=powershell-"))).

(** [re.compile(r"([\w\.\/]+)\?view=powershell-")] *)
Definition index_link_pattern : Re.regex :=
  Re.Seq
    (Re.Group (Re.Plus (λ c, word c || (c =? period) || (c =? slash))))
    (Re.Seq (Re.Chr question) (Re.lit (u "view=powershell-"))).

(** The body of the loop over the links of [rewrite_soup]: the new value
    of [fixed_href], or [None] when the loop [continue]s. *)
Definition fixed_href (configuration : Configuration.t) (href text : str)
  : option str :=
  (* go back to module *)
  if eqb href
       (u "./?view=powershell-" ++ Configuration.powershell_version configuration)
  then Some (u "./" ++ text ++ u ".html")
  (* go to a cmdlet page *)
  else
    match Re.findall link_pattern href with
    | [] => None                      (* badly formated 'a' link *)
    | module_name :: _ => Some (module_name ++ u ".html")
    end.

(** The [href] of a link after its turn in the loop. *)
Definition rewrite_href (configuration : Configuration.t) (href text : str)
  : str :=
  match fixed_href configuration href text with
  | None => href
  | Some fixed => if negb (eqb fixed href) then fixed else href
  end.

Fixpoint fix_links (configuration : Configuration.t) (links : list node)
    (s : soup) : result exn soup :=
  match links with
  | [] => Ok s
  | link :: rest =>
      match id_of link, get (attrs_of link) (u "href") with
      | Some i, Some href =>
          match fixed_href configuration href (text link) with
          | None => fix_links configuration rest s
          | Some fixed =>
              fix_links configuration rest
                (if negb (eqb fixed href) then assign i (u "href") fixed s
                 else s)
          end
      | _, _ => Raise (KeyError (u "href"))
      end
  end.

(** The body of the loop over the stylesheets of the head: [None] when
    the loop [continue]s, else the new [href] of the link, the URL of the
    stylesheet and the file it goes to. *)
Definition stylesheet (documents_dir html_path href : str)
  : option (str * str * str) :=
  let theme_output_dir := OsPath.join documents_dir Configuration.domain in
  let uri_path := strip href in
  if negb (startswith (lstrip_char slash uri_path)
             Configuration.default_theme_uri)
  then None
  else
    (* Construct (url, path) tuple *)
    let css_url := u "https://" ++ Configuration.domain ++ u "/" ++ uri_path in
    let css_filepath :=
      OsPath.join theme_output_dir (lstrip_char slash uri_path) in
    (* Converting href to a relative link *)
    let path := relpath css_filepath (OsPath.dirname html_path) in
    let rel_uri := OsPath.join_with slash (OsPath.split_on OsPath.sep path) in
    Some (rel_uri, css_url, css_filepath).

Fixpoint theme_links (documents_dir html_path : str) (links : list node)
    (s : soup) (theme_resources : list ThemeResourceRecord)
  : result exn (soup * list ThemeResourceRecord) :=
  match links with
  | [] => Ok (s, theme_resources)
  | link :: rest =>
      match id_of link, get (attrs_of link) (u "href") with
      | Some i, Some href =>
          match stylesheet documents_dir html_path href with
          | None => theme_links documents_dir html_path rest s theme_resources
          | Some (rel_uri, css_url, css_filepath) =>
              theme_links documents_dir html_path rest
                (assign i (u "href") rel_uri s)
                (theme_resources ++
                   [{| url := css_url;
                       path := relpath css_filepath documents_dir |}])
          end
      | _, _ => Raise (KeyError (u "href"))
      end
  end.

(** [rewrite_soup(configuration, soup, html_path, documents_dir)]; the
    set it returns is the list of its elements, without repetition. *)
Definition rewrite_soup (configuration : Configuration.t) (s : soup)
    (html_path documents_dir : str)
  : result exn (soup * list ThemeResourceRecord) :=
  (* Fix navigations links *)
  let links := soup_findAll (u "a") [(u "data-linktype", u "relative-path")] s in
  match fix_links configuration links s with
  | Raise e => Raise e
  | Ok s =>
      (* remove unsupported nav elements *)
      let s := remove_nav nav_elements s in
      (* remove script elems *)
      match find (u "head") s with
      | None => Raise AttributeError
      | Some head =>
          let s := extract_all (findAll (u "script") [] head) s in
          (* Extract and rewrite additionnal stylesheets to download *)
          match find (u "head") s with
          | None => Raise AttributeError
          | Some head =>
              match theme_links documents_dir html_path
                      (findAll (u "link") [(u "rel", u "stylesheet")] head)
                      s [] with
              | Raise e => Raise e
              | Ok (s, theme_resources) =>
                  Ok (s, remove_dups theme_resources)
              end
          end
      end
  end.

(** *** The start page *)

Definition lift {W A} (r : result exn A) : io W exn A :=
  λ w, (r, w).

(** The loop over the links of the results table. *)
Fixpoint fix_index_links (links : list node) (s : soup) : result exn soup :=
  match links with
  | [] => Ok s
  | link :: rest =>
      match id_of link, get (attrs_of link) (u "href") with
      | Some i, Some href =>
          match Re.findall index_link_pattern href with
          | [] => fix_index_links rest s      (* badly formated 'a' link *)
          | target :: _ =>
              let url_path := rstrip_char slash (lstrip_char slash target) in
              match get (attrs_of link) (u "ms.title") with
              | None => Raise (KeyError (u "ms.title"))
              | Some module_name =>
                  let fixed :=
                    url_path ++ u "/" ++ module_name ++ u ".html" in
                  fix_index_links rest
                    (if negb (eqb fixed href)
                     then assign i (u "href") fixed s else s)
              end
          end
      | _, _ => Raise (KeyError (u "href"))
      end
  end.

Definition join_all (first : str) (others : list str) : str :=
  fold_left OsPath.join others first.

(** [for image in images: image['src'] = ...] *)
Definition fix_images (src : str) (images : list node) (s : soup) : soup :=
  fold_left (λ s' image, match id_of image with
                         | Some i => assign i (u "src") src s'
                         | None => s'
                         end) images s.

(** The two loops under [# remove script elems].  The loop variable
    [head_script] of the first loop is what the body of the second loop
    extracts; it is unbound when the first loop had nothing to visit. *)
Definition remove_scripts (s : soup) : result exn soup :=
  match find (u "head") s with
  | None => Raise AttributeError
  | Some head =>
      let head_scripts := findAll (u "script") [] head in
      let s := extract_all head_scripts s in
      let head_script : option node := last head_scripts in
      match find (u "body") s with
      | None => Raise AttributeError
      | Some body =>
          let body_scripts :=
            findAll (u "script") [(u "async", []); (u "defer", [])] body in
          (fix loop (found : list node) (s : soup) : result exn soup :=
             match found with
             | [] => Ok s
             | body_async_script :: rest =>
                 match head_script with
                 | None => Raise (UnboundLocalError (u "head_script"))
                 | Some script =>
                     loop rest (extract_all [script] s)
                 end
             end) body_scripts s
      end
  end.

Variable o : Crawler.oracle.

(** The loop over the stylesheets of the head: each is fetched at once. *)
Fixpoint fetch_theme_links (documents_dir index_html_path : str)
    (links : list node) (s : soup) : io Crawler.world exn soup :=
  match links with
  | [] => ret s
  | link :: rest =>
      match id_of link, get (attrs_of link) (u "href") with
      | Some i, Some href =>
          match stylesheet documents_dir index_html_path href with
          | None => fetch_theme_links documents_dir index_html_path rest s
          | Some (rel_uri, css_url, css_filepath) =>
              (do! Crawler.download_textfile o css_url css_filepath in
               fetch_theme_links documents_dir index_html_path rest
                 (assign i (u "href") rel_uri s))%io
          end
      | _, _ => raise (KeyError (u "href"))
      end
  end.

(** [rewrite_index_soup(configuration, soup, index_html_path, documents_dir)] *)
Definition rewrite_index_soup (configuration : Configuration.t) (s : soup)
    (index_html_path documents_dir : str) : io Crawler.world exn soup :=
  (* Fix navigations links *)
  match soup_findAll (u "table")
          [(u "class", u "api-search-results standalone")] s with
  | [] => raise IndexError
  | content_table :: _ =>
      let links :=
        List.filter
          (λ tag, eqb (name_of tag) (u "a")
                  && bool_decide (is_Some (get (attrs_of tag) (u "ms.title"))))
          (descendants content_table) in
      (let! s := lift (fix_index_links links s) in
       (* Fix link to module.svg *)
       let module_svg_path :=
         join_all documents_dir
           [Configuration.domain; u "en-us"; u "media"; u "toolbars";
            u "module.svg"] in
       let images := findAll (u "img") [(u "alt", u "Module")] content_table in
       let s :=
         fix_images
           (relpath module_svg_path (OsPath.dirname index_html_path))
           images s in
       (* remove unsupported nav elements *)
       let s := remove_nav index_nav_elements s in
       (* remove script elems *)
       let! s := lift (remove_scripts s) in
       (* Fixing and downloading css stylesheets *)
       match find (u "head") s with
       | None => raise AttributeError
       | Some head =>
           fetch_theme_links documents_dir index_html_path
             (findAll (u "link") [(u "rel", u "stylesheet")] head) s
       end)%io
  end.
End Rewrite.

End Rewriter.

(** ** The search indexer: [create_sqlite_database] *)

Module Indexer.

(** A row of [searchIndex(id INTEGER PRIMARY KEY, name TEXT, type TEXT,
    path TEXT)]. *)
Record row := { id : nat; name : str; type : str; path : str }.

Global Instance row_eq_dec : EqDecision row.
Proof. solve_decision. Defined.

(** A database file: the table [searchIndex], when it has been created,
    with its rows in the order of insertion, and whether the unique index
    [anchor] on (name, type, path) has been created. *)
Record database := {
  searchIndex : option (list row);
  anchor : bool;
}.

Definition no_tables : database := {| searchIndex := None; anchor := false |}.

(** [sqlite3.connect(sqlite_filepath)]: the file is created when absent. *)
Definition connect (file : option database) : database :=
  default no_tables file.

(** [CREATE TABLE searchIndex(...)] *)
Definition create_table (db : database) : result exn database :=
  match searchIndex db with
  | Some _ => Raise OperationalError          (* table already exists *)
  | None => Ok {| searchIndex := Some []; anchor := anchor db |}
  end.

Definition same_triple (a b : row) : bool :=
  eqb (name a) (name b) && eqb (type a) (type b) && eqb (path a) (path b).

Fixpoint distinct_triples (rows : list row) : bool :=
  match rows with
  | [] => true
  | r :: rest => negb (existsb (same_triple r) rest) && distinct_triples rest
  end.

(** [CREATE UNIQUE INDEX anchor ON searchIndex (name, type, path)] *)
Definition create_unique_index (db : database) : result exn database :=
  match searchIndex db with
  | None => Raise OperationalError            (* no such table *)
  | Some rows =>
      if anchor db || negb (distinct_triples rows) then Raise OperationalError
      else Ok {| searchIndex := Some rows; anchor := true |}
  end.

(** [SELECT rowid FROM searchIndex WHERE path = ?] then [fetchone()].  The
    statement is prepared, then its parameter is bound. *)
Definition select_rowid_where_path (db : database) (p : str)
  : result exn (option nat) :=
  match searchIndex db with
  | None => Raise OperationalError
  | Some rows =>
      if encodable p then Ok (id <$> List.find (λ r, eqb (path r) p) rows)
      else Raise UnicodeEncodeError
  end.

(** [SELECT rowid FROM searchIndex WHERE name = ?] then [fetchone()] *)
Definition select_rowid_where_name (db : database) (n : str)
  : result exn (option nat) :=
  match searchIndex db with
  | None => Raise OperationalError
  | Some rows =>
      if encodable n then Ok (id <$> List.find (λ r, eqb (name r) n) rows)
      else Raise UnicodeEncodeError
  end.

(** The rowid of a new row: one more than the largest in the table. *)
Definition next_rowid (rows : list row) : nat :=
  S (foldr (λ r m, Nat.max (id r) m) O rows).

(** [INSERT OR IGNORE INTO searchIndex(name, type, path) VALUES (?,?,?)] *)
Definition insert_or_ignore (db : database) (n t p : str)
  : result exn database :=
  match searchIndex db with
  | None => Raise OperationalError
  | Some rows =>
      if encodable n && encodable t && encodable p then
        let r := {| id := next_rowid rows; name := n; type := t; path := p |} in
        if anchor db && existsb (same_triple r) rows then Ok db
        else Ok {| searchIndex := Some (rows ++ [r]); anchor := anchor db |}
      else Raise UnicodeEncodeError
  end.

(** The body of the [try] of [insert_into_sqlite_db].  A statement raises
    when the table is missing, and when one of its parameters is a text
    that does not encode as UTF-8: [sqlite3] binds a [str] through its
    UTF-8 encoding. *)
Definition try_insert (cursor : database) (name record_type path : str)
  : result exn database :=
  match select_rowid_where_path cursor path with
  | Raise e => Raise e
  | Ok dbpath =>
      match select_rowid_where_name cursor name with
      | Raise e => Raise e
      | Ok dbname =>
          match dbpath, dbname with
          | None, None => insert_or_ignore cursor name record_type path
          | _, _ => Ok cursor                       (* record exists *)
          end
      end
  end.

(** [insert_into_sqlite_db(cursor, name, record_type, path)]: whatever the
    body raises is swallowed by [except: pass]. *)
Definition insert_into_sqlite_db (cursor : database)
    (name record_type path : str) : database :=
  match try_insert cursor name record_type path with
  | Ok cursor' => cursor'
  | Raise _ => cursor
  end.

(** The body of [for cmdlet in module['cmdlets']]. *)
Definition index_cmdlet (module_name : str) (cur : database)
    (cmdlet : Crawler.cmdlet_infos) : database :=
  let cmdlet_name := Crawler.name cmdlet in
  if eqb cmdlet_name module_name then cur
  else insert_into_sqlite_db cur cmdlet_name (u "Cmdlet") (Crawler.path cmdlet).

(** The body of [for module_name, module in content_toc.items()]. *)
Definition index_module (cur : database)
    (item : str * Crawler.module_infos) : database :=
  let '(module_name, module) := item in
  let cur :=
    insert_into_sqlite_db cur module_name (u "Module") (Crawler.index module) in
  fold_left (index_cmdlet module_name) (Crawler.cmdlets module) cur.

(** [create_sqlite_database]: [file] is what is at
    [resources_dir/docSet.dsidx] before the call, the result is what is
    there after [db.commit()].  A dict is the list of its items, in the
    order in which it yields them. *)
Definition create_sqlite_database
    (content_toc : list (str * Crawler.module_infos))
    (file : option database) : result exn (option database) :=
  (* if os.path.exists(sqlite_filepath): os.remove(sqlite_filepath) *)
  let file := match file with Some _ => None | None => file end in
  let db := connect file in
  match create_table db with
  | Raise e => Raise e
  | Ok cur =>
      match create_unique_index cur with
      | Raise e => Raise e
      | Ok cur => Ok (Some (fold_left index_module content_toc cur))
      end
  end.

Definition rows_of (file : option database) : list row :=
  match file with
  | Some db => default [] (searchIndex db)
  | None => []
  end.

End Indexer.

(** ** The archive packager: [make_docset] and the end of [main]

    A file system is a finite map from paths to what is there.  An entry
    is in the map under its plain spelling, with no trailing separator and
    no [.] or [..] component; the empty path is the working directory. *)

Module Packager.

Inductive content :=
| Data (text : str)
(** A gzip-compressed tar archive: the name of each member, and its
    content when it is a regular file. *)
| TarGz (members : list (str * option content)).

Inductive entry :=
| Dir
| File (c : content).

Inductive op :=
| Compress (source_dir tar_filepath arcname : str)
| Move (src real_dst : str).

Record world := {
  fs : gmap str entry;
  ops : list op;                 (* oldest first *)
}.

Definition is_dir (m : gmap str entry) (p : str) : bool :=
  match m !! p with
  | Some Dir => true
  | _ => false
  end.

Definition exists_ (m : gmap str entry) (p : str) : bool :=
  bool_decide (is_Some (m !! p)).

(** [p] is [source_dir] or lies below it. *)
Definition below (source_dir p : str) : bool :=
  eqb p source_dir || startswith p (source_dir ++ [OsPath.sep]).

Definition member_of (e : entry) : option content :=
  match e with
  | Dir => None
  | File c => Some c
  end.

(** A directory that is there: the working directory (the empty path), the
    root, or a directory of the map. *)
Definition dir_exists (m : gmap str entry) (p : str) : bool :=
  forallb (λ c, c =? OsPath.sep) p || is_dir m p.

(** A path without its trailing separators, which names the same
    directory. *)
Definition unslashed (p : str) : str :=
  let q := rev (lstrip_char OsPath.sep (rev p)) in
  if bool_decide (q = []) then take 1 p else q.

(** The name of a member, [os.path.join(arcname, ...)] down the tree:
    [rel] is what the path of the file has after that of the tree. *)
Definition member_name (arcname rel : str) : str :=
  if bool_decide (arcname = []) then drop 1 rel else arcname ++ rel.

(** [tar.add(source_dir, arcname=arcname)]: the tree at [source] under
    the name [arcname]; the archive being written is left out. *)
Definition tar_members (m : gmap str entry) (source arcname skip : str)
  : list (str * option content) :=
  (λ kv : str * entry,
     (member_name arcname (drop (length source) kv.1), member_of kv.2))
  <$> List.filter (λ kv : str * entry,
                     below source kv.1 && negb (eqb kv.1 skip))
        (map_to_list m).

(** [with tarfile.open(tar_filepath, "w:gz") as tar:
       tar.add(source_dir, arcname=os.path.basename(source_dir))].
    The archive is opened for writing in a directory that is there; the
    tree is then looked up, a path with a trailing separator naming a
    directory only. *)
Definition compress (source_dir tar_filepath : str) : io world exn unit :=
  λ w,
    if is_dir (fs w) tar_filepath
       || negb (dir_exists (fs w) (OsPath.dirname tar_filepath))
    then (Raise (OSError tar_filepath), w)
    else
      let arcname := OsPath.basename source_dir in
      let source := unslashed source_dir in
      let created :=
        {| fs := <[tar_filepath := File (TarGz [])]> (fs w);
           ops := ops w |} in
      if negb (exists_ (fs w) source)
         || (negb (eqb source source_dir) && negb (is_dir (fs w) source))
      then (Raise (OSError source_dir), created)
      else
        (Ok (),
         {| fs := <[tar_filepath :=
                      File (TarGz (tar_members (fs w) source arcname
                                     tar_filepath))]> (fs w);
            ops := ops w ++ [Compress source_dir tar_filepath arcname] |}).

(** [shutil.move(src, dst)] of a regular file: into [dst] when it is a
    directory, else to the name [dst], in a directory that is there. *)
Definition move (src dst : str) : io world exn unit :=
  λ w,
    match fs w !! src with
    | None => (Raise (OSError src), w)
    | Some e =>
        let real_dst :=
          if is_dir (fs w) dst then OsPath.join dst (OsPath.basename src)
          else dst in
        if is_dir (fs w) dst && exists_ (fs w) real_dst then
          (Raise (OSError real_dst), w)
        else if negb (is_dir (fs w) dst)
                && negb (dir_exists (fs w) (OsPath.dirname dst)) then
          (Raise (OSError real_dst), w)
        else
          (Ok (),
           {| fs := <[real_dst := e]> (delete src (fs w));
              ops := ops w ++ [Move src real_dst] |})
    end.

(** [make_docset(source_dir, dst_dir, filename)] *)
Definition make_docset (source_dir dst_dir filename : str)
  : io world exn unit :=
  let tar_filepath := OsPath.join dst_dir (filename ++ u ".tar") in
  let targz_filepath := OsPath.join dst_dir (filename ++ u ".tar.gz") in
  let docset_filepath := OsPath.join dst_dir (filename ++ u ".docset") in
  (do! compress source_dir tar_filepath in
   do! move tar_filepath targz_filepath in
   move targz_filepath docset_filepath)%io.

(** [os.makedirs(name, exist_ok=True)] *)
Fixpoint makedirs_from (fuel : nat) (name : str) (m : gmap str entry)
  : result exn (gmap str entry) :=
  match m !! name with
  | Some Dir => Ok m
  | Some (File _) => Raise (OSError name)
  | None =>
      let head := OsPath.dirname name in
      match fuel with
      | O => Ok (<[name := Dir]> m)
      | S fuel' =>
          if bool_decide (head = []) || bool_decide (head = name) then
            Ok (<[name := Dir]> m)
          else
            match makedirs_from fuel' head m with
            | Raise e => Raise e
            | Ok m' => Ok (<[name := Dir]> m')
            end
      end
  end.

Definition makedirs (name : str) : io world exn unit :=
  λ w,
    match makedirs_from (length name) name (fs w) with
    | Raise e => (Raise e, w)
    | Ok m => (Ok (), {| fs := m; ops := ops w |})
    end.

(** The directories of [main]. *)
Definition package_dir (configuration : Configuration.t) : str :=
  OsPath.join (Configuration.build_folder configuration)
    (u "_4_ready_to_be_packaged").

Definition docset_dir (configuration : Configuration.t) : str :=
  OsPath.join (package_dir configuration)
    (Configuration.docset_name ++ u ".docset").

Definition version_output_dir (configuration : Configuration.t) : str :=
  OsPath.join
    (OsPath.join (Configuration.output_folder configuration) (u "versions"))
    (Configuration.powershell_version configuration).

(** The last lines of [main]: [os.makedirs(version_output_dir,
    exist_ok=True); make_docset(docset_dir, version_output_dir,
    Configuration.docset_name)]. *)
Definition package (configuration : Configuration.t) : io world exn unit :=
  (do! makedirs (version_output_dir configuration) in
   make_docset (docset_dir configuration) (version_output_dir configuration)
     Configuration.docset_name)%io.

(** The first component of the name of a member. *)
Fixpoint top_level (name : str) : str :=
  match name with
  | [] => []
  | c :: name' => if c =? OsPath.sep then [] else c :: top_level name'
  end.

End Packager.

(** ** The staging trees: [copy_folder]

    Every entry of the file system is writable: the branch of the error
    handler that adds the write permission and tries again does not arise. *)

Module Stage.

(** [shutil.rmtree(dst_folder, ignore_errors=False, onerror=onerror)].  The
    error of a tree that is not there is given to [onerror], which returns;
    the error of a regular file is raised again by [onerror]. *)
Definition rmtree (dst_folder : str) (m : gmap str Packager.entry)
  : result exn (gmap str Packager.entry) :=
  match m !! dst_folder with
  | None => Ok m
  | Some (Packager.File _) => Raise (OSError dst_folder)
  | Some Packager.Dir =>
      Ok (filter (λ kv : str * Packager.entry,
                    Packager.below dst_folder kv.1 = false) m)
  end.

(** What is strictly below [src], under the name it gets below [dst]. *)
Definition copies (src dst : str) (m : gmap str Packager.entry)
  : list (str * Packager.entry) :=
  (λ kv : str * Packager.entry, (dst ++ drop (length src) kv.1, kv.2))
  <$> List.filter (λ kv : str * Packager.entry,
                     startswith kv.1 (src ++ [OsPath.sep]))
        (map_to_list m).

(** [shutil.copytree(src_folder, dst_folder)] *)
Definition copytree (src dst : str) (m : gmap str Packager.entry)
  : result exn (gmap str Packager.entry) :=
  match m !! src with
  | Some Packager.Dir =>
      if Packager.exists_ m dst then Raise (OSError dst)
      else
        match Packager.makedirs_from (length dst) dst m with
        | Raise e => Raise e
        | Ok m1 => Ok (list_to_map (copies src dst m) ∪ m1)
        end
  | _ => Raise (OSError src)
  end.

(** [copy_folder(src_folder, dst_folder)] *)
Definition copy_folder (src_folder dst_folder : str)
  : io (gmap str Packager.entry) exn unit :=
  λ m,
    match rmtree dst_folder m with
    | Raise e => (Raise e, m)
    | Ok m1 =>
        match copytree src_folder dst_folder m1 with
        | Raise e => (Raise e, m1)
        | Ok m2 => (Ok (), m2)
        end
    end.

End Stage.

(** ** Vocabulary of the statements *)

(** *** The page-render fetch *)

(** The world after one more page load. *)
Definition loaded (url : str) (w : WebDriver.world) : WebDriver.world :=
  {| WebDriver.loads := S (WebDriver.loads w);
     WebDriver.trace := WebDriver.trace w ++ [WebDriver.DriverGet url] |}.

(** The world after the session has been replaced. *)
Definition reset (w : WebDriver.world) : WebDriver.world :=
  WebDriver.emit WebDriver.NewSession
    (WebDriver.emit (WebDriver.Sleep 2) (WebDriver.emit WebDriver.DriverQuit w)).

(** What the second attempt returns. *)
Definition second (o : WebDriver.oracle) (w : WebDriver.world)
  : result exn (option str) :=
  match o (S (WebDriver.loads w)) with
  | Ok html => Ok (Some html)
  | Raise e => Raise e
  end.

(** *** Matching *)

(** The longest prefix of [s] in the class, and what follows it. *)
Fixpoint span (cls : char → bool) (s : str) : str * str :=
  match s with
  | c :: s' => if cls c then let '(w, r) := span cls s' in (c :: w, r) else ([], s)
  | [] => ([], [])
  end.

(** The first place of [s] where the pattern matches: what is before it, the
    group, and what is after the match. *)
Fixpoint search (r : Re.regex) (s : str) : option (str * str * str) :=
  match Re.match_at r s with
  | Some (g, rest) => Some ([], g, rest)
  | None =>
      match s with
      | [] => None
      | c :: s' =>
          match search r s' with
          | Some (pre, g, rest) => Some (c :: pre, g, rest)
          | None => None
          end
      end
  end.

Section LinkVocabulary.
Variable unicode_alnum : char → bool.

Let word := Re.word unicode_alnum.

Definition view_param : str := u "view=powershell-".

(** [t] is [\w+-\w+]: two non-empty runs of word characters around a
    hyphen. *)
Definition is_token (t : str) : Prop :=
  ∃ w1 w2, t = w1 ++ Rewriter.hyphen :: w2 ∧ w1 ≠ [] ∧ w2 ≠ []
           ∧ forallb word w1 = true ∧ forallb word w2 = true.

(** [href] reads [pre], then the token [t], then ["?view=powershell-"],
    then [post]. *)
Definition occurs (href pre t post : str) : Prop :=
  href = pre ++ t ++ Rewriter.question :: view_param ++ post ∧ is_token t.

(** The occurrence that starts first. *)
Definition first_occurrence (href pre t post : str) : Prop :=
  occurs href pre t post
  ∧ ∀ pre' t' post', occurs href pre' t' post' → (length pre ≤ length pre')%nat.

(** What the pattern matches at the start of [s], read off the spans. *)
Definition token_at (s : str) : option (str * str) :=
  match span word s with
  | (_ :: _, d :: r2) =>
      if Rewriter.hyphen =? d then
        match span word r2 with
        | (_ :: _, q :: r4) =>
            if Rewriter.question =? q then
              if startswith r4 view_param
              then Some (take (length s - length (q :: r4)) s,
                         drop (length view_param) r4)
              else None
            else None
        | _ => None
        end
      else None
  | _ => None
  end.
End LinkVocabulary.

(** *** The search index *)

Section IndexVocabulary.
Import Indexer.

(** Some row of the table has the path [p] or the name [n]. *)
Definition collides (rows : list row) (n p : str) : bool :=
  existsb (λ r, eqb (path r) p || eqb (name r) n) rows.

Definition new_row (rows : list row) (n t p : str) : row :=
  {| id := next_rowid rows; name := n; type := t; path := p |}.

(** The three texts of a call can be bound to a statement. *)
Definition bindable (n t p : str) : bool :=
  encodable n && encodable t && encodable p.

(** The table exists, and no name and no path is there twice. *)
Definition unique (db : database) : Prop :=
  ∃ rows, searchIndex db = Some rows
          ∧ NoDup (name <$> rows) ∧ NoDup (path <$> rows).

(** The database right after the two [CREATE] statements. *)
Definition created : database := {| searchIndex := Some []; anchor := true |}.
End IndexVocabulary.

Definition self_named (module_name : str) (c : Crawler.cmdlet_infos) : bool :=
  eqb (Crawler.name c) module_name.

(** The calls of [insert_into_sqlite_db] that the indexer makes for one item
    of the table of contents, in order. *)
Definition attempts (item : str * Crawler.module_infos)
  : list (str * str * str) :=
  (item.1, u "Module", Crawler.index item.2)
  :: ((λ c, (Crawler.name c, u "Cmdlet", Crawler.path c))
      <$> List.filter (λ c, negb (self_named item.1 c)) (Crawler.cmdlets item.2)).

Definition attempt (db : Indexer.database) (a : str * str * str)
  : Indexer.database :=
  Indexer.insert_into_sqlite_db db a.1.1 a.1.2 a.2.

(** The table of contents without the commands named as their module. *)
Definition prune (item : str * Crawler.module_infos)
  : str * Crawler.module_infos :=
  (item.1,
   {| Crawler.m_name := Crawler.m_name item.2;
      Crawler.index := Crawler.index item.2;
      Crawler.cmdlets :=
        List.filter (λ c, negb (self_named item.1 c)) (Crawler.cmdlets item.2) |}).

(** The calls of [insert_into_sqlite_db] of a whole run, in order. *)
Definition all_attempts (content_toc : list (str * Crawler.module_infos))
  : list (str * str * str) :=
  concat (attempts <$> content_toc).

(** The columns (name, type, path) of a row. *)
Definition triple (r : Indexer.row) : str * str * str :=
  (Indexer.name r, Indexer.type r, Indexer.path r).

(** What one call does to the rows of the table. *)
Definition step_rows (rows : list Indexer.row) (a : str * str * str)
  : list Indexer.row :=
  if collides rows a.1.1 a.2 || negb (bindable a.1.1 a.1.2 a.2) then rows
  else rows ++ [new_row rows a.1.1 a.1.2 a.2].

(** *** The table of contents *)

(** The server answers every request with a text that encodes as UTF-8. *)
Definition serves (o : Crawler.oracle) : Prop :=
  ∀ n url, ∃ text, o n url = Some text ∧ encodable text = true.

(** The file system takes every directory and every file of the run. *)
Definition takes_all (w : Crawler.world) : Prop :=
  ∀ files p,
    Crawler.makedirs_error w files p = None
    ∧ Crawler.open_error w files p = None.

(** An exception that comes from outside the script: the server does not
    answer, the file system refuses a directory or a file, or a text that
    was served does not encode. *)
Definition external (o : Crawler.oracle) (w : Crawler.world) (e : exn)
  : Prop :=
  (∃ n url, o n url = None ∧ e = RequestException url)
  ∨ (∃ files p, Crawler.makedirs_error w files p = Some e)
  ∨ (∃ files p, Crawler.open_error w files p = Some e)
  ∨ (e = UnicodeEncodeError
     ∧ ∃ n url text, o n url = Some text ∧ encodable text = false).

Section CrawlVocabulary.
Variable urljoin : str → str → str.
Variable cwd : str.
Variable unicode_lower : str → str.
Variable configuration : Configuration.t.
Variable download_dir : str.

(** The folder of a module below the download folder. *)
Definition module_dir_of (m : Crawler.toc_module) : str :=
  OsPath.join (OsPath.join download_dir Configuration.base_url)
    (Crawler.module_title m).

(** What the crawler records for a module of the table of contents. *)
Definition infos_of (m : Crawler.toc_module) : Crawler.module_infos :=
  {| Crawler.m_name := Crawler.module_title m;
     Crawler.index :=
       OsPath.relpath cwd
         (OsPath.join (module_dir_of m) (Crawler.module_title m ++ u ".html"))
         download_dir;
     Crawler.cmdlets :=
       Crawler.record_of cwd (module_dir_of m) download_dir
       <$> Crawler.kept unicode_lower (Crawler.children m) |}.

(** The pages asked for a module: its own, then those of its commands. *)
Definition pages_of (m : Crawler.toc_module) : list str :=
  Crawler.versionned_url urljoin configuration (Crawler.module_href m)
  :: (Crawler.url_of urljoin configuration
      <$> Crawler.kept unicode_lower (Crawler.children m)).
End CrawlVocabulary.

(** Each string of [l] once, at the place where it comes first. *)
Fixpoint first_occurrences (l : list str) : list str :=
  match l with
  | [] => []
  | x :: l => x :: List.filter (λ y, negb (eqb y x)) (first_occurrences l)
  end.

(** The last module of the table of contents with the title [n]. *)
Definition last_named (modules : list Crawler.toc_module) (n : str)
  : option Crawler.toc_module :=
  last (List.filter (λ m, eqb (Crawler.module_title m) n) modules).

(** [d.get(k)] on a dict given as the list of its items. *)
Fixpoint dict_get (d : list (str * Crawler.module_infos)) (k : str)
  : option Crawler.module_infos :=
  match d with
  | [] => None
  | (k', v) :: rest => if eqb k' k then Some v else dict_get rest k
  end.

(** *** The tags of a document *)

(** The identities of the tags of a document, in document order.  Two
    tags of a parsed document are two objects. *)
Definition tag_ids (s : Soup.soup) : list nat :=
  omap Soup.id_of (Soup.soup_descendants s).

(** The tag [i] of a document. *)
Definition tag_at (i : nat) (s : Soup.soup) : option Soup.node :=
  List.find (Soup.has_id i) (Soup.soup_descendants s).

(** [tag.get(key)] for the tag [i] of a document. *)
Definition attr_at (i : nat) (key : str) (s : Soup.soup) : option str :=
  match tag_at i s with
  | Some n => Soup.get (Soup.attrs_of n) key
  | None => None
  end.

(** [soup.findAll("a", { "data-linktype" : "relative-path"})] *)
Definition relative_links (s : Soup.soup) : list Soup.node :=
  Soup.soup_findAll (u "a") [(u "data-linktype", u "relative-path")] s.

(** What the turn of [link] in the loop of [rewrite_soup] does to a node
    of the document. *)
Definition link_turn (unicode_alnum : char → bool)
    (configuration : Configuration.t) (link n : Soup.node) : Soup.node :=
  match Soup.id_of link, Soup.get (Soup.attrs_of link) (u "href") with
  | Some i, Some href =>
      match Rewriter.fixed_href unicode_alnum configuration href
              (Soup.text link) with
      | Some fixed =>
          if negb (eqb fixed href) then Soup.assign_in i (u "href") fixed n
          else n
      | None => n
      end
  | _, _ => n
  end.

(** *** Documents and paths *)

(** [r] is the record of the theme stylesheet with the href [href], for the
    documents of [documents_dir]. *)
Definition is_theme_resource (cwd documents_dir href : str)
    (r : Rewriter.ThemeResourceRecord) : Prop :=
  startswith (lstrip_char Rewriter.slash (strip href))
    Configuration.default_theme_uri = true
  ∧ Rewriter.url r = u "https://" ++ Configuration.domain ++ u "/" ++ strip href
  ∧ Rewriter.path r =
      OsPath.relpath cwd
        (OsPath.join (OsPath.join documents_dir Configuration.domain)
           (lstrip_char Rewriter.slash (strip href)))
        documents_dir.

(** What a search looks at in a node: its identity, its name and its
    attributes. *)
Definition label (n : Soup.node) : option (nat * str * list (str * str)) :=
  match n with
  | Soup.Text _ => None
  | Soup.Tag i nm attrs _ => Some (i, nm, attrs)
  end.

(** No element of the document matches the search. *)
Definition clean (name : str) (wanted : list (str * str)) (s : Soup.soup)
  : Prop :=
  Soup.soup_findAll name wanted s = [].

(** The scripts of the body of a document that have [async] and [defer]. *)
Definition deferred_scripts (s : Soup.soup) : list Soup.node :=
  match Soup.find (u "body") s with
  | Some body =>
      Soup.findAll (u "script") [(u "async", []); (u "defer", [])] body
  | None => []
  end.

Definition head_scripts (s : Soup.soup) : list Soup.node :=
  match Soup.find (u "head") s with
  | Some head => Soup.findAll (u "script") [] head
  | None => []
  end.

(** A file system in which every entry is named without trailing
    separators and lies in a directory that is there. *)
Definition well_formed (m : gmap str Packager.entry) : Prop :=
  map_Forall (λ (p : str) (_ : Packager.entry),
                Packager.unslashed p = p
                ∧ Packager.dir_exists m (OsPath.dirname p) = true) m.

(** What [join] puts before a relative name. *)
Definition joined (a : str) : str :=
  if bool_decide (a = []) || OsPath.endswith_sep a then a else a ++ [OsPath.sep].

(** ** Sample inputs *)

Definition start_url : str := u "https://docs.microsoft.com/en-us/powershell/module/?view=powershell-6".

(** A browser that resets the connection on the first load and answers the
    second. *)
Definition flaky_once : WebDriver.oracle :=
  λ n, match n with
       | O => Raise ConnectionResetError
       | S _ => Ok (u "<html></html>")
       end.

(** A browser that fails for a reason of its own on the first load. *)
Definition broken : WebDriver.oracle :=
  λ n, match n with
       | O => Raise (WebDriverException 1)
       | S _ => Ok (u "<html></html>")
       end.

(** A browser that hands out an empty page on the first load. *)
Definition blank_once : WebDriver.oracle :=
  λ n, match n with
       | O => Ok []
       | S _ => Ok (u "<html></html>")
       end.

(** [urllib.parse.urljoin] on a base with a query and a relative reference
    with no dot segments: the base up to its last slash, then the
    reference. *)
Definition urljoin_plain (base uri : str) : str :=
  let base := List.hd [] (OsPath.split_on 63 base) in
  take (length base - length (OsPath.basename base))%nat base ++ uri.

Definition powershell_6 : Configuration.t :=
  {| Configuration.powershell_version := u "6";
     Configuration.output_folder := u "out" |}.

(** A server that answers every request. *)
Definition always_up : Crawler.oracle := λ _ url, Some (u "<html/>").

Definition sample_children : list Crawler.toc_entry :=
  [ {| Crawler.toc_title := u "About"; Crawler.href := u "about/about" |};
    {| Crawler.toc_title := u "Get-Item"; Crawler.href := u "get-item" |};
    {| Crawler.toc_title := u "PROVIDERS"; Crawler.href := u "providers" |};
    {| Crawler.toc_title := u "Set-Item"; Crawler.href := u "set-item" |} ].

Definition sample_module_dir : str :=
  u "dl/docs.microsoft.com/en-us/powershell/module/Microsoft.PowerShell.Management".

Definition sample_crawl : result exn Crawler.module_infos * Crawler.world :=
  Crawler.download_module_contents urljoin_plain (u "/work") (λ s, s) always_up
    powershell_6 (u "Microsoft.PowerShell.Management")
    (u "microsoft.powershell.management") sample_module_dir sample_children
    (u "dl") Crawler.empty.

Definition theme_css : str :=
  u "/_themes/docs.theme/master/en-us/_themes/styles/main.css".

(** A downloaded command page: a theme stylesheet and a script in the head,
    a link to a sibling command in the body. *)
Definition sample_page : Soup.soup :=
  [ Soup.Tag 1 (u "html") []
      [ Soup.Tag 2 (u "head") []
          [ Soup.Tag 3 (u "link")
              [(u "rel", u "stylesheet"); (u "href", theme_css)] [];
            Soup.Tag 4 (u "script") [(u "src", u "/static/app.js")] [] ];
        Soup.Tag 5 (u "body") []
          [ Soup.Tag 6 (u "a")
              [(u "data-linktype", u "relative-path");
               (u "href", u "Get-Process?view=powershell-6")]
              [Soup.Text (u "Get-Process")] ] ] ].

(** A command page with a link back to its module. *)
Definition sample_page_back : Soup.soup :=
  [ Soup.Tag 1 (u "html") []
      [ Soup.Tag 2 (u "head") [] [];
        Soup.Tag 3 (u "body") []
          [ Soup.Tag 4 (u "a")
              [(u "data-linktype", u "relative-path");
               (u "href", u "./?view=powershell-6")]
              [Soup.Text (u "Get-Help")];
            Soup.Tag 5 (u "a")
              [(u "data-linktype", u "relative-path");
               (u "href", u "https://github.com/PowerShell/PowerShell")]
              [Soup.Text (u "PowerShell")] ] ] ].

Definition sample_documents_dir : str := u "out/_build_6/_2_html_rewrite".

Definition sample_html_path : str :=
  u "out/_build_6/_2_html_rewrite/docs.microsoft.com/en-us/powershell/module/M/Get-Item.html".

(** The rendered start page: a script in the head, the table of results and
    a script with [async] and [defer] in the body. *)
Definition sample_index_page : Soup.soup :=
  [ Soup.Tag 1 (u "html") []
      [ Soup.Tag 2 (u "head") []
          [ Soup.Tag 3 (u "script") [(u "src", u "/static/head.js")] [] ];
        Soup.Tag 4 (u "body") []
          [ Soup.Tag 5 (u "table")
              [(u "class", u "api-search-results standalone")]
              [ Soup.Tag 6 (u "a")
                  [(u "href", u "/en-us/powershell/module/cimcmdlets/?view=powershell-6");
                   (u "ms.title", u "CimCmdlets")]
                  [Soup.Text (u "CimCmdlets")] ];
            Soup.Tag 7 (u "script")
              [(u "async", []); (u "defer", []); (u "src", u "/static/body.js")]
              [] ] ] ].

(** The same page with no script in its head. *)
Definition sample_index_page_bare_head : Soup.soup :=
  [ Soup.Tag 1 (u "html") []
      [ Soup.Tag 2 (u "head") [] [];
        Soup.Tag 4 (u "body") []
          [ Soup.Tag 5 (u "table")
              [(u "class", u "api-search-results standalone")] [];
            Soup.Tag 7 (u "script")
              [(u "async", []); (u "defer", []); (u "src", u "/static/body.js")]
              [] ] ] ].

Definition sample_index_dir : str := u "out/_build_6/_3_additional_resources".

Definition sample_index_path : str :=
  u "out/_build_6/_3_additional_resources/docs.microsoft.com/en-us/index.html".

(** A build tree that is ready to be packaged, and no output directory
    yet. *)
Definition sample_build : Packager.world :=
  {| Packager.fs :=
       list_to_map
         [ (u "out", Packager.Dir);
           (u "out/_build_6", Packager.Dir);
           (u "out/_build_6/_4_ready_to_be_packaged", Packager.Dir);
           (u "out/_build_6/_4_ready_to_be_packaged/Powershell.docset",
            Packager.Dir);
           (u "out/_build_6/_4_ready_to_be_packaged/Powershell.docset/icon.png",
            Packager.File (Packager.Data (u "PNG")));
           (u "out/_build_6/_4_ready_to_be_packaged/Powershell.docset/Contents",
            Packager.Dir);
           (u "out/_build_6/_4_ready_to_be_packaged/Powershell.docset/Contents/Info.plist",
            Packager.File (Packager.Data (u "<plist/>"))) ];
     Packager.ops := [] |}.

(** A table of contents with a command named as its module and a command
    name that two modules share. *)
Definition sample_toc : list (str * Crawler.module_infos) :=
  [ (u "CimCmdlets",
     {| Crawler.m_name := u "CimCmdlets";
        Crawler.index := u "m/CimCmdlets/CimCmdlets.html";
        Crawler.cmdlets :=
          [ {| Crawler.name := u "Get-CimInstance";
               Crawler.path := u "m/CimCmdlets/Get-CimInstance.html" |};
            {| Crawler.name := u "CimCmdlets";
               Crawler.path := u "m/CimCmdlets/CimCmdlets.html" |} ] |});
    (u "PSDiagnostics",
     {| Crawler.m_name := u "PSDiagnostics";
        Crawler.index := u "m/PSDiagnostics/PSDiagnostics.html";
        Crawler.cmdlets :=
          [ {| Crawler.name := u "Get-CimInstance";
               Crawler.path := u "m/PSDiagnostics/Get-CimInstance.html" |};
            {| Crawler.name := u "Get-LogProperties";
               Crawler.path := u "m/PSDiagnostics/Get-LogProperties.html" |} ] |}) ].

Definition sample_index : Indexer.database :=
  fold_left Indexer.index_module sample_toc created.

(** The same build tree, with the output directory. *)
Definition sample_build_out : Packager.world :=
  {| Packager.fs :=
       <[u "out/versions/6" := Packager.Dir]>
         (<[u "out/versions" := Packager.Dir]> (Packager.fs sample_build));
     Packager.ops := [] |}.

(** The same again, with a directory where the archive is to go. *)
Definition sample_build_clash : Packager.world :=
  {| Packager.fs :=
       <[u "out/versions/6/Powershell.docset" := Packager.Dir]>
         (Packager.fs sample_build_out);
     Packager.ops := [] |}.

(** A file system with a downloaded tree and an older copy of it. *)
Definition sample_stages : gmap str Packager.entry :=
  list_to_map
    [ (u "out", Packager.Dir);
      (u "out/_1", Packager.Dir);
      (u "out/_1/a.html", Packager.File (Packager.Data (u "new")));
      (u "out/_2", Packager.Dir);
      (u "out/_2/a.html", Packager.File (Packager.Data (u "old")));
      (u "out/_2/stale.html", Packager.File (Packager.Data (u "old"))) ].

(** A table of contents in which a module is listed twice. *)
Definition sample_modules : list Crawler.toc_module :=
  [ {| Crawler.module_title := u "CimCmdlets";
       Crawler.module_href := u "cimcmdlets";
       Crawler.children :=
         [ {| Crawler.toc_title := u "Get-CimClass";
              Crawler.href := u "cimcmdlets/get-cimclass" |} ] |};
    {| Crawler.module_title := u "PSDiagnostics";
       Crawler.module_href := u "psdiagnostics";
       Crawler.children :=
         [ {| Crawler.toc_title := u "About";
              Crawler.href := u "psdiagnostics/about" |};
           {| Crawler.toc_title := u "Get-LogProperties";
              Crawler.href := u "psdiagnostics/get-logproperties" |} ] |};
    {| Crawler.module_title := u "CimCmdlets";
       Crawler.module_href := u "cimcmdlets2";
       Crawler.children :=
         [ {| Crawler.toc_title := u "Get-CimInstance";
              Crawler.href := u "cimcmdlets/get-ciminstance" |} ] |} ].

Definition sample_toc_of (text : str)
  : result exn (list Crawler.toc_module) := Ok sample_modules.

Definition sample_crawl_toc
  : result exn (list (str * Crawler.module_infos)) * Crawler.world :=
  Crawler.crawl_posh_contents urljoin_plain (u "/work") (λ s, s) always_up
    sample_toc_of powershell_6 (u "dl") Crawler.empty.

(** * Properties *)

(** ** Strings *)

Lemma eqb_eq (a b : str) : eqb a b = true ↔ a = b.
Proof. unfold eqb. apply bool_decide_eq_true. Qed.

Lemma eqb_neq (a b : str) : eqb a b = false ↔ a ≠ b.
Proof. unfold eqb. apply bool_decide_eq_false. Qed.

Lemma eqb_refl (a : str) : eqb a a = true.
Proof. by apply eqb_eq. Qed.

(** ** The page-render fetch *)

Section WebDriverFacts.
Import WebDriver.
Variable o : oracle.
Variable url : str.

Lemma get_url_page_caught w e :
  o (loads w) = Raise e → caught e = true →
  get_url_page o url w = (second o w, loaded url (reset (loaded url w))).
Proof.
  intros Ho Hc. unfold get_url_page, render, second. rewrite Ho, Hc. simpl.
  by destruct (o (S (loads w))).
Qed.

Lemma get_url_page_uncaught w e :
  o (loads w) = Raise e → caught e = false →
  get_url_page o url w = (Raise e, loaded url w).
Proof.
  intros Ho Hc. unfold get_url_page, render. by rewrite Ho, Hc.
Qed.

Lemma get_url_page_empty w :
  o (loads w) = Ok [] →
  get_url_page o url w = (second o w, loaded url (loaded url w)).
Proof.
  intros Ho. unfold get_url_page, render, second. rewrite Ho. simpl.
  by destruct (o (S (loads w))).
Qed.

Lemma get_url_page_content w c html :
  o (loads w) = Ok (c :: html) →
  get_url_page o url w = (Ok (Some (c :: html)), loaded url w).
Proof.
  intros Ho. unfold get_url_page, render. by rewrite Ho.
Qed.

(** Whatever the browser does, the method asks it for the page once or
    twice. *)
Lemma get_url_page_loads w :
  let w' := (get_url_page o url w).2 in
  loads w' = S (loads w) ∨ loads w' = S (S (loads w)).
Proof.
  destruct (o (loads w)) as [[|c html]|e] eqn:Ho.
  - rewrite get_url_page_empty by done. by right.
  - rewrite (get_url_page_content _ c html) by done. by left.
  - destruct (caught e) eqn:Hc.
    + rewrite (get_url_page_caught _ e) by done. by right.
    + rewrite (get_url_page_uncaught _ e) by done. by left.
Qed.
End WebDriverFacts.

(** C5. A connection failure of the first attempt makes the method quit the
    browser session, sleep, open a new session and ask for the page a second
    time, once: what the second attempt gives is the outcome of the call, an
    exception of the second attempt is raised to the caller, and in no run is
    the page asked for more than twice. *)
Theorem get_url_page_one_retry (o : WebDriver.oracle) (url : str)
    (w : WebDriver.world) (e : exn) :
  o (WebDriver.loads w) = Raise e →
  e = ConnectionResetError ∨ e = URLError →
  WebDriver.trace (WebDriver.get_url_page o url w).2 =
    WebDriver.trace w ++
      [WebDriver.DriverGet url; WebDriver.DriverQuit; WebDriver.Sleep 2;
       WebDriver.NewSession; WebDriver.DriverGet url]
  ∧ (WebDriver.get_url_page o url w).1 =
      match o (S (WebDriver.loads w)) with
      | Ok html => Ok (Some html)
      | Raise e2 => Raise e2
      end
  ∧ (∀ o' url' w0,
       (WebDriver.loads (WebDriver.get_url_page o' url' w0).2
        ≤ 2 + WebDriver.loads w0)%nat).
Proof.
  intros Ho He.
  assert (WebDriver.caught e = true) as Hc by (by destruct He as [-> | ->]).
  rewrite (get_url_page_caught o url w e Ho Hc).
  split; [|split].
  - simpl. by rewrite <- !app_assoc.
  - done.
  - intros o' url' w0. destruct (get_url_page_loads o' url' w0) as [-> | ->]; lia.
Qed.

Lemma get_url_page_one_retry_witness :
  WebDriver.trace
    (WebDriver.get_url_page flaky_once start_url WebDriver.fresh).2 =
    [] ++ [WebDriver.DriverGet start_url; WebDriver.DriverQuit;
           WebDriver.Sleep 2; WebDriver.NewSession;
           WebDriver.DriverGet start_url]
  ∧ (WebDriver.get_url_page flaky_once start_url WebDriver.fresh).1 =
      Ok (Some (u "<html></html>")).
Proof.
  destruct (get_url_page_one_retry flaky_once start_url WebDriver.fresh
              ConnectionResetError eq_refl (or_introl eq_refl))
    as (Htrace & Hres & _).
  split; [exact Htrace | exact Hres].
Defined.

(** C10. On the first attempt only [ConnectionResetError] and [URLError] are
    recovered: any other exception is raised to the caller after the one
    load, with no second attempt.  A first attempt that raises nothing and
    returns an empty page is followed by the second attempt, with no reset of
    the session in between. *)
Theorem get_url_page_recovery (o : WebDriver.oracle) (url : str)
    (w : WebDriver.world) :
  (∀ e, o (WebDriver.loads w) = Raise e →
        e ≠ ConnectionResetError → e ≠ URLError →
        WebDriver.get_url_page o url w =
          (Raise e,
           {| WebDriver.loads := S (WebDriver.loads w);
              WebDriver.trace := WebDriver.trace w ++ [WebDriver.DriverGet url] |}))
  ∧ (∀ e, o (WebDriver.loads w) = Raise e →
          e = ConnectionResetError ∨ e = URLError →
          WebDriver.loads (WebDriver.get_url_page o url w).2 =
            S (S (WebDriver.loads w)))
  ∧ (o (WebDriver.loads w) = Ok [] →
     WebDriver.get_url_page o url w =
       (match o (S (WebDriver.loads w)) with
        | Ok html => Ok (Some html)
        | Raise e2 => Raise e2
        end,
        {| WebDriver.loads := S (S (WebDriver.loads w));
           WebDriver.trace :=
             WebDriver.trace w ++
               [WebDriver.DriverGet url; WebDriver.DriverGet url] |})).
Proof.
  split; [|split].
  - intros e Ho H1 H2.
    assert (WebDriver.caught e = false) as Hc by (by destruct e).
    by rewrite (get_url_page_uncaught o url w e Ho Hc).
  - intros e Ho He.
    assert (WebDriver.caught e = true) as Hc by (by destruct He as [-> | ->]).
    by rewrite (get_url_page_caught o url w e Ho Hc).
  - intros Ho. rewrite (get_url_page_empty o url w Ho).
    unfold second, loaded. simpl. by rewrite <- app_assoc.
Qed.

Lemma get_url_page_recovery_witness :
  WebDriver.get_url_page broken start_url WebDriver.fresh =
    (Raise (WebDriverException 1),
     {| WebDriver.loads := 1;
        WebDriver.trace := [] ++ [WebDriver.DriverGet start_url] |})
  ∧ WebDriver.get_url_page blank_once start_url WebDriver.fresh =
      (Ok (Some (u "<html></html>")),
       {| WebDriver.loads := 2;
          WebDriver.trace :=
            [] ++ [WebDriver.DriverGet start_url;
                   WebDriver.DriverGet start_url] |}).
Proof.
  split.
  - apply (proj1 (get_url_page_recovery broken start_url WebDriver.fresh)
             (WebDriverException 1) eq_refl); discriminate.
  - apply (proj2 (proj2 (get_url_page_recovery blank_once start_url
                           WebDriver.fresh)) eq_refl).
Defined.

(** ** The crawler *)

Section CrawlerFacts.
Import Crawler.
Variable urljoin : str → str → str.
Variable cwd : str.
Variable unicode_lower : str → str.
Variable o : oracle.
Variable configuration : Configuration.t.
Variables module_dir root_dir : str.

Local Abbreviation kept := (Crawler.kept unicode_lower).
Local Abbreviation url_of := (Crawler.url_of urljoin configuration).
Local Abbreviation record_of := (Crawler.record_of cwd module_dir root_dir).
Local Abbreviation download_cmdlets :=
  (Crawler.download_cmdlets urljoin cwd unicode_lower o configuration
     module_dir root_dir).

(** One download: the request is made unless the directory cannot be
    made, it is made when the call returns, and the file system stays the
    one of the run. *)
Lemma download_textfile_spec url file w :
  let run := download_textfile o url file w in
  (requested run.2 = requested w ++ [url]
   ∨ (requested run.2 = requested w ∧ ∃ e, run.1 = Raise e))
  ∧ (run.1 = Ok () → requested run.2 = requested w ++ [url])
  ∧ makedirs_error run.2 = makedirs_error w
  ∧ open_error run.2 = open_error w.
Proof.
  unfold download_textfile.
  destruct (makedirs_error w (written w) (OsPath.dirname file)) as [e|].
  { simpl. split; [right; split; [done|by exists e]|done]. }
  destruct (o (length (requested w)) url) as [text|]; [|by split; [left|]].
  destruct (open_error w (written w) file) as [e|]; [by split; [left|]|].
  destruct (encodable text); by split; [left|].
Qed.

Lemma download_textfile_cause url file w e :
  (download_textfile o url file w).1 = Raise e → external o w e.
Proof.
  unfold download_textfile, external.
  destruct (makedirs_error w (written w) (OsPath.dirname file)) as [e0|] eqn:Hm.
  { intros [= <-]. right. left. eauto. }
  destruct (o (length (requested w)) url) as [text|] eqn:Ho.
  2:{ intros [= <-]. left. eauto. }
  destruct (open_error w (written w) file) as [e0|] eqn:Hf.
  { intros [= <-]. right. right. left. eauto. }
  destruct (encodable text) eqn:He; [done|].
  intros [= <-]. right. right. right. eauto 6.
Qed.

Lemma external_same w w1 e :
  makedirs_error w1 = makedirs_error w → open_error w1 = open_error w →
  external o w1 e → external o w e.
Proof. unfold external. by intros -> ->. Qed.

Lemma download_textfile_ok url file w :
  serves o → takes_all w →
  (download_textfile o url file w).1 = Ok ().
Proof.
  intros Ho Hw. unfold download_textfile.
  destruct (Hw (written w) (OsPath.dirname file)) as [-> _].
  destruct (Hw (written w) file) as [_ ->].
  destruct (Ho (length (requested w)) url) as (text & -> & ->). done.
Qed.

Lemma download_textfile_takes_all url file w :
  takes_all w → takes_all (download_textfile o url file w).2.
Proof.
  intros Hw files p.
  destruct (download_textfile_spec url file w) as (_ & _ & -> & ->).
  apply Hw.
Qed.

(** The loop over the child entries: it asks for the pages of the entries
    that are kept, in order, up to the first failure; when it ends normally
    it has asked for all of them and made one record for each. *)
Lemma download_cmdlets_spec cmdlets acc w :
  ∃ fetched,
    fetched `prefix_of` kept cmdlets
    ∧ requested (download_cmdlets cmdlets acc w).2 =
        requested w ++ (url_of <$> fetched)
    ∧ (∀ infos, (download_cmdlets cmdlets acc w).1 = Ok infos →
         fetched = kept cmdlets ∧ infos = acc ++ (record_of <$> kept cmdlets)).
Proof.
  revert acc w. induction cmdlets as [|c rest IH]; intros acc w.
  - exists []. simpl. split; [done|]. split; [by rewrite app_nil_r|].
    intros infos [= <-]. by rewrite app_nil_r.
  - simpl. unfold Crawler.kept. simpl. fold (kept rest).
    destruct (special_toc unicode_lower (toc_title c)) eqn:Hs; simpl.
    + apply IH.
    + unfold bind, download_page_contents.
      destruct (download_textfile_spec
                  (versionned_url urljoin configuration (href c))
                  (cmdlet_filepath module_dir (toc_title c)) w)
        as (Hreq & Hok1 & _).
      destruct (download_textfile o _ _ w) as [[[]|e] w1] eqn:Hd;
        simpl in Hreq, Hok1.
      * specialize (Hok1 eq_refl).
        destruct (IH (acc ++ [{| name := toc_title c;
                                 path := OsPath.relpath cwd
                                   (cmdlet_filepath module_dir (toc_title c))
                                   root_dir |}]) w1)
          as (fetched & Hpre & Hr & Hok).
        exists (c :: fetched). split; [by apply prefix_cons|].
        split.
        { rewrite Hr, Hok1. simpl. by rewrite <- app_assoc. }
        intros infos Hi. destruct (Hok infos Hi) as [-> ->].
        split; [done|]. simpl. by rewrite <- app_assoc.
      * destruct Hreq as [Hreq|[Hreq _]].
        -- exists [c]. split; [apply prefix_cons, prefix_nil|].
           split; [done|]. intros infos [=].
        -- exists []. split; [apply prefix_nil|].
           split; [by rewrite app_nil_r|]. intros infos [=].
Qed.

Lemma download_cmdlets_total cmdlets acc w :
  serves o → takes_all w →
  ∃ infos, (download_cmdlets cmdlets acc w).1 = Ok infos.
Proof.
  intros Ho. revert acc w. induction cmdlets as [|c rest IH]; intros acc w Hw.
  - by exists acc.
  - simpl. destruct (special_toc unicode_lower (toc_title c)); [by apply IH|].
    unfold bind, download_page_contents.
    pose proof (download_textfile_ok
                  (versionned_url urljoin configuration (href c))
                  (cmdlet_filepath module_dir (toc_title c)) w Ho Hw) as Hok.
    pose proof (download_textfile_takes_all
                  (versionned_url urljoin configuration (href c))
                  (cmdlet_filepath module_dir (toc_title c)) w Hw) as Hw1.
    destruct (download_textfile o _ _ w) as [[[]|e] w1]; [by apply IH|done].
Qed.

Lemma download_cmdlets_cause cmdlets acc w e :
  (download_cmdlets cmdlets acc w).1 = Raise e → external o w e.
Proof.
  revert acc w. induction cmdlets as [|c rest IH]; intros acc w; [done|].
  simpl. destruct (special_toc unicode_lower (toc_title c)); [apply IH|].
  unfold bind, download_page_contents.
  pose proof (download_textfile_cause
                (versionned_url urljoin configuration (href c))
                (cmdlet_filepath module_dir (toc_title c)) w) as Hcause.
  destruct (download_textfile_spec
              (versionned_url urljoin configuration (href c))
              (cmdlet_filepath module_dir (toc_title c)) w)
    as (_ & _ & Hm & Hf).
  destruct (download_textfile o _ _ w) as [[[]|e0] w1]; simpl in *.
  - intros Hrun. apply (external_same w w1); [done|done|]. by apply (IH _ _ Hrun).
  - intros [= <-]. by apply Hcause.
Qed.

Lemma download_cmdlets_same cmdlets acc w :
  makedirs_error (download_cmdlets cmdlets acc w).2 = makedirs_error w
  ∧ open_error (download_cmdlets cmdlets acc w).2 = open_error w.
Proof.
  revert acc w. induction cmdlets as [|c rest IH]; intros acc w; [done|].
  simpl. destruct (special_toc unicode_lower (toc_title c)); [apply IH|].
  unfold bind, download_page_contents.
  destruct (download_textfile_spec
              (versionned_url urljoin configuration (href c))
              (cmdlet_filepath module_dir (toc_title c)) w)
    as (_ & _ & Hm & Hf).
  destruct (download_textfile o _ _ w) as [[[]|e0] w1]; simpl in *; [|done].
  destruct (IH (acc ++ [{| name := toc_title c;
                           path := OsPath.relpath cwd
                             (cmdlet_filepath module_dir (toc_title c))
                             root_dir |}]) w1) as [-> ->].
  done.
Qed.

Lemma download_cmdlets_takes_all cmdlets acc w :
  takes_all w → takes_all (download_cmdlets cmdlets acc w).2.
Proof.
  revert acc w. induction cmdlets as [|c rest IH]; intros acc w Hw; [done|].
  simpl. destruct (special_toc unicode_lower (toc_title c)); [by apply IH|].
  unfold bind, download_page_contents.
  pose proof (download_textfile_takes_all
                (versionned_url urljoin configuration (href c))
                (cmdlet_filepath module_dir (toc_title c)) w Hw) as Hw1.
  destruct (download_textfile o _ _ w) as [[[]|e] w1]; [by apply IH|done].
Qed.

Lemma kept_spec cmdlets c :
  c ∈ kept cmdlets ↔
  c ∈ cmdlets ∧
  lower unicode_lower (toc_title c) ∉
    [u "about"; u "functions"; u "providers"; u "provider"].
Proof.
  unfold Crawler.kept. rewrite list_elem_of_In, filter_In, <- list_elem_of_In.
  unfold special_toc. rewrite negb_true_iff, bool_decide_eq_false. done.
Qed.
End CrawlerFacts.

Lemma download_module_contents_takes_all
    (urljoin : str → str → str) (cwd : str) (unicode_lower : str → str)
    (o : Crawler.oracle) (configuration : Configuration.t)
    (module_name module_uri module_dir : str)
    (cmdlets : list Crawler.toc_entry) (root_dir : str) (w : Crawler.world) :
  takes_all w →
  takes_all
    (Crawler.download_module_contents urljoin cwd unicode_lower o configuration
       module_name module_uri module_dir cmdlets root_dir w).2.
Proof.
  intros Hw. unfold Crawler.download_module_contents, bind.
  unfold Crawler.download_page_contents.
  pose proof (download_textfile_takes_all o
                (Crawler.versionned_url urljoin configuration module_uri)
                (OsPath.join module_dir (module_name ++ u ".html")) w Hw) as Hw1.
  destruct (Crawler.download_textfile o _ _ w) as [[[]|e] w1]; [|done].
  pose proof (download_cmdlets_takes_all urljoin cwd unicode_lower o
                configuration module_dir root_dir cmdlets [] w1 Hw1) as Hw2.
  by destruct (Crawler.download_cmdlets _ _ _ _ _ _ _ _ _ w1) as [[i|e] w2].
Qed.

(** One module raises only what comes from outside, and leaves the file
    system the one of the run. *)
Lemma download_module_contents_cause
    (urljoin : str → str → str) (cwd : str) (unicode_lower : str → str)
    (o : Crawler.oracle) (configuration : Configuration.t)
    (module_name module_uri module_dir : str)
    (cmdlets : list Crawler.toc_entry) (root_dir : str) (w : Crawler.world) :
  let run :=
    Crawler.download_module_contents urljoin cwd unicode_lower o configuration
      module_name module_uri module_dir cmdlets root_dir w in
  (∀ e, run.1 = Raise e → external o w e)
  ∧ Crawler.makedirs_error run.2 = Crawler.makedirs_error w
  ∧ Crawler.open_error run.2 = Crawler.open_error w.
Proof.
  intros run. subst run. unfold Crawler.download_module_contents, bind.
  unfold Crawler.download_page_contents.
  pose proof (download_textfile_cause o
                (Crawler.versionned_url urljoin configuration module_uri)
                (OsPath.join module_dir (module_name ++ u ".html")) w) as Hcause.
  destruct (download_textfile_spec o
              (Crawler.versionned_url urljoin configuration module_uri)
              (OsPath.join module_dir (module_name ++ u ".html")) w)
    as (_ & _ & Hm & Hf).
  destruct (Crawler.download_textfile o _ _ w) as [[[]|e0] w1]; simpl in *.
  2:{ split; [|done]. intros e [= <-]. by apply Hcause. }
  pose proof (download_cmdlets_cause urljoin cwd unicode_lower o
                configuration module_dir root_dir cmdlets [] w1) as Hcause2.
  destruct (download_cmdlets_same urljoin cwd unicode_lower o
              configuration module_dir root_dir cmdlets [] w1) as [Hm2 Hf2].
  destruct (Crawler.download_cmdlets _ _ _ _ _ _ _ _ _ w1) as [[i|e0] w2];
    simpl in *.
  - split; [done|]. by rewrite Hm2, Hf2.
  - split; [|by rewrite Hm2, Hf2]. intros e [= <-].
    apply (external_same o w w1); [done|done|]. by apply Hcause2.
Qed.

(** One module: the pages asked for are a beginning of the page of the
    module followed by the pages of the entries that are kept; all of them
    when the call returns, with one record for each entry that is kept. *)
Lemma download_module_contents_spec
    (urljoin : str → str → str) (cwd : str) (unicode_lower : str → str)
    (o : Crawler.oracle) (configuration : Configuration.t)
    (module_name module_uri module_dir : str)
    (cmdlets : list Crawler.toc_entry) (root_dir : str) (w : Crawler.world) :
  let run :=
    Crawler.download_module_contents urljoin cwd unicode_lower o configuration
      module_name module_uri module_dir cmdlets root_dir w in
  let kept := Crawler.kept unicode_lower cmdlets in
  let pages :=
    Crawler.versionned_url urljoin configuration module_uri
    :: (Crawler.url_of urljoin configuration <$> kept) in
  (∃ fetched,
     fetched `prefix_of` pages
     ∧ Crawler.requested run.2 = Crawler.requested w ++ fetched
     ∧ (∀ infos, run.1 = Ok infos →
          fetched = pages
          ∧ infos =
              {| Crawler.m_name := module_name;
                 Crawler.index :=
                   OsPath.relpath cwd
                     (OsPath.join module_dir (module_name ++ u ".html"))
                     root_dir;
                 Crawler.cmdlets :=
                   Crawler.record_of cwd module_dir root_dir <$> kept |}))
  ∧ (serves o → takes_all w → ∃ infos, run.1 = Ok infos).
Proof.
  intros run kept pages. subst run pages.
  unfold Crawler.download_module_contents, bind.
  unfold Crawler.download_page_contents.
  set (module_url := Crawler.versionned_url urljoin configuration module_uri).
  destruct (download_textfile_spec o module_url
              (OsPath.join module_dir (module_name ++ u ".html")) w)
    as (Hreq & Hok1 & _).
  pose proof (download_textfile_ok o module_url
                (OsPath.join module_dir (module_name ++ u ".html")) w) as Hgo.
  pose proof (download_textfile_takes_all o module_url
                (OsPath.join module_dir (module_name ++ u ".html")) w) as Hw1.
  destruct (Crawler.download_textfile o module_url _ w) as [[[]|e] w1] eqn:Hd;
    simpl in Hreq, Hok1, Hgo, Hw1.
  - specialize (Hok1 eq_refl).
    destruct (download_cmdlets_spec urljoin cwd unicode_lower o configuration
                module_dir root_dir cmdlets [] w1) as (fetched & Hpre & Hr & Hok).
    pose proof (download_cmdlets_total urljoin cwd unicode_lower o configuration
                  module_dir root_dir cmdlets [] w1) as Htot.
    destruct (Crawler.download_cmdlets urljoin cwd unicode_lower o configuration
                module_dir root_dir cmdlets [] w1) as [[infos|e] w2]; simpl in *.
    + destruct (Hok infos eq_refl) as [-> ->]. split.
      * exists (module_url :: (Crawler.url_of urljoin configuration <$> kept)).
        split; [done|]. split; [rewrite Hr, Hok1; by rewrite <- app_assoc|].
        by intros ? [= <-].
      * intros _ _. by eexists.
    + split.
      * exists (module_url :: (Crawler.url_of urljoin configuration <$> fetched)).
        split.
        { apply prefix_cons. destruct Hpre as [k Hk]. fold kept in Hk.
          rewrite Hk, fmap_app. by apply prefix_app_r. }
        split; [rewrite Hr, Hok1; by rewrite <- app_assoc|]. by intros ? [=].
      * intros Ho Hw. destruct (Htot Ho (Hw1 Hw)) as [? [=]].
  - split.
    + destruct Hreq as [Hreq|[Hreq _]].
      * exists [module_url]. split; [apply prefix_cons, prefix_nil|].
        split; [done|]. by intros ? [=].
      * exists []. split; [apply prefix_nil|]. split; [by rewrite app_nil_r|].
        by intros ? [=].
    + intros Ho Hw. by specialize (Hgo Ho Hw).
Qed.



Example sample_crawl_records :
  Crawler.cmdlets <$> (match sample_crawl.1 with Ok i => Some i | Raise _ => None end)
  = Some
      [ {| Crawler.name := u "Get-Item";
           Crawler.path :=
             u "docs.microsoft.com/en-us/powershell/module/Microsoft.PowerShell.Management/Get-Item.html" |};
        {| Crawler.name := u "Set-Item";
           Crawler.path :=
             u "docs.microsoft.com/en-us/powershell/module/Microsoft.PowerShell.Management/Set-Item.html" |} ].
Proof. vm_compute. reflexivity. Qed.

(** ** The matcher *)

Lemma span_app cls s : (span cls s).1 ++ (span cls s).2 = s.
Proof.
  induction s as [|c s IH]; [done|]. simpl.
  destruct (cls c); [|done]. destruct (span cls s) as [w r]. simpl in *.
  by rewrite IH.
Qed.

Lemma span_all cls s : forallb cls (span cls s).1 = true.
Proof.
  induction s as [|c s IH]; [done|]. simpl.
  destruct (cls c) eqn:Hc; [|done]. destruct (span cls s) as [w r]. simpl in *.
  by rewrite Hc, IH.
Qed.

Lemma span_stop cls s c r : (span cls s).2 = c :: r → cls c = false.
Proof.
  induction s as [|d s IH]; [done|]. simpl.
  destruct (cls d) eqn:Hd.
  - destruct (span cls s) as [w r']. simpl in *. exact IH.
  - simpl. by intros [= <- _].
Qed.

(** A run of the class followed by a character outside it is the span. *)
Lemma span_unique cls w c r :
  forallb cls w = true → cls c = false → span cls (w ++ c :: r) = (w, c :: r).
Proof.
  intros Hw Hc. induction w as [|d w IH]; simpl.
  - by rewrite Hc.
  - simpl in Hw. apply andb_true_iff in Hw as [Hd Hw]. rewrite Hd, (IH Hw). done.
Qed.

Lemma span_length cls s :
  (length (span cls s).1 + length (span cls s).2 = length s)%nat.
Proof. by rewrite <- length_app, span_app. Qed.

(** A greedy [cls+] whose continuation refuses every string that starts in
    the class can only stop at the end of the span. *)
Lemma plus_k_span {A} cls s (k : str → option A) :
  (∀ c s', cls c = true → k (c :: s') = None) →
  Re.plus_k cls s k =
    match span cls s with
    | ([], _) => None
    | (_ :: _, r) => k r
    end.
Proof.
  intros Hk. induction s as [|c s IH]; [done|]. simpl.
  destruct (cls c) eqn:Hc; [|done]. rewrite IH.
  destruct (span cls s) as [[|d w] r] eqn:Hs.
  - assert (r = s) as -> by (by rewrite <- (span_app cls s), Hs).
    done.
  - destruct (k r) eqn:Hr; [done|].
    assert (cls d = true) as Hd.
    { pose proof (span_all cls s) as Hall. rewrite Hs in Hall. simpl in Hall.
      by apply andb_true_iff in Hall as [? _]. }
    pose proof (span_app cls s) as Happ. rewrite Hs in Happ. simpl in Happ.
    rewrite <- Happ. by apply Hk.
Qed.

Lemma run_lit {A} l s cap (k : str → option str → option A) :
  Re.run (Re.lit l) s cap k =
    if startswith s l then k (drop (length l) s) cap else None.
Proof.
  revert s. induction l as [|c l IH]; intros s; simpl.
  - by destruct s.
  - destruct s as [|d s]; [done|]. simpl. destruct (c =? d) eqn:Hcd; [|done].
    simpl. apply IH.
Qed.

Lemma startswith_spec s p : startswith s p = true ↔ ∃ r, s = p ++ r.
Proof.
  revert s. induction p as [|c p IH]; intros s; simpl.
  - split; [by exists s|done].
  - destruct s as [|d s].
    + split; [done|]. by intros [r [=]].
    + rewrite andb_true_iff, N.eqb_eq, IH. split.
      * intros [-> [r ->]]. by exists r.
      * intros [r [= -> ->]]. split; [done|]. by exists r.
Qed.

(** ** The link pattern of [rewrite_soup] *)

Section LinkPattern.
Import Rewriter.
Variable unicode_alnum : char → bool.

Local Abbreviation word := (Re.word unicode_alnum).
Local Abbreviation link_pattern := (Rewriter.link_pattern unicode_alnum).

Lemma word_hyphen : word hyphen = false.
Proof. reflexivity. Qed.

Lemma word_question : word question = false.
Proof. reflexivity. Qed.

Lemma match_at_link_pattern s : Re.match_at link_pattern s = token_at unicode_alnum s.
Proof.
  unfold Re.match_at, Rewriter.link_pattern, token_at. cbn [Re.run].
  rewrite plus_k_span.
  2:{ intros c s' Hc. destruct (hyphen =? c) eqn:E; [|done].
      apply N.eqb_eq in E as <-. by rewrite word_hyphen in Hc. }
  destruct (span word s) as [[|c1 w1] [|d r2]]; try done.
  destruct (hyphen =? d); [|done].
  rewrite plus_k_span.
  2:{ intros c s' Hc. destruct (question =? c) eqn:E; [|done].
      apply N.eqb_eq in E as <-. by rewrite word_question in Hc. }
  destruct (span word r2) as [[|c2 w2] [|q r4]]; try done.
  destruct (question =? q); [|done].
  rewrite (run_lit (u "view=powershell-")). fold view_param.
  by destruct (startswith r4 view_param).
Qed.

Lemma token_at_sound s t rest :
  token_at unicode_alnum s = Some (t, rest) →
  is_token unicode_alnum t ∧ s = t ++ question :: view_param ++ rest.
Proof.
  unfold token_at.
  pose proof (span_app word s) as Hs. pose proof (span_all word s) as Hw1.
  destruct (span word s) as [[|c1 w1] [|d r2]]; try done.
  destruct (hyphen =? d) eqn:Hd; [|done]. apply N.eqb_eq in Hd as <-.
  pose proof (span_app word r2) as Hr. pose proof (span_all word r2) as Hw2.
  destruct (span word r2) as [[|c2 w2] [|q r4]]; try done.
  destruct (question =? q) eqn:Hq; [|done]. apply N.eqb_eq in Hq as <-.
  destruct (startswith r4 view_param) eqn:Hv; [|done].
  apply startswith_spec in Hv as [post ->].
  cbn [fst snd] in *.
  assert (s = ((c1 :: w1) ++ hyphen :: c2 :: w2)
                ++ question :: view_param ++ post) as Hs'.
  { rewrite <- Hs, <- Hr. by rewrite <- !app_assoc. }
  rewrite drop_app_length.
  rewrite Hs' at 2. rewrite take_app_length'.
  2:{ rewrite Hs', length_app. cbn [length]. lia. }
  intros [= <- <-]. split; [|done].
  by exists (c1 :: w1), (c2 :: w2).
Qed.

Lemma token_at_complete s t rest :
  is_token unicode_alnum t → s = t ++ question :: view_param ++ rest →
  token_at unicode_alnum s = Some (t, rest).
Proof.
  intros (w1 & w2 & -> & Hn1 & Hn2 & Hw1 & Hw2) ->.
  unfold token_at. rewrite <- app_assoc. rewrite <- app_comm_cons.
  rewrite (span_unique word w1 hyphen) by done.
  destruct w1 as [|c1 w1]; [done|]. rewrite N.eqb_refl.
  rewrite (span_unique word w2 question) by done.
  destruct w2 as [|c2 w2]; [done|]. rewrite N.eqb_refl.
  assert (startswith (view_param ++ rest) view_param = true) as ->
    by (apply startswith_spec; by exists rest).
  rewrite drop_app_length. f_equal. f_equal.
  rewrite app_comm_cons, (app_assoc (c1 :: w1)).
  apply take_app_length'. rewrite (length_app (_ ++ _)). apply Nat.add_sub.
Qed.
End LinkPattern.

(** ** [findall] and the first match *)

(** [targets[0]] is the group of the first match, and [targets] is empty
    when there is no match. *)
Lemma findall_head r s :
  head (Re.findall r s) = (λ m : str * str * str, m.1.2) <$> search r s.
Proof.
  unfold Re.findall.
  assert (∀ fuel s, (length s < fuel)%nat →
            head (Re.findall_from fuel r s)
            = (λ m : str * str * str, m.1.2) <$> search r s) as H.
  { clear s. induction fuel as [|fuel IH]; intros s Hlen; [lia|].
    destruct s as [|c s]; simpl.
    - destruct (Re.match_at r []) as [[g rest]|]; [|done].
      by destruct (length rest <? 0)%nat.
    - destruct (Re.match_at r (c :: s)) as [[g rest]|].
      + by destruct (length rest <? S (length s))%nat.
      + simpl in Hlen. rewrite IH by lia.
        by destruct (search r s) as [[[pre g] rest]|]. }
  apply H. lia.
Qed.

Lemma search_some r s pre g rest :
  search r s = Some (pre, g, rest) →
  ∃ suffix,
    s = pre ++ suffix ∧ Re.match_at r suffix = Some (g, rest)
    ∧ ∀ pre' suffix', s = pre' ++ suffix' →
        (length pre' < length pre)%nat → Re.match_at r suffix' = None.
Proof.
  revert pre. induction s as [|c s IH]; intros pre; simpl.
  - destruct (Re.match_at r []) as [[g' rest']|] eqn:Hm; [|done].
    intros [= <- <- <-]. exists []. split; [done|]. split; [done|].
    simpl. intros; lia.
  - destruct (Re.match_at r (c :: s)) as [[g' rest']|] eqn:Hm.
    + intros [= <- <- <-]. exists (c :: s). split; [done|]. split; [done|].
      simpl. intros; lia.
    + destruct (search r s) as [[[pre0 g0] rest0]|] eqn:Hs; [|done].
      intros [= <- <- <-].
      destruct (IH pre0 eq_refl) as (suffix & -> & Hsuf & Hleft).
      exists suffix. split; [done|]. split; [done|].
      intros [|c' pre'] suffix' Heq Hlen.
      * simpl in Heq. by subst suffix'.
      * simpl in Heq, Hlen. injection Heq as -> Heq.
        apply (Hleft pre' suffix' Heq). lia.
Qed.

Lemma search_none r s :
  search r s = None → ∀ pre suffix, s = pre ++ suffix → Re.match_at r suffix = None.
Proof.
  induction s as [|c s IH]; simpl.
  - destruct (Re.match_at r []) as [[g' rest']|] eqn:Hm; [done|].
    intros _ pre suffix Heq. symmetry in Heq.
    apply app_eq_nil in Heq as [_ ->]. done.
  - destruct (Re.match_at r (c :: s)) as [[g' rest']|] eqn:Hm; [done|].
    destruct (search r s) as [[[pre0 g0] rest0]|] eqn:Hs; [done|].
    intros _ [|c' pre] suffix Heq.
    + simpl in Heq. by subst suffix.
    + simpl in Heq. injection Heq as -> Heq. by apply (IH eq_refl pre).
Qed.

Section LinkSearch.
Import Rewriter.
Variable unicode_alnum : char → bool.

Local Abbreviation link_pattern := (Rewriter.link_pattern unicode_alnum).
Local Abbreviation occ := (occurs unicode_alnum).
Local Abbreviation first_occ := (first_occurrence unicode_alnum).

Lemma occurs_match href pre t post :
  occ href pre t post ↔
  href = pre ++ (t ++ question :: view_param ++ post)
  ∧ Re.match_at link_pattern (t ++ question :: view_param ++ post)
    = Some (t, post).
Proof.
  unfold occurs. rewrite match_at_link_pattern. split.
  - intros [-> Ht]. split; [done|]. by apply token_at_complete.
  - intros [-> Hm]. split; [done|]. by apply token_at_sound in Hm as [? _].
Qed.

Lemma search_first_occurrence href pre t post :
  search link_pattern href = Some (pre, t, post) →
  first_occ href pre t post.
Proof.
  intros Hs. apply search_some in Hs as (suffix & -> & Hm & Hleft).
  pose proof Hm as Hm'. rewrite match_at_link_pattern in Hm'.
  apply token_at_sound in Hm' as [Ht ->].
  split; [done|].
  intros pre' t' post' Hocc. apply occurs_match in Hocc as [Heq Hm'].
  destruct (decide (length pre' < length pre)%nat) as [Hlt|]; [|lia].
  rewrite (Hleft pre' _ Heq Hlt) in Hm'. done.
Qed.

Lemma search_no_occurrence href :
  search link_pattern href = None → ∀ pre t post, ¬ occ href pre t post.
Proof.
  intros Hs pre t post Hocc. apply occurs_match in Hocc as [Heq Hm].
  by rewrite (search_none _ _ Hs pre _ Heq) in Hm.
Qed.

(** The first occurrence is the one [findall] reports first. *)
Lemma first_occurrence_search href pre t post :
  first_occ href pre t post →
  search link_pattern href = Some (pre, t, post).
Proof.
  intros [Hocc Hleft].
  destruct (search link_pattern href) as [[[pre0 t0] post0]|] eqn:Hs.
  - pose proof (search_first_occurrence _ _ _ _ Hs) as [Hocc0 Hleft0].
    pose proof (Hleft _ _ _ Hocc0) as H1. pose proof (Hleft0 _ _ _ Hocc) as H2.
    apply occurs_match in Hocc as [Heq Hm].
    apply occurs_match in Hocc0 as [Heq0 Hm0].
    assert (pre = pre0 ∧
            t ++ question :: view_param ++ post
            = t0 ++ question :: view_param ++ post0) as [-> Hsuf].
    { apply app_inj_1; [lia|congruence]. }
    rewrite Hsuf in Hm. rewrite Hm0 in Hm. by injection Hm as -> ->.
  - by destruct (search_no_occurrence _ Hs _ _ _ Hocc).
Qed.
End LinkSearch.

Lemma rewrite_href_fixed unicode_alnum configuration href text fixed :
  Rewriter.fixed_href unicode_alnum configuration href text = Some fixed →
  Rewriter.rewrite_href unicode_alnum configuration href text = fixed.
Proof.
  unfold Rewriter.rewrite_href. intros ->.
  destruct (eqb fixed href) eqn:E; [|done]. simpl. symmetry. by apply eqb_eq.
Qed.

(** The three cases of the loop body, on the href that it leaves. *)
Lemma rewrite_href_cases (unicode_alnum : char → bool)
    (configuration : Configuration.t) (href text : str) :
  let sentinel :=
    u "./?view=powershell-" ++ Configuration.powershell_version configuration in
  let href' := Rewriter.rewrite_href unicode_alnum configuration href text in
  (href = sentinel → href' = u "./" ++ text ++ u ".html")
  ∧ (href ≠ sentinel →
     ∀ pre t post, first_occurrence unicode_alnum href pre t post →
       href' = t ++ u ".html")
  ∧ (href ≠ sentinel →
     (∃ pre t post, occurs unicode_alnum href pre t post) →
     ∃ pre t post, first_occurrence unicode_alnum href pre t post)
  ∧ (href ≠ sentinel →
     (∀ pre t post, ¬ occurs unicode_alnum href pre t post) → href' = href).
Proof.
  intros sentinel href'.
  assert (∀ m, search (Rewriter.link_pattern unicode_alnum) href = m →
            href ≠ sentinel →
            Rewriter.fixed_href unicode_alnum configuration href text
            = (λ m : str * str * str, m.1.2 ++ u ".html") <$> m) as Hfix.
  { intros m Hm Hne. unfold Rewriter.fixed_href. fold sentinel.
    apply eqb_neq in Hne as ->.
    pose proof (findall_head (Rewriter.link_pattern unicode_alnum) href) as Hh.
    rewrite Hm in Hh.
    destruct (Re.findall (Rewriter.link_pattern unicode_alnum) href) as [|g gs];
      destruct m as [[[pre t] post]|]; simpl in Hh; try done.
    by injection Hh as ->. }
  split; [|split; [|split]].
  - intros Heq. apply rewrite_href_fixed. unfold Rewriter.fixed_href.
    fold sentinel. apply eqb_eq in Heq as ->. done.
  - intros Hne pre t post Hfirst. apply rewrite_href_fixed.
    apply first_occurrence_search in Hfirst.
    by rewrite (Hfix _ Hfirst Hne).
  - intros Hne (pre & t & post & Hocc).
    destruct (search (Rewriter.link_pattern unicode_alnum) href)
      as [[[pre0 t0] post0]|] eqn:Hs.
    + exists pre0, t0, post0. by apply search_first_occurrence.
    + by destruct (search_no_occurrence _ _ Hs _ _ _ Hocc).
  - intros Hne Hnone. subst href'. unfold Rewriter.rewrite_href.
    destruct (search (Rewriter.link_pattern unicode_alnum) href)
      as [[[pre0 t0] post0]|] eqn:Hs.
    + apply search_first_occurrence in Hs as [Hocc _].
      by destruct (Hnone _ _ _ Hocc).
    + by rewrite (Hfix _ eq_refl Hne).
Qed.

(** ** The search index *)

Section IndexerFacts.
Import Indexer.

Lemma collides_false rows n p :
  collides rows n p = false ↔ ∀ r, r ∈ rows → path r ≠ p ∧ name r ≠ n.
Proof.
  unfold collides. rewrite <- not_true_iff_false, existsb_exists. split.
  - intros Hno r Hr. split; intros Heq; apply Hno; exists r;
      (split; [by apply list_elem_of_In|]); apply orb_true_iff;
      [left|right]; by apply eqb_eq.
  - intros Hall (r & Hr & Hc). apply list_elem_of_In in Hr.
    destruct (Hall r Hr) as [Hp Hn].
    apply orb_true_iff in Hc as [Hc|Hc]; apply eqb_eq in Hc; done.
Qed.

Lemma find_is_none {A} (f : A → bool) l :
  List.find f l = None ↔ existsb f l = false.
Proof.
  induction l as [|x l IH]; [done|]. simpl. destruct (f x); [done|]. exact IH.
Qed.

Lemma collides_split rows n p :
  collides rows n p =
    existsb (λ r, eqb (path r) p) rows || existsb (λ r, eqb (name r) n) rows.
Proof.
  unfold collides. induction rows as [|r rows IH]; [done|]. simpl. rewrite IH.
  destruct (eqb (path r) p), (eqb (name r) n); simpl; try done;
    by rewrite orb_true_r.
Qed.

(** What a call of [insert_into_sqlite_db] does to a database that has the
    table. *)
Lemma insert_into_sqlite_db_eq db rows n t p :
  searchIndex db = Some rows →
  insert_into_sqlite_db db n t p =
    if collides rows n p || negb (bindable n t p) then db
    else {| searchIndex := Some (rows ++ [new_row rows n t p]);
            anchor := anchor db |}.
Proof.
  intros Hrows.
  unfold insert_into_sqlite_db, try_insert, select_rowid_where_path,
    select_rowid_where_name, insert_or_ignore, bindable.
  rewrite Hrows, collides_split.
  destruct (encodable p); [|by rewrite !andb_false_r, !orb_true_r].
  destruct (List.find (λ r, eqb (path r) p) rows) as [rp|] eqn:Hp.
  - assert (existsb (λ r, eqb (path r) p) rows = true) as ->.
    { apply not_false_iff_true. intros Hf. apply find_is_none in Hf. congruence. }
    simpl. destruct (encodable n); [|done].
    by destruct (List.find (λ r, eqb (name r) n) rows).
  - apply find_is_none in Hp. rewrite Hp. simpl.
    destruct (encodable n); [|by rewrite orb_true_r].
    destruct (List.find (λ r, eqb (name r) n) rows) as [rn|] eqn:Hn.
    + assert (existsb (λ r, eqb (name r) n) rows = true) as ->; [|done].
      apply not_false_iff_true. intros Hf. apply find_is_none in Hf. congruence.
    + apply find_is_none in Hn. rewrite Hn. simpl.
      destruct (encodable t); [|done]. simpl. fold (new_row rows n t p).
      assert (existsb (same_triple (new_row rows n t p)) rows = false) as ->.
      { apply not_true_iff_false. rewrite existsb_exists.
        intros (r & Hr & Hsame). unfold same_triple in Hsame. simpl in Hsame.
        apply andb_true_iff in Hsame as [Hsame _].
        apply andb_true_iff in Hsame as [Hsame _]. apply eqb_eq in Hsame.
        apply not_true_iff_false in Hn. apply Hn. apply existsb_exists.
        exists r. split; [done|]. by apply eqb_eq. }
      by rewrite andb_false_r.
Qed.

Lemma insert_into_sqlite_db_unique db n t p :
  unique db → unique (insert_into_sqlite_db db n t p).
Proof.
  intros (rows & Hrows & Hn & Hp). rewrite (insert_into_sqlite_db_eq _ _ _ _ _ Hrows).
  destruct (collides rows n p) eqn:Hc; [by exists rows|].
  destruct (bindable n t p); [|by exists rows]. simpl.
  exists (rows ++ [new_row rows n t p]). split; [done|].
  rewrite collides_false in Hc.
  rewrite !fmap_app. simpl. split.
  - apply NoDup_app. split; [done|]. split; [|apply NoDup_singleton].
    intros x Hx ->%list_elem_of_singleton.
    apply list_elem_of_fmap in Hx as (r & Heq & Hr). by destruct (Hc r Hr).
  - apply NoDup_app. split; [done|]. split; [|apply NoDup_singleton].
    intros x Hx ->%list_elem_of_singleton.
    apply list_elem_of_fmap in Hx as (r & Heq & Hr). by destruct (Hc r Hr).
Qed.

Lemma index_cmdlet_unique module_name db c :
  unique db → unique (index_cmdlet module_name db c).
Proof.
  intros H. unfold index_cmdlet.
  destruct (eqb (Crawler.name c) module_name); [done|].
  by apply insert_into_sqlite_db_unique.
Qed.

Lemma index_module_unique db item :
  unique db → unique (index_module db item).
Proof.
  destruct item as [module_name module]. unfold index_module. intros H.
  generalize (insert_into_sqlite_db_unique db module_name (u "Module")
                (Crawler.index module) H).
  generalize (insert_into_sqlite_db db module_name (u "Module")
                (Crawler.index module)).
  induction (Crawler.cmdlets module) as [|c cs IH]; intros cur Hcur; [done|].
  simpl. apply IH. by apply index_cmdlet_unique.
Qed.

Lemma fold_index_module_unique content_toc db :
  unique db → unique (fold_left index_module content_toc db).
Proof.
  revert db. induction content_toc as [|item toc IH]; intros db H; [done|].
  simpl. apply IH. by apply index_module_unique.
Qed.

(** Whatever was in the file before, the indexer starts from an empty table
    and does not fail. *)
Lemma create_sqlite_database_eq content_toc file :
  create_sqlite_database content_toc file =
    Ok (Some (fold_left index_module content_toc created)).
Proof. by destruct file. Qed.
End IndexerFacts.

(** C1. A call of the insertion routine on a database that has the table,
    with a name, a type and a path that encode as UTF-8, adds the row (name,
    type, path) exactly when no row of the table has that path and no row
    has that name, whatever their types; otherwise the database is left as
    it was.  A call with a text that does not encode, a lone surrogate in
    it, leaves the database as it was: the statement raises and the
    exception is swallowed.  So in the index that the indexer builds no name
    and no path appears twice.  Inserting ("Get-Item", "Cmdlet", "a.html")
    and then ("Get-Item", "Cmdlet", "b.html") leaves one row, the first. *)
Theorem insert_into_sqlite_db_first_wins :
  (∀ db rows n t p,
     Indexer.searchIndex db = Some rows →
     let fresh :=
       ∀ r, r ∈ rows → Indexer.path r ≠ p ∧ Indexer.name r ≠ n in
     let db' := Indexer.insert_into_sqlite_db db n t p in
     (encodable n = true → encodable t = true → encodable p = true →
      (Indexer.searchIndex db' = Some (rows ++ [new_row rows n t p]) ↔ fresh)
      ∧ (db' = db ↔ ¬ fresh))
     ∧ (bindable n t p = false → db' = db))
  ∧ (∀ content_toc file,
       ∃ db rows,
         Indexer.create_sqlite_database content_toc file = Ok (Some db)
         ∧ Indexer.searchIndex db = Some rows
         ∧ NoDup (Indexer.name <$> rows) ∧ NoDup (Indexer.path <$> rows))
  ∧ Indexer.searchIndex
      (Indexer.insert_into_sqlite_db
         (Indexer.insert_into_sqlite_db created
            (u "Get-Item") (u "Cmdlet") (u "a.html"))
         (u "Get-Item") (u "Cmdlet") (u "b.html"))
    = Some [ {| Indexer.id := 1; Indexer.name := u "Get-Item";
                Indexer.type := u "Cmdlet"; Indexer.path := u "a.html" |} ].
Proof.
  split; [|split].
  - intros db rows n t p Hrows fresh db'. subst db'.
    rewrite (insert_into_sqlite_db_eq _ _ _ _ _ Hrows). split.
    2:{ intros ->. by rewrite orb_true_r. }
    intros Hn Ht Hp. unfold bindable. rewrite Hn, Ht, Hp, orb_false_r.
    pose proof (collides_false rows n p) as Hc. fold fresh in Hc.
    destruct (collides rows n p).
    + assert (¬ fresh) as Hnot by (intros Hf; by apply Hc in Hf).
      split; [|done]. split; [|done]. rewrite Hrows. intros [= Heq].
      apply (f_equal length) in Heq. rewrite length_app in Heq. simpl in Heq. lia.
    + assert fresh as Hf by (by apply Hc).
      split; [done|]. split; [|done]. intros Heq.
      apply (f_equal Indexer.searchIndex) in Heq. simpl in Heq.
      rewrite Hrows in Heq. injection Heq as Heq.
      apply (f_equal length) in Heq. rewrite length_app in Heq. simpl in Heq. lia.
  - intros content_toc file. rewrite create_sqlite_database_eq.
    destruct (fold_index_module_unique content_toc created)
      as (rows & Hrows & Hn & Hp).
    { exists []. split; [done|]. split; apply NoDup_nil_2. }
    by exists (fold_left Indexer.index_module content_toc created), rows.
  - reflexivity.
Qed.

Lemma insert_into_sqlite_db_first_wins_witness :
  Indexer.searchIndex
    (Indexer.insert_into_sqlite_db created
       (u "Get-Item") (u "Cmdlet") (u "a.html"))
  = Some ([] ++ [new_row [] (u "Get-Item") (u "Cmdlet") (u "a.html")])
  ∧ Indexer.insert_into_sqlite_db created
      (u "Get-Item") (u "Cmdlet") [55357] = created.
Proof.
  split.
  - apply (proj1 (proj1 (proj1 insert_into_sqlite_db_first_wins created []
                           (u "Get-Item") (u "Cmdlet") (u "a.html") eq_refl)
                    eq_refl eq_refl eq_refl)).
    intros r Hr. by apply elem_of_nil in Hr.
  - apply (proj2 (proj1 insert_into_sqlite_db_first_wins created []
                    (u "Get-Item") (u "Cmdlet") [55357] eq_refl)).
    reflexivity.
Defined.

(** ** Commands named as their module *)

Lemma fold_index_cmdlet_attempts module_name cmdlets db :
  fold_left (Indexer.index_cmdlet module_name) cmdlets db =
  fold_left attempt
    ((λ c, (Crawler.name c, u "Cmdlet", Crawler.path c))
     <$> List.filter (λ c, negb (self_named module_name c)) cmdlets) db.
Proof.
  revert db. induction cmdlets as [|c cs IH]; intros db; [done|].
  simpl. unfold Indexer.index_cmdlet at 2. unfold self_named at 1.
  destruct (eqb (Crawler.name c) module_name); simpl; apply IH.
Qed.

Lemma index_module_attempts db item :
  Indexer.index_module db item = fold_left attempt (attempts item) db.
Proof.
  destruct item as [module_name module]. unfold Indexer.index_module, attempts.
  simpl. apply fold_index_cmdlet_attempts.
Qed.

Lemma filter_filter_same {A} (f : A → bool) l :
  List.filter f (List.filter f l) = List.filter f l.
Proof.
  induction l as [|x l IH]; [done|]. simpl.
  destruct (f x) eqn:Hx; [|done]. simpl. by rewrite Hx, IH.
Qed.

Lemma index_module_prune db item :
  Indexer.index_module db (prune item) = Indexer.index_module db item.
Proof.
  rewrite !index_module_attempts. unfold attempts, prune. simpl.
  by rewrite filter_filter_same.
Qed.

(** C6. A command whose name is the name of its module is passed over by the
    indexer before any call of the insertion routine: the step of the loop
    leaves every database as it is, none of the calls made for the module is
    for a command of that name, and the index is the one of the table of
    contents without such commands. *)
Theorem index_cmdlet_skips_module_name :
  (∀ module_name db c,
     Crawler.name c = module_name →
     Indexer.index_cmdlet module_name db c = db)
  ∧ (∀ db item,
       Indexer.index_module db item = fold_left attempt (attempts item) db
       ∧ ∀ c, c ∈ Crawler.cmdlets item.2 → Crawler.name c = item.1 →
           ∀ a, a ∈ attempts item → a.1.2 = u "Cmdlet" → a.1.1 ≠ Crawler.name c)
  ∧ (∀ content_toc file,
       Indexer.create_sqlite_database (prune <$> content_toc) file =
       Indexer.create_sqlite_database content_toc file).
Proof.
  split; [|split].
  - intros module_name db c Hc. unfold Indexer.index_cmdlet.
    apply eqb_eq in Hc. by rewrite Hc.
  - intros db item. split; [apply index_module_attempts|].
    intros c Hc Hname a Ha Htype Heq.
    unfold attempts in Ha. apply elem_of_cons in Ha as [->|Ha].
    + simpl in Htype. discriminate.
    + apply list_elem_of_fmap in Ha as (c' & -> & Hc').
      apply list_elem_of_In, filter_In in Hc' as [_ Hc'].
      simpl in Heq. unfold self_named in Hc'.
      apply negb_true_iff, eqb_neq in Hc'. congruence.
  - intros content_toc file. rewrite !create_sqlite_database_eq. do 2 f_equal.
    generalize created.
    induction content_toc as [|item toc IH]; intros db; [done|].
    rewrite fmap_cons. cbn [fold_left]. rewrite index_module_prune. apply IH.
Qed.

Lemma index_cmdlet_skips_module_name_witness :
  Indexer.index_cmdlet (u "PSReadLine") created
    {| Crawler.name := u "PSReadLine";
       Crawler.path := u "docs.microsoft.com/PSReadLine/PSReadLine.html" |}
  = created.
Proof.
  apply (proj1 index_cmdlet_skips_module_name (u "PSReadLine") created).
  reflexivity.
Defined.

(** C8. The indexer deletes the index file when there is one and builds the
    index in a new file: it does not fail, and what it leaves in the file
    depends on the table of contents alone.  A second run on the same table
    of contents, on the file that the first run left or on no file, leaves
    the same rows. *)
Theorem create_sqlite_database_idempotent
    (content_toc : list (str * Crawler.module_infos))
    (file : option Indexer.database) :
  ∃ db,
    Indexer.create_sqlite_database content_toc file = Ok (Some db)
    ∧ Indexer.create_sqlite_database content_toc (Some db) = Ok (Some db)
    ∧ (∀ file' db',
         Indexer.create_sqlite_database content_toc file' = Ok (Some db') →
         Indexer.rows_of (Some db') = Indexer.rows_of (Some db)).
Proof.
  exists (fold_left Indexer.index_module content_toc created).
  rewrite !create_sqlite_database_eq. split; [done|]. split; [done|].
  intros file' db'. rewrite create_sqlite_database_eq. by intros [= <-].
Qed.

(** Without the deletion the second run would stop at [CREATE TABLE]. *)
Example create_table_twice :
  Indexer.create_table created = Raise OperationalError.
Proof. reflexivity. Qed.

Lemma create_sqlite_database_idempotent_witness :
  ∃ db,
    Indexer.create_sqlite_database [] (Some created) = Ok (Some db)
    ∧ Indexer.rows_of (Some created) = Indexer.rows_of (Some db).
Proof.
  destruct (create_sqlite_database_idempotent [] (Some created))
    as (db & Hrun & _ & Hsame).
  exists db. split; [exact Hrun|]. apply (Hsame None). reflexivity.
Defined.

(** ** Theme stylesheets *)

(** The URL that the loop over the stylesheets makes is the host followed by
    the stripped href as it is, its leading slashes included. *)
Lemma stylesheet_url cwd documents_dir html_path href rel_uri css_url file :
  Rewriter.stylesheet cwd documents_dir html_path href
  = Some (rel_uri, css_url, file) →
  css_url = u "https://docs.microsoft.com/" ++ strip href
  ∧ startswith (lstrip_char Rewriter.slash (strip href))
      Configuration.default_theme_uri = true.
Proof.
  unfold Rewriter.stylesheet.
  destruct (startswith (lstrip_char Rewriter.slash (strip href))
              Configuration.default_theme_uri); [|done].
  simpl. by intros [= <- <- <-].
Qed.

(** C3, what the code does.  For the stylesheet
    ["/_themes/docs.theme/master/en-us/_themes/styles/main.css"] in the head
    of a page, the record that [rewrite_soup] returns has the URL
    ["https://docs.microsoft.com//_themes/..."], with two slashes after the
    host: the slash of the href is kept, while the path of the record is
    made from the href without it. *)
Theorem rewrite_soup_theme_url_double_slash :
  (snd <$> (match Rewriter.rewrite_soup (λ _, false) (u "/work") powershell_6
                    sample_page sample_html_path sample_documents_dir with
            | Ok r => Some r
            | Raise _ => None
            end))
  = Some
      [ {| Rewriter.url :=
             u "https://docs.microsoft.com//_themes/docs.theme/master/en-us/_themes/styles/main.css";
           Rewriter.path :=
             u "docs.microsoft.com/_themes/docs.theme/master/en-us/_themes/styles/main.css" |} ]
  ∧ u "https://docs.microsoft.com//_themes/docs.theme/master/en-us/_themes/styles/main.css"
    ≠ u "https://docs.microsoft.com/_themes/docs.theme/master/en-us/_themes/styles/main.css".
Proof.
  split; [vm_compute; reflexivity|discriminate].
Qed.

(** ** The scripts of the start page *)

(** C7, what the code does.  On a start page with a script in its head and a
    script with [async] and [defer] in its body, the rewrite pass returns a
    document whose head has no script and whose body still has the script:
    the second loop extracts the last script of the head again.  On a start
    page with no script in its head the pass stops with an
    [UnboundLocalError]. *)
Theorem rewrite_index_soup_keeps_body_scripts :
  (match (Rewriter.rewrite_index_soup (λ _, false) (u "/work") always_up
            powershell_6 sample_index_page sample_index_path sample_index_dir
            Crawler.empty).1 with
   | Ok s' =>
       head_scripts s' = []
       ∧ deferred_scripts s' =
           [ Soup.Tag 7 (u "script")
               [(u "async", []); (u "defer", []);
                (u "src", u "/static/body.js")] [] ]
   | Raise _ => False
   end)
  ∧ (Rewriter.rewrite_index_soup (λ _, false) (u "/work") always_up
       powershell_6 sample_index_page_bare_head sample_index_path
       sample_index_dir Crawler.empty).1
    = Raise (UnboundLocalError (u "head_script")).
Proof.
  split; [|vm_compute; reflexivity].
  destruct (Rewriter.rewrite_index_soup (λ _, false) (u "/work") always_up
              powershell_6 sample_index_page sample_index_path
              sample_index_dir Crawler.empty) as [r w] eqn:E.
  vm_compute in E. injection E as <- _. split; vm_compute; reflexivity.
Qed.

(** ** Paths *)

Section PathFacts.
Import OsPath.

Lemma after_last_sep_no_sep p acc : sep ∉ p → after_last_sep p acc = acc.
Proof.
  revert acc. induction p as [|c p IH]; intros acc Hp; [done|]. simpl.
  apply not_elem_of_cons in Hp as [Hc Hp].
  destruct (c =? sep) eqn:E; [by apply N.eqb_eq in E|]. by apply IH.
Qed.

Lemma after_last_sep_app x b acc :
  sep ∉ b → after_last_sep (x ++ sep :: b) acc = b.
Proof.
  intros Hb. revert acc. induction x as [|c x IH]; intros acc; simpl.
  - rewrite ?N.eqb_refl. by apply after_last_sep_no_sep.
  - destruct (c =? sep); apply IH.
Qed.

Lemma after_last_sep_clean p pre :
  sep ∉ pre → sep ∉ after_last_sep p (pre ++ p).
Proof.
  revert pre. induction p as [|c p IH]; intros pre Hpre; simpl.
  - by rewrite app_nil_r.
  - destruct (c =? sep) eqn:E.
    + apply (IH []). apply not_elem_of_nil.
    + replace (pre ++ c :: p) with ((pre ++ [c]) ++ p) by (by rewrite <- app_assoc).
      apply IH. rewrite elem_of_app, list_elem_of_singleton.
      intros [?|Heq]; [done|]. apply N.eqb_neq in E. congruence.
Qed.

(** A base name has no separator. *)
Lemma basename_no_sep p : sep ∉ basename p.
Proof. apply (after_last_sep_clean p []). apply not_elem_of_nil. Qed.

Lemma endswith_sep_spec a : endswith_sep a = true → ∃ a', a = a' ++ [sep].
Proof.
  induction a as [|c a IH]; [done|]. simpl. destruct a as [|d a].
  - intros ->%N.eqb_eq. by exists [].
  - intros H. destruct (IH H) as [a' ->]. by exists (c :: a').
Qed.

Lemma join_relative a b : startswith b [sep] = false → join a b = joined a ++ b.
Proof.
  intros Hb. unfold join, joined. rewrite Hb.
  destruct (bool_decide (a = []) || endswith_sep a); [done|].
  by rewrite <- app_assoc.
Qed.

Lemma startswith_sep_no_sep b : sep ∉ b → startswith b [sep] = false.
Proof.
  destruct b as [|c b]; [done|]. intros [Hc _]%not_elem_of_cons.
  cbn [startswith]. rewrite andb_true_r. apply N.eqb_neq. congruence.
Qed.

Lemma basename_join a b : sep ∉ b → basename (join a b) = b.
Proof.
  intros Hb. rewrite join_relative by (by apply startswith_sep_no_sep).
  unfold joined, basename.
  destruct (bool_decide (a = [])) eqn:Ha; simpl.
  - apply bool_decide_eq_true in Ha as ->. by apply after_last_sep_no_sep.
  - destruct (endswith_sep a) eqn:He.
    + apply endswith_sep_spec in He as [a' ->]. rewrite <- app_assoc. simpl.
      by apply after_last_sep_app.
    + rewrite <- app_assoc. simpl. by apply after_last_sep_app.
Qed.

Lemma joined_length a : (length a ≤ length (joined a))%nat.
Proof.
  unfold joined. destruct (_ || _); [lia|].
  rewrite length_app. simpl. lia.
Qed.

Lemma lstrip_char_length c s : (length (lstrip_char c s) ≤ length s)%nat.
Proof.
  induction s as [|d s IH]; [done|]. simpl. destruct (d =? c); simpl; lia.
Qed.

Lemma dirname_length p : (length (dirname p) ≤ length p)%nat.
Proof.
  unfold dirname.
  set (head := take (length p - length (basename p)) p).
  assert (length head ≤ length p)%nat as Hh.
  { unfold head. rewrite length_take. lia. }
  destruct (_ || _); [lia|].
  rewrite length_rev. etrans; [apply lstrip_char_length|]. by rewrite length_rev.
Qed.

Lemma after_last_sep_ext x a e :
  sep ∉ e → after_last_sep (x ++ e) (a ++ e) = after_last_sep x a ++ e.
Proof.
  intros He. revert a. induction x as [|c x IH]; intros a; simpl.
  - by apply after_last_sep_no_sep.
  - destruct (c =? sep); apply IH.
Qed.

(** An extension does not change the directory of a path. *)
Lemma dirname_ext x e : sep ∉ e → dirname (x ++ e) = dirname x.
Proof.
  intros He. unfold dirname, basename. rewrite after_last_sep_ext by done.
  rewrite !length_app.
  assert (length (after_last_sep x x) ≤ length x)%nat as Hle.
  { assert (∀ p acc, length acc ≤ length x → length p ≤ length x →
                     length (after_last_sep p acc) ≤ length x)%nat as H.
    { induction p as [|c p IH]; intros acc H1 H2; simpl; [done|].
      simpl in H2. destruct (c =? sep); apply IH; lia. }
    by apply H. }
  replace (length x + length e - (length (after_last_sep x x) + length e))%nat
    with (length x - length (after_last_sep x x))%nat by lia.
  by rewrite take_app_le by lia.
Qed.

Lemma join_ext d f e : sep ∉ e → join d (f ++ e) = join d f ++ e.
Proof.
  intros He. unfold join.
  assert (startswith (f ++ e) [sep] = startswith f [sep]) as ->.
  { destruct f as [|c f]; [by apply startswith_sep_no_sep|done]. }
  destruct (startswith f [sep]); [done|].
  destruct (_ || _); by rewrite <- ?app_assoc.
Qed.

Lemma dirname_join_ext d f e :
  sep ∉ e → dirname (join d (f ++ e)) = dirname (join d f).
Proof. intros He. by rewrite join_ext, dirname_ext. Qed.

Lemma endswith_sep_snoc a c : endswith_sep (a ++ [c]) = (c =? sep).
Proof.
  induction a as [|d a IH]; [done|].
  change (endswith_sep ((d :: a) ++ [c]))
    with (match a ++ [c] with
          | [] => d =? sep
          | _ :: _ => endswith_sep (a ++ [c])
          end).
  rewrite IH. by destruct a.
Qed.

Lemma endswith_sep_app a b : b ≠ [] → endswith_sep (a ++ b) = endswith_sep b.
Proof.
  intros Hb. destruct b as [|c b _] using rev_ind; [done|].
  by rewrite app_assoc, !endswith_sep_snoc.
Qed.

Lemma basename_endswith p : endswith_sep p = true → basename p = [].
Proof.
  intros [a ->]%endswith_sep_spec. unfold basename.
  apply after_last_sep_app, not_elem_of_nil.
Qed.

(** The directory of a name put in a directory is that directory. *)
Lemma dirname_join_plain a b :
  a ≠ [] → endswith_sep a = false → sep ∉ b → dirname (join a b) = a.
Proof.
  intros Ha He Hb. rewrite join_relative by by apply startswith_sep_no_sep.
  unfold joined. rewrite He, orb_false_r, bool_decide_eq_false_2 by done.
  unfold dirname, basename. rewrite <- app_assoc. simpl.
  rewrite after_last_sep_app by done.
  set (hd := take _ _).
  assert (hd = a ++ [sep]) as ->.
  { unfold hd. rewrite length_app. simpl.
    replace (length a + S (length b) - length b)%nat
      with (length (a ++ [sep])) by (rewrite length_app; simpl; lia).
    change (a ++ sep :: b) with (a ++ [sep] ++ b). rewrite app_assoc.
    by rewrite take_app_length. }
  destruct a as [|c a _] using rev_ind; [done|].
  rewrite endswith_sep_snoc in He.
  assert (forallb (λ c0, c0 =? sep) ((a ++ [c]) ++ [sep]) = false) as ->.
  { rewrite !forallb_app. simpl. rewrite He. by rewrite andb_false_r. }
  rewrite bool_decide_eq_false_2 by (by destruct a).
  simpl. rewrite rev_app_distr. simpl. rewrite ?N.eqb_refl.
  rewrite rev_app_distr. simpl. rewrite He.
  change (c :: rev a) with ([c] ++ rev a). rewrite rev_app_distr. simpl.
  by rewrite rev_involutive.
Qed.

Lemma unslashed_plain p : endswith_sep p = false → Packager.unslashed p = p.
Proof.
  intros He. unfold Packager.unslashed.
  destruct p as [|c p _] using rev_ind; [done|].
  rewrite endswith_sep_snoc in He. rewrite rev_app_distr. simpl. rewrite He.
  change (c :: rev p) with ([c] ++ rev p). rewrite rev_app_distr. simpl.
  rewrite rev_involutive. rewrite bool_decide_eq_false_2; [done|by destruct p].
Qed.

Lemma top_level_no_sep a : sep ∉ a → Packager.top_level a = a.
Proof.
  induction a as [|c a IH]; [done|]. intros [Hc Ha]%not_elem_of_cons. simpl.
  destruct (c =? sep) eqn:E; [by apply N.eqb_eq in E|]. by rewrite IH.
Qed.

Lemma top_level_app a r : sep ∉ a → Packager.top_level (a ++ sep :: r) = a.
Proof.
  induction a as [|c a IH]; simpl.
  - by rewrite ?N.eqb_refl.
  - intros [Hc Ha]%not_elem_of_cons.
    destruct (c =? sep) eqn:E; [by apply N.eqb_eq in E|]. by rewrite IH.
Qed.
End PathFacts.

(** ** The packager *)

Section PackagerFacts.
Import OsPath Packager.

Lemma compress_ok source_dir tar_filepath w :
  is_dir (fs w) tar_filepath = false →
  dir_exists (fs w) (dirname tar_filepath) = true →
  unslashed source_dir = source_dir →
  is_Some (fs w !! source_dir) →
  compress source_dir tar_filepath w =
    (Ok (),
     {| fs := <[tar_filepath :=
                  File (TarGz (tar_members (fs w) source_dir
                                 (basename source_dir) tar_filepath))]> (fs w);
        ops := ops w ++
                 [Compress source_dir tar_filepath (basename source_dir)] |}).
Proof.
  intros Htar Hparent Hplain Hsrc. unfold compress.
  rewrite Htar, Hparent, Hplain. simpl.
  unfold exists_. rewrite (bool_decide_eq_true_2 _ Hsrc).
  unfold eqb. by rewrite bool_decide_eq_true_2.
Qed.

Lemma move_ok src dst e w :
  fs w !! src = Some e →
  is_dir (fs w) dst = false →
  dir_exists (fs w) (dirname dst) = true →
  move src dst w =
    (Ok (), {| fs := <[dst := e]> (delete src (fs w));
               ops := ops w ++ [Move src dst] |}).
Proof.
  intros Hsrc Hdst Hparent. unfold move. by rewrite Hsrc, Hdst, Hparent.
Qed.

Lemma is_dir_insert_ne (m : gmap str entry) k e p :
  k ≠ p → is_dir (<[k := e]> m) p = is_dir m p.
Proof. intros Hne. unfold is_dir. by rewrite lookup_insert_ne. Qed.

Lemma is_dir_delete_ne (m : gmap str entry) k p :
  k ≠ p → is_dir (delete k m) p = is_dir m p.
Proof. intros Hne. unfold is_dir. by rewrite lookup_delete_ne. Qed.

(** Writing or removing what is no directory leaves the directories. *)
Lemma dir_exists_insert (m : gmap str entry) k e p :
  is_dir m k = false → dir_exists m p = true →
  dir_exists (<[k := e]> m) p = true.
Proof.
  unfold dir_exists. intros Hk [Hp|Hp]%orb_true_iff; apply orb_true_iff;
    [by left|right].
  rewrite is_dir_insert_ne; [done|]. intros ->. congruence.
Qed.

Lemma dir_exists_delete (m : gmap str entry) k p :
  is_dir m k = false → dir_exists m p = true →
  dir_exists (delete k m) p = true.
Proof.
  unfold dir_exists. intros Hk [Hp|Hp]%orb_true_iff; apply orb_true_iff;
    [by left|right].
  rewrite is_dir_delete_ne; [done|]. intros ->. congruence.
Qed.

Lemma is_dir_insert_file (m : gmap str entry) k c :
  is_dir (<[k := File c]> m) k = false.
Proof. unfold is_dir. by rewrite lookup_insert_eq. Qed.

(** The three paths of [make_docset] differ. *)
Lemma join_ext_ne dst_dir filename e1 e2 :
  startswith e1 [sep] = false → startswith e2 [sep] = false → e1 ≠ e2 →
  join dst_dir (filename ++ e1) ≠ join dst_dir (filename ++ e2).
Proof.
  intros H1 H2 Hne.
  assert (∃ P, join dst_dir (filename ++ e1) = P ++ filename ++ e1
               ∧ join dst_dir (filename ++ e2) = P ++ filename ++ e2)
    as (P & -> & ->).
  { destruct filename as [|c f].
    - exists (joined dst_dir). by rewrite !join_relative.
    - destruct (startswith (c :: f) [sep]) eqn:Hc.
      + exists []. unfold join. cbn [startswith app] in *. by rewrite Hc.
      + exists (joined dst_dir). rewrite !join_relative; [done|done|done]. }
  intros Heq. by apply app_inv_head, app_inv_head in Heq.
Qed.

(** Every member of the archive is named [arcname] or [arcname/...]. *)
Lemma tar_members_top_level (m : gmap str entry) source_dir skip :
  basename source_dir ≠ [] →
  Forall (λ member : str * option content,
            top_level member.1 = basename source_dir)
    (tar_members m source_dir (basename source_dir) skip).
Proof.
  intros Hname. unfold tar_members, member_name.
  rewrite bool_decide_eq_false_2 by done.
  apply Forall_fmap, Forall_forall.
  intros [k e] Hk%list_elem_of_In%filter_In. destruct Hk as [_ Hk]. simpl in *.
  apply andb_true_iff in Hk as [Hk _]. unfold below in Hk.
  apply orb_true_iff in Hk as [Hk|Hk].
  - apply eqb_eq in Hk as ->. rewrite drop_all, app_nil_r.
    apply top_level_no_sep, basename_no_sep.
  - apply startswith_spec in Hk as [rest ->]. rewrite <- app_assoc.
    rewrite drop_app_length. simpl. apply top_level_app, basename_no_sep.
Qed.

(** The tree, when it is a directory, is the member [arcname]. *)
Lemma tar_members_root (m : gmap str entry) source_dir skip :
  basename source_dir ≠ [] →
  m !! source_dir = Some Dir → source_dir ≠ skip →
  (basename source_dir, None) ∈
    tar_members m source_dir (basename source_dir) skip.
Proof.
  intros Hname Hsrc Hne. unfold tar_members, member_name.
  rewrite bool_decide_eq_false_2 by done. apply list_elem_of_fmap.
  exists (source_dir, Dir). simpl. rewrite drop_all, app_nil_r. split; [done|].
  apply list_elem_of_In, filter_In. split.
  - apply list_elem_of_In. by apply elem_of_map_to_list.
  - simpl. unfold below. rewrite eqb_refl. simpl.
    apply negb_true_iff. by apply eqb_neq.
Qed.

(** What [make_docset] leaves when nothing is in its way. *)
Lemma make_docset_run source_dir dst_dir filename w :
  let tar_filepath := join dst_dir (filename ++ u ".tar") in
  let targz_filepath := join dst_dir (filename ++ u ".tar.gz") in
  let docset_filepath := join dst_dir (filename ++ u ".docset") in
  let archive :=
    File (TarGz (tar_members (fs w) source_dir (basename source_dir)
                   tar_filepath)) in
  unslashed source_dir = source_dir →
  is_Some (fs w !! source_dir) →
  dir_exists (fs w) (dirname tar_filepath) = true →
  is_dir (fs w) tar_filepath = false →
  is_dir (fs w) targz_filepath = false →
  is_dir (fs w) docset_filepath = false →
  ∃ w',
    make_docset source_dir dst_dir filename w = (Ok (), w')
    ∧ fs w' !! docset_filepath = Some archive
    ∧ fs w' !! tar_filepath = None
    ∧ fs w' !! targz_filepath = None
    ∧ (∀ p, p ≠ tar_filepath → p ≠ targz_filepath → p ≠ docset_filepath →
            fs w' !! p = fs w !! p)
    ∧ ops w' = ops w ++
        [Compress source_dir tar_filepath (basename source_dir);
         Move tar_filepath targz_filepath;
         Move targz_filepath docset_filepath].
Proof.
  intros tar targz docset archive Hplain Hsrc Hparent Htar Htargz Hdocset.
  assert (sep ∉ u ".tar") as E1
    by (apply (bool_decide_eq_false_1 _); vm_compute; reflexivity).
  assert (sep ∉ u ".tar.gz") as E2
    by (apply (bool_decide_eq_false_1 _); vm_compute; reflexivity).
  assert (sep ∉ u ".docset") as E3
    by (apply (bool_decide_eq_false_1 _); vm_compute; reflexivity).
  assert (dirname targz = dirname tar) as D2
    by (unfold targz, tar; by rewrite !dirname_join_ext).
  assert (dirname docset = dirname tar) as D3
    by (unfold docset, tar; by rewrite !dirname_join_ext).
  assert (tar ≠ targz) as H1 by (by apply join_ext_ne).
  assert (targz ≠ docset) as H2 by (by apply join_ext_ne).
  assert (tar ≠ docset) as H3 by (by apply join_ext_ne).
  unfold make_docset. fold tar targz docset. unfold bind.
  rewrite (compress_ok _ _ _ Htar Hparent Hplain Hsrc). fold archive.
  erewrite move_ok; cycle 1.
  { simpl. apply lookup_insert_eq. }
  { simpl. by rewrite is_dir_insert_ne. }
  { simpl. rewrite D2. by apply dir_exists_insert. }
  erewrite move_ok; cycle 1.
  { simpl. apply lookup_insert_eq. }
  { simpl. rewrite is_dir_insert_ne, is_dir_delete_ne, is_dir_insert_ne; done. }
  { simpl. rewrite D3. apply dir_exists_insert.
    - by rewrite is_dir_delete_ne, is_dir_insert_ne.
    - apply dir_exists_delete; [apply is_dir_insert_file|].
      by apply dir_exists_insert. }
  eexists. split; [done|]. simpl.
  split; [apply lookup_insert_eq|].
  split.
  { rewrite lookup_insert_ne, lookup_delete_ne, lookup_insert_ne by done.
    apply lookup_delete_eq. }
  split.
  { rewrite lookup_insert_ne by done. apply lookup_delete_eq. }
  split.
  { intros p Hp1 Hp2 Hp3.
    rewrite lookup_insert_ne, lookup_delete_ne, lookup_insert_ne,
      lookup_delete_ne, lookup_insert_ne by done. done. }
  by rewrite <- !app_assoc.
Qed.

Lemma well_formed_lookup (m : gmap str entry) p :
  well_formed m → is_Some (m !! p) →
  unslashed p = p ∧ dir_exists m (dirname p) = true.
Proof. intros Hwf [e He]. exact (Hwf p e He). Qed.
End PackagerFacts.

Section PackageFacts.
Import OsPath Packager.

(** [os.makedirs] keeps what is there and touches no path longer than the
    one it is asked for. *)
Lemma makedirs_from_keeps (fuel : nat) (name : str) (m m' : gmap str entry) :
  makedirs_from fuel name m = Ok m' →
  (∀ k e, m !! k = Some e → m' !! k = Some e)
  ∧ (∀ k, (length name < length k)%nat → m' !! k = m !! k).
Proof.
  revert name m'. induction fuel as [|fuel IH]; intros name m'.
  - simpl. destruct (m !! name) as [[|c]|] eqn:Hn; try done.
    + by intros [= <-].
    + intros [= <-]. split.
      * intros k e Hk. rewrite lookup_insert_ne; [done|congruence].
      * intros k Hlen. rewrite lookup_insert_ne; [done|].
        intros ->. lia.
  - simpl. destruct (m !! name) as [[|c]|] eqn:Hn; try done.
    + by intros [= <-].
    + assert (∀ m0 : gmap str entry,
                (∀ k e, m !! k = Some e → m0 !! k = Some e) →
                (∀ k, (length name < length k)%nat → m0 !! k = m !! k) →
                (∀ k e, m !! k = Some e → <[name := Dir]> m0 !! k = Some e)
                ∧ (∀ k, (length name < length k)%nat →
                        <[name := Dir]> m0 !! k = m !! k)) as Hins.
      { intros m0 H1 H2. split.
        - intros k e Hk. rewrite lookup_insert_ne; [by apply H1|congruence].
        - intros k Hlen. rewrite lookup_insert_ne; [by apply H2|].
          intros ->. lia. }
      destruct (_ || _).
      * intros [= <-]. by apply Hins.
      * destruct (makedirs_from fuel (dirname name) m) as [m0|e] eqn:Hrec;
          [|done].
        intros [= <-]. destruct (IH _ _ Hrec) as [H1 H2].
        apply Hins; [done|]. intros k Hlen. apply H2.
        pose proof (dirname_length name). lia.
Qed.

Lemma makedirs_from_made (fuel : nat) (name : str) (m m' : gmap str entry) :
  makedirs_from fuel name m = Ok m' → m' !! name = Some Dir.
Proof.
  destruct fuel as [|fuel]; simpl.
  - destruct (m !! name) as [[|c]|] eqn:Hn; try done.
    + by intros [= <-].
    + intros [= <-]. apply lookup_insert_eq.
  - destruct (m !! name) as [[|c]|] eqn:Hn; try done.
    + by intros [= <-].
    + destruct (_ || _); [intros [= <-]; apply lookup_insert_eq|].
      destruct (makedirs_from fuel (dirname name) m); [|done].
      intros [= <-]. apply lookup_insert_eq.
Qed.

Lemma join_nil a b : join a b = [] → a = [] ∧ b = [].
Proof.
  unfold join. destruct (startswith b [sep]) eqn:Hb.
  - intros ->. done.
  - destruct (_ || _); [by intros [? ?]%app_eq_nil|].
    intros [_ H]%app_eq_nil. done.
Qed.

Lemma basename_plain p : basename p ≠ [] → unslashed p = p.
Proof.
  intros Hb. apply unslashed_plain. apply not_true_iff_false.
  by intros ?%basename_endswith.
Qed.

Lemma docset_dir_plain configuration :
  unslashed (docset_dir configuration) = docset_dir configuration.
Proof.
  apply unslashed_plain. unfold docset_dir.
  rewrite join_relative by done. by rewrite endswith_sep_app.
Qed.

Lemma docset_name_no_sep : sep ∉ Configuration.docset_name ++ u ".docset".
Proof. apply (bool_decide_eq_false_1 _). vm_compute. reflexivity. Qed.

Lemma basename_docset_dir configuration :
  basename (docset_dir configuration) = Configuration.docset_name ++ u ".docset".
Proof. apply basename_join, docset_name_no_sep. Qed.
End PackageFacts.



(** ** The index as a whole *)

Section IndexRows.
Import Indexer.

Lemma fold_index_module_attempts content_toc db :
  fold_left index_module content_toc db =
  fold_left attempt (all_attempts content_toc) db.
Proof.
  revert db. induction content_toc as [|item toc IH]; intros db; [done|].
  unfold all_attempts. rewrite fmap_cons. cbn [concat fold_left].
  rewrite fold_left_app, <- index_module_attempts. apply IH.
Qed.

Lemma fold_attempt_rows attempts0 db rows :
  searchIndex db = Some rows →
  searchIndex (fold_left attempt attempts0 db)
  = Some (fold_left step_rows attempts0 rows).
Proof.
  revert db rows. induction attempts0 as [|a l IH]; intros db rows Hrows; [done|].
  cbn [fold_left]. apply IH. unfold attempt, step_rows.
  rewrite (insert_into_sqlite_db_eq _ _ _ _ _ Hrows).
  by destruct (_ || _).
Qed.

(** The rows that a run leaves, from the calls it makes. *)
Lemma create_sqlite_database_rows content_toc file db :
  create_sqlite_database content_toc file = Ok (Some db) →
  rows_of (Some db) = fold_left step_rows (all_attempts content_toc) [].
Proof.
  rewrite create_sqlite_database_eq. intros [= <-].
  rewrite fold_index_module_attempts. unfold rows_of.
  by rewrite (fold_attempt_rows _ created []).
Qed.

Lemma step_rows_grow attempts0 rows :
  ∃ new, fold_left step_rows attempts0 rows = rows ++ new
         ∧ triple <$> new `sublist_of` attempts0.
Proof.
  revert rows. induction attempts0 as [|a l IH]; intros rows.
  - exists []. by rewrite app_nil_r.
  - cbn [fold_left]. destruct (IH (step_rows rows a)) as (new & -> & Hsub).
    unfold step_rows. destruct (_ || _).
    + exists new. split; [done|]. by apply sublist_cons.
    + exists (new_row rows a.1.1 a.1.2 a.2 :: new). rewrite <- app_assoc.
      split; [done|]. rewrite fmap_cons.
      replace (triple (new_row rows a.1.1 a.1.2 a.2)) with a
        by (by destruct a as [[? ?] ?]).
      by apply sublist_skip.
Qed.

Lemma foldr_max_seq a n :
  foldr Nat.max O (seq a n) = match n with O => O | S k => (a + k)%nat end.
Proof.
  revert a. induction n as [|n IH]; intros a; [done|].
  cbn [seq foldr]. rewrite IH. destruct n; lia.
Qed.

Lemma max_id_seq (rows : list row) :
  id <$> rows = seq 1 (length rows) →
  foldr (λ r m, Nat.max (id r) m) O rows = length rows.
Proof.
  intros Hids.
  assert (foldr (λ r m, Nat.max (id r) m) O rows
          = foldr Nat.max O (id <$> rows)) as ->.
  { clear. induction rows as [|r rows IH]; [done|]. simpl. by rewrite IH. }
  rewrite Hids, foldr_max_seq. by destruct (length rows).
Qed.

Lemma step_rows_ids attempts0 rows :
  id <$> rows = seq 1 (length rows) →
  id <$> fold_left step_rows attempts0 rows
  = seq 1 (length (fold_left step_rows attempts0 rows)).
Proof.
  revert rows. induction attempts0 as [|a l IH]; intros rows Hids; [done|].
  cbn [fold_left]. apply IH. unfold step_rows.
  destruct (_ || _); [done|].
  rewrite fmap_app, length_app. simpl. rewrite Nat.add_1_r, seq_S, Hids.
  f_equal. unfold next_rowid. by rewrite max_id_seq.
Qed.

Lemma step_rows_covers attempts0 rows a :
  a ∈ attempts0 →
  bindable a.1.1 a.1.2 a.2 = true →
  ∃ r, r ∈ fold_left step_rows attempts0 rows
       ∧ (name r = a.1.1 ∨ path r = a.2).
Proof.
  revert rows. induction attempts0 as [|b l IH]; intros rows Ha Hb.
  - by apply elem_of_nil in Ha.
  - cbn [fold_left]. apply elem_of_cons in Ha as [->|Ha]; [|by apply IH].
    destruct (step_rows_grow l (step_rows rows b)) as (new & -> & _).
    unfold step_rows. rewrite Hb, orb_false_r.
    destruct (collides rows b.1.1 b.2) eqn:Hc.
    + unfold collides in Hc. apply existsb_exists in Hc as (r & Hr & Hc).
      exists r. split; [apply elem_of_app; left; by apply list_elem_of_In|].
      apply orb_true_iff in Hc as [Hc|Hc]; apply eqb_eq in Hc; auto.
    + exists (new_row rows b.1.1 b.1.2 b.2). split; [|by left].
      apply elem_of_app. left. apply elem_of_app. right. by left.
Qed.

Lemma step_rows_fresh pre a post :
  (∀ b, b ∈ pre → b.1.1 ≠ a.1.1 ∧ b.2 ≠ a.2) →
  bindable a.1.1 a.1.2 a.2 = true →
  a ∈ triple <$> fold_left step_rows (pre ++ a :: post) [].
Proof.
  intros Hfresh Hb. rewrite fold_left_app. cbn [fold_left].
  destruct (step_rows_grow pre []) as (rows & -> & Hsub). simpl.
  destruct (step_rows_grow post (step_rows rows a)) as (new & -> & _).
  assert (collides rows a.1.1 a.2 = false) as Hc.
  { apply collides_false. intros r Hr.
    assert (triple r ∈ pre) as Hin.
    { eapply elem_of_sublist; [|exact Hsub]. apply list_elem_of_fmap. eauto. }
    destruct (Hfresh _ Hin) as [Hn Hp]. by split. }
  unfold step_rows. rewrite Hc, Hb. simpl.
  rewrite !fmap_app. apply elem_of_app. left.
  apply elem_of_app. right. simpl. destruct a as [[? ?] ?]. by left.
Qed.
End IndexRows.

(** X1. Every module and every command of the table of contents that is not
    named as its module, and whose name and path encode as UTF-8, is
    represented in the index: some row has its name or some row has its
    path. *)
Theorem index_covers_toc (content_toc : list (str * Crawler.module_infos))
    (file : option Indexer.database) (db : Indexer.database) :
  Indexer.create_sqlite_database content_toc file = Ok (Some db) →
  ∀ module_name module, (module_name, module) ∈ content_toc →
    (encodable module_name = true →
     encodable (Crawler.index module) = true →
     ∃ r, r ∈ Indexer.rows_of (Some db)
          ∧ (Indexer.name r = module_name
             ∨ Indexer.path r = Crawler.index module))
    ∧ ∀ c, c ∈ Crawler.cmdlets module → Crawler.name c ≠ module_name →
        encodable (Crawler.name c) = true →
        encodable (Crawler.path c) = true →
        ∃ r, r ∈ Indexer.rows_of (Some db)
             ∧ (Indexer.name r = Crawler.name c
                ∨ Indexer.path r = Crawler.path c).
Proof.
  intros Hrun module_name module Hin.
  rewrite (create_sqlite_database_rows _ _ _ Hrun).
  assert (∀ a, a ∈ attempts (module_name, module) →
            a ∈ all_attempts content_toc) as Hall.
  { intros a Ha. unfold all_attempts. apply list_elem_of_In, in_concat.
    exists (attempts (module_name, module)).
    split; apply list_elem_of_In; [|done].
    apply list_elem_of_fmap. eauto. }
  split.
  - intros Hn Hp.
    apply (step_rows_covers _ _ (module_name, u "Module", Crawler.index module)).
    + apply Hall. unfold attempts. simpl. by left.
    + unfold bindable. simpl. by rewrite Hn, Hp.
  - intros c Hc Hne Hn Hp.
    apply (step_rows_covers _ _ (Crawler.name c, u "Cmdlet", Crawler.path c)).
    + apply Hall. unfold attempts. simpl. right.
      apply list_elem_of_fmap. exists c. split; [done|].
      apply list_elem_of_In, filter_In. split; [by apply list_elem_of_In|].
      unfold self_named. apply negb_true_iff. by apply eqb_neq.
    + unfold bindable. simpl. by rewrite Hn, Hp.
Qed.

Lemma index_covers_toc_witness :
  ∃ r, r ∈ Indexer.rows_of (Some sample_index)
       ∧ (Indexer.name r = u "Get-CimInstance"
          ∨ Indexer.path r = u "m/PSDiagnostics/Get-CimInstance.html").
Proof.
  refine (proj2 (index_covers_toc sample_toc None sample_index eq_refl
                   (u "PSDiagnostics") _ _)
            {| Crawler.name := u "Get-CimInstance";
               Crawler.path := u "m/PSDiagnostics/Get-CimInstance.html" |}
            _ _ eq_refl eq_refl).
  - unfold sample_toc. right. left.
  - simpl. left.
  - discriminate.
Defined.

(** X2. The rows of the index are calls of the insertion routine, in the
    order in which the indexer makes them, and their ids count from 1 with
    no gap. *)
Theorem index_rows_in_order (content_toc : list (str * Crawler.module_infos))
    (file : option Indexer.database) (db : Indexer.database) :
  Indexer.create_sqlite_database content_toc file = Ok (Some db) →
  triple <$> Indexer.rows_of (Some db) `sublist_of` all_attempts content_toc
  ∧ Indexer.id <$> Indexer.rows_of (Some db)
    = seq 1 (length (Indexer.rows_of (Some db))).
Proof.
  intros Hrun. rewrite (create_sqlite_database_rows _ _ _ Hrun). split.
  - by destruct (step_rows_grow (all_attempts content_toc) [])
      as (new & -> & Hsub).
  - by apply step_rows_ids.
Qed.

Lemma index_rows_in_order_witness :
  triple <$> Indexer.rows_of (Some sample_index)
    `sublist_of` all_attempts sample_toc
  ∧ Indexer.id <$> Indexer.rows_of (Some sample_index)
    = seq 1 (length (Indexer.rows_of (Some sample_index))).
Proof.
  exact (index_rows_in_order sample_toc None sample_index eq_refl).
Defined.

(** X3. A call of the insertion routine whose name and whose path are those
    of no earlier call of the run, and whose texts encode as UTF-8, puts its
    row in the index. *)
Theorem index_fresh_attempt (content_toc : list (str * Crawler.module_infos))
    (file : option Indexer.database) (db : Indexer.database)
    (pre post : list (str * str * str)) (a : str * str * str) :
  Indexer.create_sqlite_database content_toc file = Ok (Some db) →
  all_attempts content_toc = pre ++ a :: post →
  (∀ b, b ∈ pre → b.1.1 ≠ a.1.1 ∧ b.2 ≠ a.2) →
  bindable a.1.1 a.1.2 a.2 = true →
  a ∈ triple <$> Indexer.rows_of (Some db).
Proof.
  intros Hrun Hsplit Hfresh Hb. rewrite (create_sqlite_database_rows _ _ _ Hrun).
  rewrite Hsplit. by apply step_rows_fresh.
Qed.

Lemma index_fresh_attempt_witness :
  (u "Get-LogProperties", u "Cmdlet", u "m/PSDiagnostics/Get-LogProperties.html")
  ∈ triple <$> Indexer.rows_of (Some sample_index).
Proof.
  refine (index_fresh_attempt sample_toc None sample_index
            (take 4 (all_attempts sample_toc)) []
            (u "Get-LogProperties", u "Cmdlet",
             u "m/PSDiagnostics/Get-LogProperties.html")
            eq_refl eq_refl _ eq_refl).
  apply (proj1 (Forall_forall _ _)).
  apply (bool_decide_unpack _). vm_compute. exact I.
Defined.

(** ** Links that the rewriter leaves alone *)

Section LinkStability.
Variable unicode_alnum : char → bool.
Variable configuration : Configuration.t.

Lemma fixed_href_search href text :
  href ≠ u "./?view=powershell-"
           ++ Configuration.powershell_version configuration →
  Rewriter.fixed_href unicode_alnum configuration href text
  = (λ m : str * str * str, m.1.2 ++ u ".html")
    <$> search (Rewriter.link_pattern unicode_alnum) href.
Proof.
  intros Hne. unfold Rewriter.fixed_href. apply eqb_neq in Hne as ->.
  pose proof (findall_head (Rewriter.link_pattern unicode_alnum) href) as Hh.
  destruct (Re.findall (Rewriter.link_pattern unicode_alnum) href) as [|g gs];
    destruct (search (Rewriter.link_pattern unicode_alnum) href)
      as [[[pre t] post]|]; simpl in Hh; try done.
  by injection Hh as ->.
Qed.

Lemma occurs_question href pre t post :
  occurs unicode_alnum href pre t post → Rewriter.question ∈ href.
Proof.
  intros [-> _]. apply elem_of_app. right. apply elem_of_app. right. by left.
Qed.

Lemma rewrite_href_no_question href text :
  Rewriter.question ∉ href →
  Rewriter.rewrite_href unicode_alnum configuration href text = href.
Proof.
  intros Hq. unfold Rewriter.rewrite_href. rewrite fixed_href_search.
  - destruct (search (Rewriter.link_pattern unicode_alnum) href)
      as [[[pre t] post]|] eqn:Hs; [|done].
    apply search_first_occurrence in Hs as [Hocc _].
    by apply occurs_question in Hocc.
  - intros ->. apply Hq. apply elem_of_app. left.
    apply (bool_decide_unpack _). vm_compute. exact I.
Qed.

Lemma token_no_question t :
  is_token unicode_alnum t → Rewriter.question ∉ t ++ u ".html".
Proof.
  intros (w1 & w2 & -> & _ & _ & Hw1 & Hw2).
  assert (∀ w, forallb (Re.word unicode_alnum) w = true →
            Rewriter.question ∉ w) as Hword.
  { intros w Hw Hin. apply list_elem_of_In in Hin.
    rewrite forallb_forall in Hw. by specialize (Hw _ Hin). }
  rewrite !elem_of_app, elem_of_cons. intros [[H|[H|H]]|H].
  - by apply (Hword w1).
  - discriminate.
  - by apply (Hword w2).
  - revert H. apply (bool_decide_eq_false_1 _). vm_compute. reflexivity.
Qed.
End LinkStability.

(** ** Documents *)

Section SoupFacts.
Import Soup.

Lemma node_induction (P : node → Prop) :
  (∀ t, P (Text t)) →
  (∀ i nm attrs contents, Forall P contents → P (Tag i nm attrs contents)) →
  ∀ n, P n.
Proof.
  intros Htext Htag. fix IH 1. intros [t|i nm attrs contents]; [apply Htext|].
  apply Htag. revert contents. fix IHl 1. intros [|c cs]; constructor.
  - apply IH.
  - apply IHl.
Qed.

Lemma extract_in_tag i j nm attrs contents :
  extract_in i (Tag j nm attrs contents) = Tag j nm attrs (extract i contents).
Proof.
  simpl. f_equal. induction contents as [|c cs IH]; [done|]. simpl.
  destruct (has_id i c); by rewrite IH.
Qed.

Lemma label_extract_in i n : label (extract_in i n) = label n.
Proof. by destruct n. Qed.

Lemma matches_label nm wanted n n' :
  label n = label n' → matches nm wanted n = matches nm wanted n'.
Proof. destruct n, n'; simpl; try done. by intros [= -> -> ->]. Qed.

Lemma has_id_label i n n' : label n = label n' → has_id i n = has_id i n'.
Proof. destruct n, n'; simpl; try done. by intros [= -> -> ->]. Qed.

Lemma soup_descendants_cons c s :
  soup_descendants (c :: s) = c :: descendants c ++ soup_descendants s.
Proof. done. Qed.

(** What is in a document after an extraction was there before, under the
    same label, and it is not the extracted tag. *)
Lemma extract_descendants i s n' :
  n' ∈ soup_descendants (extract i s) →
  ∃ d, d ∈ soup_descendants s ∧ label n' = label d ∧ has_id i n' = false.
Proof.
  revert n'.
  assert (∀ n n', n' ∈ descendants (extract_in i n) →
            ∃ d, d ∈ descendants n ∧ label n' = label d
                 ∧ has_id i n' = false) as Hnode.
  { intros n. induction n as [t|j nm attrs contents IH] using node_induction;
      intros n'; [intros H; by apply elem_of_nil in H|].
    rewrite extract_in_tag.
    change (descendants (Tag j nm attrs (extract i contents)))
      with (soup_descendants (extract i contents)).
    change (descendants (Tag j nm attrs contents))
      with (soup_descendants contents).
    induction IH as [|c cs Hc _ IHcs]; [intros H; by apply elem_of_nil in H|].
    simpl extract. destruct (has_id i c) eqn:Hid.
    - intros H. destruct (IHcs H) as (d & Hd & ?). exists d.
      split; [|done]. rewrite soup_descendants_cons.
      apply elem_of_cons. right. apply elem_of_app. by right.
    - rewrite !soup_descendants_cons, elem_of_cons, elem_of_app.
      intros [->|[H|H]].
      + exists c. split; [by left|]. rewrite label_extract_in. split; [done|].
        by rewrite (has_id_label i _ c) by apply label_extract_in.
      + destruct (Hc _ H) as (d & Hd & ?). exists d. split; [|done].
        apply elem_of_cons. right. apply elem_of_app. by left.
      + destruct (IHcs H) as (d & Hd & ?). exists d. split; [|done].
        apply elem_of_cons. right. apply elem_of_app. by right. }
  induction s as [|c cs IHcs]; intros n'; [intros H; by apply elem_of_nil in H|].
  simpl extract. destruct (has_id i c) eqn:Hid.
  - intros H. destruct (IHcs _ H) as (d & Hd & ?). exists d.
    split; [|done]. rewrite soup_descendants_cons.
    apply elem_of_cons. right. apply elem_of_app. by right.
  - rewrite !soup_descendants_cons, elem_of_cons, elem_of_app.
    intros [->|[H|H]].
    + exists c. split; [by left|]. rewrite label_extract_in. split; [done|].
      by rewrite (has_id_label i _ c) by apply label_extract_in.
    + destruct (Hnode c _ H) as (d & Hd & ?). exists d. split; [|done].
      apply elem_of_cons. right. apply elem_of_app. by left.
    + destruct (IHcs _ H) as (d & Hd & ?). exists d. split; [|done].
      apply elem_of_cons. right. apply elem_of_app. by right.
Qed.

Lemma clean_spec nm wanted s :
  clean nm wanted s ↔
  ∀ n, n ∈ soup_descendants s → matches nm wanted n = false.
Proof.
  unfold clean, soup_findAll. split.
  - intros Hnil n Hn. apply not_true_iff_false. intros Hm.
    assert (In n (List.filter (matches nm wanted) (soup_descendants s))) as Hin
      by (apply filter_In; split; [by apply list_elem_of_In|done]).
    by rewrite Hnil in Hin.
  - intros Hall.
    destruct (List.filter (matches nm wanted) (soup_descendants s))
      as [|n l] eqn:Hf; [done|].
    assert (In n (List.filter (matches nm wanted) (soup_descendants s))) as Hin
      by (rewrite Hf; by left).
    apply filter_In in Hin as [Hin Hm]. apply list_elem_of_In in Hin.
    by rewrite (Hall n Hin) in Hm.
Qed.

Lemma clean_extract nm wanted i s :
  clean nm wanted s → clean nm wanted (extract i s).
Proof.
  rewrite !clean_spec. intros Hall n' Hn'.
  destruct (extract_descendants _ _ _ Hn') as (d & Hd & Hl & _).
  rewrite (matches_label _ _ _ _ Hl). by apply Hall.
Qed.

Lemma clean_extract_all nm wanted found s :
  clean nm wanted s → clean nm wanted (Rewriter.extract_all found s).
Proof.
  revert s. induction found as [|f found IH]; intros s Hs; [done|].
  simpl. apply IH. destruct (id_of f); [by apply clean_extract|done].
Qed.

(** Extracting all that a search finds leaves nothing for it to find. *)
Lemma extract_all_clean nm wanted s :
  clean nm wanted (Rewriter.extract_all (soup_findAll nm wanted s) s).
Proof.
  assert (∀ found s,
            (∀ n, n ∈ soup_descendants s → matches nm wanted n = true →
                  ∃ f, f ∈ found ∧ id_of f = id_of n) →
            clean nm wanted (Rewriter.extract_all found s)) as Hinv.
  { clear s. induction found as [|f found IH]; intros s Hinv.
    - apply clean_spec. intros n Hn. apply not_true_iff_false. intros Hm.
      destruct (Hinv n Hn Hm) as (f & Hf & _). by apply elem_of_nil in Hf.
    - simpl. apply IH. destruct (id_of f) as [i|] eqn:Hi.
      + intros n' Hn' Hm.
        destruct (extract_descendants _ _ _ Hn') as (d & Hd & Hl & Hid).
        rewrite (matches_label _ _ _ _ Hl) in Hm.
        destruct (Hinv d Hd Hm) as (f' & Hf' & Hid').
        apply elem_of_cons in Hf' as [->|Hf'].
        * exfalso. rewrite Hi in Hid'.
          destruct n', d; simpl in *; try done.
          injection Hl as -> _ _. injection Hid' as ->.
          by rewrite Nat.eqb_refl in Hid.
        * exists f'. split; [done|]. rewrite Hid'.
          destruct n', d; simpl in *; try done. by injection Hl as ->.
      + intros n Hn Hm. destruct (Hinv n Hn Hm) as (f' & Hf' & Hid').
        apply elem_of_cons in Hf' as [->|Hf']; [|by exists f'].
        rewrite Hi in Hid'. by destruct n. }
  apply Hinv. intros n Hn Hm. exists n. split; [|done].
  unfold soup_findAll. apply list_elem_of_In, filter_In.
  split; [by apply list_elem_of_In|done].
Qed.

Lemma remove_nav_clean patterns s :
  (∀ nm wanted, clean nm wanted s →
                clean nm wanted (Rewriter.remove_nav patterns s))
  ∧ (∀ nav, nav ∈ patterns →
            clean nav.1 nav.2 (Rewriter.remove_nav patterns s)).
Proof.
  revert s. induction patterns as [|p patterns IH]; intros s.
  - split; [done|]. intros nav H. by apply elem_of_nil in H.
  - unfold Rewriter.remove_nav. cbn [fold_left].
    fold (Rewriter.remove_nav patterns
            (Rewriter.extract_all (soup_findAll p.1 p.2 s) s)).
    destruct (IH (Rewriter.extract_all (soup_findAll p.1 p.2 s) s))
      as [Hkeep Hall].
    split.
    + intros nm wanted Hs. by apply Hkeep, clean_extract_all.
    + intros nav [->|Hnav]%elem_of_cons; [|by apply Hall].
      apply Hkeep, extract_all_clean.
Qed.
End SoupFacts.

Section AssignFacts.
Import Soup.

Lemma get_set_ne attrs k v key : k ≠ key → get (set attrs k v) key = get attrs key.
Proof.
  intros Hne. induction attrs as [|[k' v'] attrs IH]; simpl.
  - by apply eqb_neq in Hne as ->.
  - destruct (eqb k' k) eqn:Hk; simpl.
    + apply eqb_eq in Hk as ->. by apply eqb_neq in Hne as ->.
    + destruct (eqb k' key); [done|]. exact IH.
Qed.

Lemma forallb_agree {A} (f g : A → bool) l :
  (∀ x, x ∈ l → f x = g x) → forallb f l = forallb g l.
Proof.
  induction l as [|x l IH]; [done|]. intros H. simpl.
  rewrite (H x) by by left. rewrite IH; [done|].
  intros y Hy. apply H. by right.
Qed.

Lemma matches_assign_in nm wanted i k v n :
  k ∉ wanted.*1 →
  matches nm wanted (assign_in i k v n) = matches nm wanted n.
Proof.
  intros Hk. destruct n as [t|j nm' attrs contents]; [done|]. simpl.
  destruct (i =? j)%nat; [|done]. f_equal.
  apply forallb_agree. intros [key against] Hin.
  unfold attr_matches. rewrite get_set_ne; [done|]. intros ->.
  apply Hk. apply list_elem_of_fmap. by exists (key, against).
Qed.

Lemma descendants_assign_in i k v n :
  descendants (assign_in i k v n) = assign_in i k v <$> descendants n.
Proof.
  induction n as [t|j nm attrs contents IH] using node_induction; [done|].
  simpl. induction IH as [|c cs Hc _ IHcs]; [done|].
  simpl. rewrite fmap_app, Hc. f_equal. f_equal. exact IHcs.
Qed.

Lemma soup_descendants_assign i k v s :
  soup_descendants (assign i k v s) = assign_in i k v <$> soup_descendants s.
Proof.
  induction s as [|c cs IH]; [done|].
  unfold assign. simpl. rewrite fmap_app, descendants_assign_in.
  f_equal. f_equal. exact IH.
Qed.

Lemma clean_assign nm wanted i k v s :
  k ∉ wanted.*1 → clean nm wanted s → clean nm wanted (assign i k v s).
Proof.
  intros Hk. rewrite !clean_spec. intros Hall n' Hn'.
  rewrite soup_descendants_assign in Hn'.
  apply list_elem_of_fmap in Hn' as (d & -> & Hd).
  rewrite matches_assign_in by done. by apply Hall.
Qed.

Lemma find_none nm s : find nm s = None ↔ clean nm [] s.
Proof.
  unfold find, clean. destruct (soup_findAll nm [] s); [done|].
  split; intros; discriminate.
Qed.
End AssignFacts.

Section RewriteSoupFacts.
Import Soup Rewriter.
Variable unicode_alnum : char → bool.
Variable cwd : str.
Variable configuration : Configuration.t.

Lemma fix_links_clean nm wanted links s s' :
  u "href" ∉ wanted.*1 →
  fix_links unicode_alnum configuration links s = Ok s' →
  clean nm wanted s → clean nm wanted s'.
Proof.
  intros Hk. revert s. induction links as [|link links IH]; intros s; simpl.
  - by intros [= <-].
  - destruct (id_of link) as [i|]; [|done].
    destruct (get (attrs_of link) (u "href")) as [href|]; [|done].
    destruct (fixed_href unicode_alnum configuration href (text link))
      as [fixed|]; [|apply IH].
    intros Hrun Hs. apply (IH _ Hrun).
    destruct (negb (eqb fixed href)); [by apply clean_assign|done].
Qed.

Lemma theme_links_clean nm wanted documents_dir html_path links s acc s' rs :
  u "href" ∉ wanted.*1 →
  theme_links cwd documents_dir html_path links s acc = Ok (s', rs) →
  clean nm wanted s → clean nm wanted s'.
Proof.
  intros Hk. revert s acc. induction links as [|link links IH]; intros s acc;
    simpl.
  - by intros [= <- _].
  - destruct (id_of link) as [i|]; [|done].
    destruct (get (attrs_of link) (u "href")) as [href|]; [|done].
    destruct (stylesheet cwd documents_dir html_path href)
      as [[[rel_uri css_url] css_filepath]|]; [|apply IH].
    intros Hrun Hs. apply (IH _ _ Hrun). by apply clean_assign.
Qed.

Lemma nav_elements_keys :
  Forall (λ nav : str * list (str * str), u "href" ∉ nav.2.*1) nav_elements.
Proof. apply (bool_decide_unpack _). vm_compute. exact I. Qed.

Lemma index_nav_elements_keys :
  Forall (λ nav : str * list (str * str), u "href" ∉ nav.2.*1)
    index_nav_elements.
Proof. apply (bool_decide_unpack _). vm_compute. exact I. Qed.
End RewriteSoupFacts.

(** ** The link loop on a document *)

Section LinkLoop.
Import Soup Rewriter.
Variable unicode_alnum : char → bool.
Variable cwd : str.
Variable configuration : Configuration.t.

Local Abbreviation turn := (link_turn unicode_alnum configuration).
Local Abbreviation turns links :=
  (λ n, fold_left (λ n link, turn link n) links n).
Local Abbreviation rewritten :=
  (Rewriter.rewrite_href unicode_alnum configuration).
Local Abbreviation fix_links := (Rewriter.fix_links unicode_alnum configuration).

Lemma get_set_eq attrs (k v : str) : get (set attrs k v) k = Some v.
Proof.
  induction attrs as [|[k' v'] attrs IH]; simpl; [by rewrite eqb_refl|].
  destruct (eqb k' k) eqn:Hk; simpl; rewrite Hk; [done|exact IH].
Qed.

Lemma label_fields n d :
  label n = label d →
  id_of n = id_of d ∧ name_of n = name_of d ∧ attrs_of n = attrs_of d.
Proof. destruct n, d; simpl; try done. by intros [= -> -> ->]. Qed.

Lemma has_id_true i n : has_id i n = true ↔ id_of n = Some i.
Proof.
  destruct n as [t|j nm attrs cs]; simpl; [done|].
  rewrite Nat.eqb_eq. split; [by intros ->|by intros [= ->]].
Qed.

Lemma text_assign_in j (k v : str) n : text (assign_in j k v n) = text n.
Proof.
  induction n as [t|i nm attrs contents IH] using node_induction; [done|].
  simpl. induction IH as [|c cs Hc _ IHcs]; [done|]. simpl.
  by rewrite Hc, IHcs.
Qed.

Lemma attrs_of_assign_in j (k v : str) n i :
  id_of n = Some i →
  attrs_of (assign_in j k v n)
  = if decide (j = i) then set (attrs_of n) k v else attrs_of n.
Proof.
  destruct n as [t|i' nm attrs cs]; simpl; [done|]. intros [= ->].
  destruct (Nat.eqb_spec j i), (decide (j = i)); done.
Qed.

(** A turn keeps the identity, the name and the text of a node, and all
    its attributes but [href]. *)
Lemma turn_keeps link n :
  id_of (turn link n) = id_of n
  ∧ name_of (turn link n) = name_of n
  ∧ text (turn link n) = text n
  ∧ ∀ k, k ≠ u "href" → get (attrs_of (turn link n)) k = get (attrs_of n) k.
Proof.
  unfold link_turn. destruct (id_of link) as [i|]; [|done].
  destruct (get (attrs_of link) (u "href")) as [href|]; [|done].
  destruct (fixed_href _ _ _ _) as [fixed|]; [|done].
  destruct (negb (eqb fixed href)); [|done].
  split; [by destruct n|]. split; [by destruct n|].
  split; [apply text_assign_in|]. intros k Hk.
  destruct n as [t|j nm attrs cs]; simpl; [done|].
  destruct (i =? j)%nat; [|done]. by apply get_set_ne.
Qed.

Lemma turn_other link n i :
  id_of n = Some i → id_of link ≠ Some i →
  attrs_of (turn link n) = attrs_of n.
Proof.
  intros Hn Hne. unfold link_turn. destruct (id_of link) as [j|]; [|done].
  destruct (get (attrs_of link) (u "href")) as [href|]; [|done].
  destruct (fixed_href _ _ _ _) as [fixed|]; [|done].
  destruct (negb (eqb fixed href)); [|done].
  rewrite (attrs_of_assign_in _ _ _ _ _ Hn).
  destruct (decide (j = i)) as [->|]; done.
Qed.

Lemma turn_same link n i href :
  id_of n = Some i → id_of link = Some i →
  get (attrs_of link) (u "href") = Some href →
  get (attrs_of n) (u "href") = Some href →
  get (attrs_of (turn link n)) (u "href") = Some (rewritten href (text link)).
Proof.
  intros Hn Hl Hh Hnh. unfold link_turn, rewrite_href. rewrite Hl, Hh.
  destruct (fixed_href _ _ _ _) as [fixed|]; [|done].
  destruct (negb (eqb fixed href)); [|done].
  rewrite (attrs_of_assign_in _ _ _ _ _ Hn).
  destruct (decide (i = i)); [|done]. apply get_set_eq.
Qed.

Lemma turns_keeps links n :
  id_of (turns links n) = id_of n
  ∧ name_of (turns links n) = name_of n
  ∧ text (turns links n) = text n
  ∧ ∀ k, k ≠ u "href" → get (attrs_of (turns links n)) k = get (attrs_of n) k.
Proof.
  revert n. induction links as [|link links IH]; intros n; [done|].
  cbn [fold_left]. destruct (IH (turn link n)) as (Hi & Hn & Ht & Hk).
  destruct (turn_keeps link n) as (Hi' & Hn' & Ht' & Hk').
  rewrite Hi, Hn, Ht. split; [done|]. split; [done|]. split; [done|].
  intros k Hne. by rewrite Hk, Hk'.
Qed.

Lemma turns_other links n i :
  id_of n = Some i → i ∉ omap id_of links →
  attrs_of (turns links n) = attrs_of n.
Proof.
  revert n. induction links as [|link links IH]; intros n Hn Hnot; [done|].
  cbn [fold_left]. simpl in Hnot.
  destruct (turn_keeps link n) as (Hi & _).
  rewrite IH.
  - apply (turn_other _ _ i); [done|]. intros Hl. rewrite Hl in Hnot.
    apply Hnot. by left.
  - by rewrite Hi.
  - destruct (id_of link); [|done]. intros H. apply Hnot. by right.
Qed.

(** The href of a link after the loop, on the node that the link is. *)
Lemma turns_same links link n i href :
  NoDup (omap id_of links) → link ∈ links →
  id_of n = Some i → id_of link = Some i →
  get (attrs_of link) (u "href") = Some href →
  get (attrs_of n) (u "href") = Some href →
  get (attrs_of (turns links n)) (u "href") = Some (rewritten href (text link)).
Proof.
  revert n. induction links as [|l links IH]; intros n Hnd Hin Hn Hl Hh Hnh.
  - by apply elem_of_nil in Hin.
  - cbn [fold_left]. simpl in Hnd.
    destruct (turn_keeps l n) as (Hi & _).
    apply elem_of_cons in Hin as [<-|Hin].
    + rewrite Hl in Hnd. apply NoDup_cons in Hnd as [Hnot _].
      rewrite turns_other with (i := i); [|by rewrite Hi|done].
      by apply turn_same with (i := i).
    + assert (id_of l ≠ Some i) as Hne.
      { intros Hli. rewrite Hli in Hnd. apply NoDup_cons in Hnd as [Hnot _].
        apply Hnot. apply list_elem_of_omap. by exists link. }
      apply IH; try done.
      * destruct (id_of l); [by apply NoDup_cons in Hnd as [_ ?]|done].
      * by rewrite Hi.
      * by rewrite (turn_other _ _ i).
Qed.

Lemma matches_turns nm wanted links n :
  u "href" ∉ wanted.*1 →
  matches nm wanted (turns links n) = matches nm wanted n.
Proof.
  intros Hk. revert n. induction links as [|link links IH]; intros n; [done|].
  cbn [fold_left]. rewrite IH. unfold link_turn.
  destruct (id_of link) as [i|]; [|done].
  destruct (get (attrs_of link) (u "href")) as [href|]; [|done].
  destruct (fixed_href _ _ _ _) as [fixed|]; [|done].
  destruct (negb (eqb fixed href)); [|done]. by apply matches_assign_in.
Qed.

(** The document after the loop: each node has had the turns of the links,
    in order. *)
Lemma fix_links_descendants links s s' :
  fix_links links s = Ok s' →
  soup_descendants s' = turns links <$> soup_descendants s.
Proof.
  revert s. induction links as [|link links IH]; intros s.
  - intros [= <-]. simpl. by rewrite list_fmap_id.
  - intros Hrun.
    assert (∃ s1, fix_links links s1 = Ok s'
                  ∧ soup_descendants s1 = turn link <$> soup_descendants s)
      as (s1 & Hrest & Hmid).
    { cbn [Rewriter.fix_links] in Hrun. unfold link_turn.
      destruct (id_of link) as [i|]; [|done].
      destruct (get (attrs_of link) (u "href")) as [href|]; [|done].
      destruct (fixed_href _ _ _ _) as [fixed|].
      - destruct (negb (eqb fixed href)).
        + eexists. split; [exact Hrun|]. apply soup_descendants_assign.
        + exists s. split; [done|]. by rewrite list_fmap_id.
      - exists s. split; [done|]. by rewrite list_fmap_id. }
    rewrite (IH _ Hrest), Hmid, <- list_fmap_compose. done.
Qed.

(** The loop ends normally when every link has an href. *)
Lemma fix_links_total links s :
  (∀ link, link ∈ links →
     is_Some (id_of link) ∧ is_Some (get (attrs_of link) (u "href"))) →
  ∃ s', fix_links links s = Ok s'.
Proof.
  revert s. induction links as [|link links IH]; intros s Hall; [by exists s|].
  cbn [Rewriter.fix_links].
  destruct (Hall link) as [[i ->] [href ->]]; [by left|].
  assert (∀ l, l ∈ links →
            is_Some (id_of l) ∧ is_Some (get (attrs_of l) (u "href"))) as Hrest
    by (intros l Hl; apply Hall; by right).
  destruct (fixed_href _ _ _ _); apply IH; done.
Qed.

Lemma unique_by_id (l : list node) x y i :
  NoDup (omap id_of l) → x ∈ l → y ∈ l →
  id_of x = Some i → id_of y = Some i → x = y.
Proof.
  induction l as [|a l IH]; [by intros _ ?%elem_of_nil|].
  simpl. intros Hnd Hx Hy Hix Hiy.
  apply elem_of_cons in Hx as [->|Hx]; apply elem_of_cons in Hy as [->|Hy];
    [done| | |].
  - rewrite Hix in Hnd. apply NoDup_cons in Hnd as [Hnot _]. destruct Hnot.
    apply list_elem_of_omap. by exists y.
  - rewrite Hiy in Hnd. apply NoDup_cons in Hnd as [Hnot _]. destruct Hnot.
    apply list_elem_of_omap. by exists x.
  - apply IH; try done.
    destruct (id_of a); [by apply NoDup_cons in Hnd as [_ ?]|done].
Qed.

Lemma NoDup_ids_filter (P : node → bool) (l : list node) :
  NoDup (omap id_of l) → NoDup (omap id_of (List.filter P l)).
Proof.
  induction l as [|a l IH]; [done|]. simpl.
  intros Hnd. destruct (P a); simpl.
  - destruct (id_of a) as [i|]; [|by apply IH].
    apply NoDup_cons in Hnd as [Hnot Hnd]. apply NoDup_cons. split; [|by apply IH].
    intros (x & Hx & Hi)%list_elem_of_omap. apply Hnot.
    apply list_elem_of_omap. exists x. split; [|done].
    apply list_elem_of_In, filter_In in Hx as [Hx _]. by apply list_elem_of_In.
  - apply IH. destruct (id_of a); [by apply NoDup_cons in Hnd as [_ ?]|done].
Qed.

Lemma find_by_id (l : list node) link i :
  NoDup (omap id_of l) → link ∈ l → id_of link = Some i →
  List.find (has_id i) l = Some link.
Proof.
  intros Hnd Hin Hi. destruct (List.find (has_id i) l) as [n|] eqn:Hf.
  - apply List.find_some in Hf as [Hn Hid]. f_equal.
    apply (unique_by_id l n link i); try done.
    + by apply list_elem_of_In.
    + by apply has_id_true.
  - apply List.find_none with (x := link) in Hf; [|by apply list_elem_of_In].
    apply has_id_true in Hi. congruence.
Qed.

Lemma find_fmap (f : node → bool) (g : node → node) (l : list node) :
  (∀ n, f (g n) = f n) → List.find f (g <$> l) = g <$> List.find f l.
Proof.
  intros H. induction l as [|a l IH]; [done|]. simpl. rewrite H.
  destruct (f a); [done|exact IH].
Qed.

Lemma omap_cons_eq {A B} (f : A → option B) (a : A) (l : list A) :
  omap f (a :: l)
  = match f a with Some y => y :: omap f l | None => omap f l end.
Proof. done. Qed.

Lemma omap_id_turns links (l : list node) :
  omap id_of (turns links <$> l) = omap id_of l.
Proof.
  induction l as [|a l IH]; [done|]. rewrite fmap_cons, !omap_cons_eq.
  destruct (turns_keeps links a) as (-> & _). by rewrite IH.
Qed.

Lemma relative_link_tag link s :
  link ∈ relative_links s →
  link ∈ soup_descendants s ∧ name_of link = u "a".
Proof.
  intros [Hin Hm]%list_elem_of_In%filter_In. split; [by apply list_elem_of_In|].
  destruct link as [t|i nm attrs cs]; [done|]. simpl in *.
  apply andb_true_iff in Hm as [Hm _]. by apply eqb_eq.
Qed.

Lemma relative_links_NoDup s :
  NoDup (tag_ids s) → NoDup (omap id_of (relative_links s)).
Proof. apply NoDup_ids_filter. Qed.

(** After the loop, the tag of a link carries the new href. *)
Lemma fix_links_link s s1 link i href :
  NoDup (tag_ids s) →
  link ∈ relative_links s → id_of link = Some i →
  get (attrs_of link) (u "href") = Some href →
  fix_links (relative_links s) s = Ok s1 →
  tag_at i s1 = Some (turns (relative_links s) link)
  ∧ get (attrs_of (turns (relative_links s) link)) (u "href")
    = Some (rewritten href (text link))
  ∧ ∀ n, n ∈ soup_descendants s1 → id_of n = Some i →
         n = turns (relative_links s) link.
Proof.
  intros Hnd Hlink Hi Hh Hrun.
  destruct (relative_link_tag _ _ Hlink) as [Hin _].
  pose proof (fix_links_descendants _ _ _ Hrun) as Hd.
  split; [|split].
  - unfold tag_at. rewrite Hd, find_fmap.
    + by rewrite (find_by_id _ link i).
    + intros n. destruct (turns_keeps (relative_links s) n) as (Hid & _).
      destruct (has_id i n) eqn:Hn.
      * apply has_id_true. rewrite Hid. by apply has_id_true.
      * apply not_true_iff_false. rewrite has_id_true, Hid, <- has_id_true.
        congruence.
  - apply turns_same with (i := i); try done. by apply relative_links_NoDup.
  - intros n Hn Hni. rewrite Hd in Hn.
    apply list_elem_of_fmap in Hn as (d & -> & Hdin). f_equal.
    destruct (turns_keeps (relative_links s) d) as (Hid & _).
    rewrite Hid in Hni. by apply (unique_by_id (soup_descendants s) d link i).
Qed.
End LinkLoop.

(** ** The links through the whole pass *)

Section LinkPass.
Import Soup Rewriter.
Variable unicode_alnum : char → bool.
Variable cwd : str.
Variable configuration : Configuration.t.

Local Abbreviation turn := (link_turn unicode_alnum configuration).
Local Abbreviation turns links :=
  (λ n, fold_left (λ n link, turn link n) links n).
Local Abbreviation rewritten :=
  (Rewriter.rewrite_href unicode_alnum configuration).

Lemma descendants_trans n d e :
  d ∈ descendants n → e ∈ descendants d → e ∈ descendants n.
Proof.
  induction n as [t|i nm attrs contents IH] using node_induction;
    [by intros ?%elem_of_nil|].
  simpl. intros Hd He. apply list_elem_of_In, in_flat_map in Hd as (c & Hc & Hd).
  apply list_elem_of_In, in_flat_map. exists c. split; [done|].
  apply list_elem_of_In. apply list_elem_of_In in Hc, Hd.
  apply elem_of_cons in Hd as [->|Hd]; [by right|]. right.
  rewrite Forall_forall in IH. by apply (IH c Hc).
Qed.

Lemma soup_descendants_trans s d e :
  d ∈ soup_descendants s → e ∈ descendants d → e ∈ soup_descendants s.
Proof.
  unfold soup_descendants. intros Hd He.
  apply list_elem_of_In, in_flat_map in Hd as (c & Hc & Hd).
  apply list_elem_of_In, in_flat_map. exists c. split; [done|].
  apply list_elem_of_In. apply list_elem_of_In in Hd.
  apply elem_of_cons in Hd as [->|Hd]; [by right|]. right.
  by apply (descendants_trans c d e).
Qed.

Lemma extract_all_descendants found s n' :
  n' ∈ soup_descendants (extract_all found s) →
  ∃ d, d ∈ soup_descendants s ∧ label n' = label d.
Proof.
  revert s. induction found as [|f found IH]; intros s; [by exists n'|].
  simpl. intros Hn'. destruct (IH _ Hn') as (d1 & Hd1 & Hl1).
  destruct (id_of f) as [i|]; [|by exists d1].
  destruct (extract_descendants _ _ _ Hd1) as (d & Hd & Hl & _).
  exists d. split; [done|]. congruence.
Qed.

Lemma remove_nav_descendants patterns s n' :
  n' ∈ soup_descendants (remove_nav patterns s) →
  ∃ d, d ∈ soup_descendants s ∧ label n' = label d.
Proof.
  revert s. induction patterns as [|p patterns IH]; intros s; [by exists n'|].
  unfold remove_nav. cbn [fold_left].
  fold (remove_nav patterns (extract_all (soup_findAll p.1 p.2 s) s)).
  intros Hn'. destruct (IH _ Hn') as (d1 & Hd1 & Hl1).
  destruct (extract_all_descendants _ _ _ Hd1) as (d & Hd & Hl).
  exists d. split; [done|]. congruence.
Qed.

(** The loop over the stylesheets touches the tags of its links only. *)
Lemma theme_links_descendants documents_dir html_path links s acc s' rs n' :
  theme_links cwd documents_dir html_path links s acc = Ok (s', rs) →
  n' ∈ soup_descendants s' →
  ∃ d, d ∈ soup_descendants s
       ∧ id_of n' = id_of d ∧ name_of n' = name_of d
       ∧ ((∀ l, l ∈ links → id_of l ≠ id_of d) → attrs_of n' = attrs_of d).
Proof.
  revert s acc. induction links as [|link links IH]; intros s acc.
  - intros [= <- <-] Hn'. by exists n'.
  - cbn [theme_links]. destruct (id_of link) as [j|] eqn:Hj; [|done].
    destruct (get (attrs_of link) (u "href")) as [href|]; [|done].
    destruct (stylesheet cwd documents_dir html_path href)
      as [[[rel_uri css_url] css_filepath]|].
    + intros Hrun Hn'. destruct (IH _ _ Hrun Hn') as (d1 & Hd1 & Hi & Hn & Ha).
      rewrite soup_descendants_assign in Hd1.
      apply list_elem_of_fmap in Hd1 as (d & -> & Hd). exists d.
      split; [done|]. split; [by destruct d|]. split; [by destruct d|].
      intros Hall. rewrite Ha.
      * destruct d as [t|i nm attrs cs]; [done|]. simpl.
        destruct (Nat.eqb_spec j i) as [->|]; [|done].
        destruct (Hall link); [by left|by rewrite Hj].
      * intros l Hl. assert (id_of (assign_in j (u "href") rel_uri d) = id_of d)
          as -> by by destruct d.
        apply Hall. by right.
    + intros Hrun Hn'. destruct (IH _ _ Hrun Hn') as (d & Hd & Hi & Hn & Ha).
      exists d. split; [done|]. split; [done|]. split; [done|].
      intros Hall. apply Ha. intros l Hl. apply Hall. by right.
Qed.

Lemma find_descendant nm s n : find nm s = Some n → n ∈ soup_descendants s.
Proof.
  unfold find, soup_findAll. intros H.
  assert (n ∈ List.filter (matches nm []) (soup_descendants s)) as Hin.
  { destruct (List.filter _ _); [done|]. injection H as ->. by left. }
  apply list_elem_of_In, filter_In in Hin as [Hin _]. by apply list_elem_of_In.
Qed.

(** After the whole pass, a tag with the identity of a link of the page is
    an [a] with the href that the loop gave to the link. *)
Lemma rewrite_soup_link s html_path documents_dir s' rs link i href :
  NoDup (tag_ids s) →
  link ∈ relative_links s → id_of link = Some i →
  get (attrs_of link) (u "href") = Some href →
  rewrite_soup unicode_alnum cwd configuration s html_path documents_dir
  = Ok (s', rs) →
  ∀ n, n ∈ soup_descendants s' → id_of n = Some i →
       get (attrs_of n) (u "href") = Some (rewritten href (text link)).
Proof.
  intros Hnd Hlink Hi Hh. unfold rewrite_soup. fold (relative_links s).
  destruct (fix_links unicode_alnum configuration (relative_links s) s)
    as [s1|e] eqn:Hloop; [|done].
  destruct (fix_links_link unicode_alnum configuration _ _ _ _ _
              Hnd Hlink Hi Hh Hloop) as (_ & Hnew & Honly).
  destruct (relative_link_tag _ _ Hlink) as [_ Hname].
  destruct (turns_keeps unicode_alnum configuration (relative_links s) link)
    as (_ & Hname' & _).
  destruct (find (u "head") (remove_nav nav_elements s1)) as [head|]; [|done].
  set (s3 := extract_all (findAll (u "script") [] head)
               (remove_nav nav_elements s1)).
  assert (∀ n, n ∈ soup_descendants s3 → id_of n = Some i →
            name_of n = u "a"
            ∧ get (attrs_of n) (u "href") = Some (rewritten href (text link)))
    as Hinv.
  { intros n Hn Hni.
    destruct (extract_all_descendants _ _ _ Hn) as (d2 & Hd2 & Hl2).
    destruct (remove_nav_descendants _ _ _ Hd2) as (d1 & Hd1 & Hl1).
    destruct (label_fields n d1) as (Hid & Hnm & Hat); [congruence|].
    rewrite Hid in Hni. rewrite (Honly d1 Hd1 Hni) in Hnm, Hat.
    split; [congruence|]. by rewrite Hat. }
  destruct (find (u "head") s3) as [head3|] eqn:Hhead; [|done].
  destruct (theme_links cwd documents_dir html_path _ s3 [])
    as [[s4 rs4]|e] eqn:Hthemes; [|done].
  intros [= <- <-] n Hn Hni.
  destruct (theme_links_descendants _ _ _ _ _ _ _ _ Hthemes Hn)
    as (d & Hd & Hid & _ & Hat).
  rewrite Hid in Hni. destruct (Hinv d Hd Hni) as [Hdname Hdhref].
  rewrite Hat; [done|]. intros l Hl Hli.
  apply list_elem_of_In, filter_In in Hl as [Hl Hm].
  apply list_elem_of_In in Hl.
  assert (l ∈ soup_descendants s3) as Hl3.
  { eapply soup_descendants_trans; [|exact Hl]. by apply find_descendant in Hhead. }
  rewrite Hni in Hli. destruct (Hinv l Hl3 Hli) as [Hlname _].
  destruct l as [t|j nm attrs cs]; [done|]. simpl in Hm, Hlname.
  apply andb_true_iff in Hm as [Hm _]. apply eqb_eq in Hm.
  rewrite Hm in Hlname. by vm_compute in Hlname.
Qed.
End LinkPass.

(** C2. An anchor of the page with [data-linktype="relative-path"], after
    the loop over the links and in the document that the rewriter returns.
    When its href is ["./?view=powershell-<version>"], the href becomes
    ["./<text>.html"].  Otherwise, when the href contains a token
    [\w+-\w+] right before ["?view=powershell-"], the href becomes
    ["<token>.html"] for the first such place of the href; when it contains
    none, the href is left as it is.  The loop ends normally when every such
    anchor has an href.  So on a page with the link ["./?view=powershell-6"]
    of text ["Get-Help"] the rewriter leaves ["./Get-Help.html"], and for
    ["Get-Process?view=powershell-6"] it leaves ["Get-Process.html"]. *)
Theorem rewrite_soup_link_hrefs :
  (∀ (unicode_alnum : char → bool) (cwd : str)
     (configuration : Configuration.t) (s : Soup.soup)
     (html_path documents_dir : str),
     let sentinel :=
       u "./?view=powershell-"
         ++ Configuration.powershell_version configuration in
     NoDup (tag_ids s) →
     ((∀ l, l ∈ relative_links s →
            is_Some (Soup.get (Soup.attrs_of l) (u "href"))) →
      ∃ s1, Rewriter.fix_links unicode_alnum configuration
              (relative_links s) s = Ok s1)
     ∧ ∀ link i href,
         link ∈ relative_links s →
         Soup.id_of link = Some i →
         Soup.get (Soup.attrs_of link) (u "href") = Some href →
         ∃ href',
           (∀ s1,
              Rewriter.fix_links unicode_alnum configuration
                (relative_links s) s = Ok s1 →
              attr_at i (u "href") s1 = Some href')
           ∧ (∀ s' resources,
                Rewriter.rewrite_soup unicode_alnum cwd configuration s
                  html_path documents_dir = Ok (s', resources) →
                ∀ n, n ∈ Soup.soup_descendants s' → Soup.id_of n = Some i →
                     Soup.get (Soup.attrs_of n) (u "href") = Some href')
           ∧ (href = sentinel → href' = u "./" ++ Soup.text link ++ u ".html")
           ∧ (href ≠ sentinel →
              ∀ pre t post, first_occurrence unicode_alnum href pre t post →
                href' = t ++ u ".html")
           ∧ (href ≠ sentinel →
              (∃ pre t post, occurs unicode_alnum href pre t post) →
              ∃ pre t post, first_occurrence unicode_alnum href pre t post)
           ∧ (href ≠ sentinel →
              (∀ pre t post, ¬ occurs unicode_alnum href pre t post) →
              href' = href))
  ∧ match Rewriter.rewrite_soup (λ _, false) (u "/work") powershell_6
            sample_page_back sample_html_path sample_documents_dir with
    | Ok r => attr_at 4 (u "href") r.1
    | Raise _ => None
    end = Some (u "./Get-Help.html")
  ∧ match Rewriter.rewrite_soup (λ _, false) (u "/work") powershell_6
            sample_page sample_html_path sample_documents_dir with
    | Ok r => attr_at 6 (u "href") r.1
    | Raise _ => None
    end = Some (u "Get-Process.html").
Proof.
  split; [|split; vm_compute; reflexivity].
  intros unicode_alnum cwd configuration s html_path documents_dir sentinel Hnd.
  split.
  - intros Hall. apply fix_links_total. intros l Hl. split; [|by apply Hall].
    apply list_elem_of_In, filter_In in Hl as [_ Hm]. by destruct l.
  - intros link i href Hlink Hi Hh.
    exists (Rewriter.rewrite_href unicode_alnum configuration href
              (Soup.text link)).
    split; [|split].
    + intros s1 Hloop.
      destruct (fix_links_link unicode_alnum configuration _ _ _ _ _
                  Hnd Hlink Hi Hh Hloop) as (Htag & Hnew & _).
      unfold attr_at. by rewrite Htag.
    + intros s' resources Hrun.
      by apply (rewrite_soup_link unicode_alnum cwd configuration s html_path
                  documents_dir s' resources link i href).
    + apply rewrite_href_cases.
Qed.

Lemma rewrite_soup_link_hrefs_witness :
  ∃ s1,
    Rewriter.fix_links (λ _, false) powershell_6
      (relative_links sample_page_back) sample_page_back = Ok s1
    ∧ ∃ href',
        attr_at 4 (u "href") s1 = Some href'
        ∧ href' = u "./" ++ u "Get-Help" ++ u ".html".
Proof.
  destruct (proj1 rewrite_soup_link_hrefs (λ _, false) (u "/work") powershell_6
              sample_page_back sample_html_path sample_documents_dir)
    as [Htotal Hlinks].
  { apply (bool_decide_unpack _). vm_compute. exact I. }
  destruct Htotal as [s1 Hloop].
  { apply (proj1 (Forall_forall _ _)). vm_compute.
    repeat constructor; by eexists. }
  exists s1. split; [exact Hloop|].
  destruct (Hlinks
              (Soup.Tag 4 (u "a")
                 [(u "data-linktype", u "relative-path");
                  (u "href", u "./?view=powershell-6")]
                 [Soup.Text (u "Get-Help")])
              4%nat (u "./?view=powershell-6"))
    as (href' & Hafter & _ & Hback & _).
  { apply list_elem_of_In. vm_compute. left. reflexivity. }
  { reflexivity. }
  { reflexivity. }
  exists href'. split; [by apply Hafter|]. by apply Hback.
Defined.

(** X4. An anchor with [data-linktype="relative-path"] whose href has no
    question mark keeps its href through the loop over the links and in
    the document that the rewriter returns, whatever its text. *)
Theorem rewrite_soup_keeps_plain_href (unicode_alnum : char → bool)
    (cwd : str) (configuration : Configuration.t) (s : Soup.soup)
    (html_path documents_dir : str) (link : Soup.node) (i : nat)
    (href : str) :
  NoDup (tag_ids s) →
  link ∈ relative_links s →
  Soup.id_of link = Some i →
  Soup.get (Soup.attrs_of link) (u "href") = Some href →
  Rewriter.question ∉ href →
  (∀ s1,
     Rewriter.fix_links unicode_alnum configuration (relative_links s) s
     = Ok s1 →
     attr_at i (u "href") s1 = Some href)
  ∧ (∀ s' resources,
       Rewriter.rewrite_soup unicode_alnum cwd configuration s html_path
         documents_dir = Ok (s', resources) →
       ∀ n, n ∈ Soup.soup_descendants s' → Soup.id_of n = Some i →
            Soup.get (Soup.attrs_of n) (u "href") = Some href).
Proof.
  intros Hnd Hlink Hi Hh Hq.
  pose proof (rewrite_href_no_question unicode_alnum configuration href
                (Soup.text link) Hq) as Hsame.
  split.
  - intros s1 Hloop.
    destruct (fix_links_link unicode_alnum configuration _ _ _ _ _
                Hnd Hlink Hi Hh Hloop) as (Htag & Hnew & _).
    unfold attr_at. by rewrite Htag, Hnew, Hsame.
  - intros s' resources Hrun n Hn Hni.
    pose proof (rewrite_soup_link unicode_alnum cwd configuration s html_path
                  documents_dir s' resources link i href Hnd Hlink Hi Hh Hrun
                  n Hn Hni) as Hnew.
    by rewrite Hsame in Hnew.
Qed.

Lemma rewrite_soup_keeps_plain_href_witness :
  ∃ s1,
    Rewriter.fix_links (λ _, false) powershell_6
      (relative_links sample_page_back) sample_page_back = Ok s1
    ∧ attr_at 5 (u "href") s1
      = Some (u "https://github.com/PowerShell/PowerShell").
Proof.
  destruct (Rewriter.fix_links (λ _, false) powershell_6
              (relative_links sample_page_back) sample_page_back)
    as [s1|e] eqn:Hloop; [|by vm_compute in Hloop].
  exists s1. split; [done|].
  apply (proj1 (rewrite_soup_keeps_plain_href (λ _, false) (u "/work")
                  powershell_6 sample_page_back sample_html_path
                  sample_documents_dir
                  (Soup.Tag 5 (u "a")
                     [(u "data-linktype", u "relative-path");
                      (u "href", u "https://github.com/PowerShell/PowerShell")]
                     [Soup.Text (u "PowerShell")])
                  5%nat (u "https://github.com/PowerShell/PowerShell")
                  ltac:(apply (bool_decide_unpack _); vm_compute; exact I)
                  ltac:(apply list_elem_of_In; vm_compute; right; left;
                        reflexivity)
                  eq_refl eq_refl
                  ltac:(apply (bool_decide_eq_false_1 _); vm_compute;
                        reflexivity))).
  exact Hloop.
Defined.

(** X5. The href that the loop over the links gives to a link to a command
    page, ["<token>.html"], is left as it is by a second pass of the loop
    over the document. *)
Theorem fix_links_second_pass (unicode_alnum : char → bool)
    (configuration : Configuration.t) (s s1 s2 : Soup.soup)
    (link : Soup.node) (i : nat) (href pre t post : str) :
  NoDup (tag_ids s) →
  link ∈ relative_links s →
  Soup.id_of link = Some i →
  Soup.get (Soup.attrs_of link) (u "href") = Some href →
  href ≠ u "./?view=powershell-"
           ++ Configuration.powershell_version configuration →
  first_occurrence unicode_alnum href pre t post →
  Rewriter.fix_links unicode_alnum configuration (relative_links s) s
  = Ok s1 →
  Rewriter.fix_links unicode_alnum configuration (relative_links s1) s1
  = Ok s2 →
  attr_at i (u "href") s1 = Some (t ++ u ".html")
  ∧ attr_at i (u "href") s2 = Some (t ++ u ".html").
Proof.
  intros Hnd Hlink Hi Hh Hne Hfirst Hloop1 Hloop2.
  destruct (fix_links_link unicode_alnum configuration _ _ _ _ _
              Hnd Hlink Hi Hh Hloop1) as (Htag & Hnew & _).
  destruct (rewrite_href_cases unicode_alnum configuration href
              (Soup.text link)) as (_ & Htoken & _).
  rewrite (Htoken Hne pre t post Hfirst) in Hnew.
  split; [unfold attr_at; by rewrite Htag|].
  set (link1 := fold_left (λ n l, link_turn unicode_alnum configuration l n)
                  (relative_links s) link) in *.
  pose proof (fix_links_descendants unicode_alnum configuration _ _ _ Hloop1)
    as Hd.
  destruct (relative_link_tag _ _ Hlink) as [Hin _].
  destruct (turns_keeps unicode_alnum configuration (relative_links s) link)
    as (Hid1 & _). fold link1 in Hid1.
  assert (NoDup (tag_ids s1)) as Hnd1.
  { unfold tag_ids. by rewrite Hd, omap_id_turns. }
  assert (link1 ∈ relative_links s1) as Hlink1.
  { apply list_elem_of_In, filter_In. split.
    - apply list_elem_of_In. rewrite Hd. apply list_elem_of_fmap. by exists link.
    - unfold link1. rewrite matches_turns.
      + by apply list_elem_of_In, filter_In in Hlink as [_ ?].
      + apply (bool_decide_eq_false_1 _). vm_compute. reflexivity. }
  rewrite Hi in Hid1.
  destruct (fix_links_link unicode_alnum configuration _ _ _ _ _
              Hnd1 Hlink1 Hid1 Hnew Hloop2) as (Htag2 & Hnew2 & _).
  unfold attr_at. rewrite Htag2, Hnew2. f_equal.
  apply rewrite_href_no_question, (token_no_question unicode_alnum).
  by destruct Hfirst as [[_ Ht] _].
Qed.

Lemma fix_links_second_pass_witness :
  ∃ s1 s2,
    Rewriter.fix_links (λ _, false) powershell_6
      (relative_links sample_page) sample_page = Ok s1
    ∧ Rewriter.fix_links (λ _, false) powershell_6 (relative_links s1) s1
      = Ok s2
    ∧ attr_at 6 (u "href") s1 = Some (u "Get-Process" ++ u ".html")
    ∧ attr_at 6 (u "href") s2 = Some (u "Get-Process" ++ u ".html").
Proof.
  destruct (Rewriter.fix_links (λ _, false) powershell_6
              (relative_links sample_page) sample_page) as [s1|e] eqn:Hloop1;
    [|by vm_compute in Hloop1].
  destruct (Rewriter.fix_links (λ _, false) powershell_6
              (relative_links s1) s1) as [s2|e] eqn:Hloop2.
  2:{ exfalso. revert Hloop2. vm_compute in Hloop1. injection Hloop1 as <-.
      by vm_compute. }
  exists s1, s2. split; [done|]. split; [done|].
  apply (fix_links_second_pass (λ _, false) powershell_6 sample_page s1 s2
           (Soup.Tag 6 (u "a")
              [(u "data-linktype", u "relative-path");
               (u "href", u "Get-Process?view=powershell-6")]
              [Soup.Text (u "Get-Process")])
           6%nat (u "Get-Process?view=powershell-6") [] (u "Get-Process")
           (u "6")); try done.
  - apply (bool_decide_unpack _). vm_compute. exact I.
  - apply list_elem_of_In. vm_compute. left. reflexivity.
  - apply search_first_occurrence. vm_compute. reflexivity.
Defined.

(** X6. In the document that [rewrite_soup] returns no element matches any
    of the patterns of the site's navigation. *)
Theorem rewrite_soup_no_nav (unicode_alnum : char → bool) (cwd : str)
    (configuration : Configuration.t) (s : Soup.soup)
    (html_path documents_dir : str) (s' : Soup.soup)
    (theme_resources : list Rewriter.ThemeResourceRecord) :
  Rewriter.rewrite_soup unicode_alnum cwd configuration s html_path
    documents_dir = Ok (s', theme_resources) →
  Forall (λ nav : str * list (str * str),
            Soup.soup_findAll nav.1 nav.2 s' = [])
    Rewriter.nav_elements.
Proof.
  unfold Rewriter.rewrite_soup.
  destruct (Rewriter.fix_links unicode_alnum configuration _ s)
    as [s1|e]; [|done].
  set (s2 := Rewriter.remove_nav Rewriter.nav_elements s1).
  destruct (Soup.find (u "head") s2) as [head|]; [|done].
  set (s3 := Rewriter.extract_all _ s2).
  destruct (Soup.find (u "head") s3) as [head'|]; [|done].
  destruct (Rewriter.theme_links cwd documents_dir html_path _ s3 [])
    as [[s4 rs]|e] eqn:Hth; [|done].
  intros [= <- _]. apply Forall_forall. intros nav Hnav.
  eapply theme_links_clean; [|exact Hth|].
  - by apply (proj1 (Forall_forall _ _) nav_elements_keys).
  - apply clean_extract_all. by apply remove_nav_clean.
Qed.

Lemma rewrite_soup_no_nav_witness :
  ∃ s' theme_resources,
    Rewriter.rewrite_soup (λ _, false) (u "/work") powershell_6 sample_page
      sample_html_path sample_documents_dir = Ok (s', theme_resources)
    ∧ Forall (λ nav : str * list (str * str),
                Soup.soup_findAll nav.1 nav.2 s' = [])
        Rewriter.nav_elements.
Proof.
  destruct (Rewriter.rewrite_soup (λ _, false) (u "/work") powershell_6
              sample_page sample_html_path sample_documents_dir)
    as [[s' rs]|e] eqn:Hrun; [|by vm_compute in Hrun].
  exists s', rs. split; [done|].
  exact (rewrite_soup_no_nav _ _ _ _ _ _ _ _ Hrun).
Defined.

(** X7. A document with no [head] element is not rewritten: [rewrite_soup]
    raises, an [AttributeError], or a [KeyError] when a link of the page has
    no href. *)
Theorem rewrite_soup_no_head (unicode_alnum : char → bool) (cwd : str)
    (configuration : Configuration.t) (s : Soup.soup)
    (html_path documents_dir : str) :
  Soup.find (u "head") s = None →
  Rewriter.rewrite_soup unicode_alnum cwd configuration s html_path
    documents_dir = Raise AttributeError
  ∨ Rewriter.rewrite_soup unicode_alnum cwd configuration s html_path
      documents_dir = Raise (KeyError (u "href")).
Proof.
  intros Hhead%find_none. unfold Rewriter.rewrite_soup.
  destruct (Rewriter.fix_links unicode_alnum configuration _ s)
    as [s1|e] eqn:Hfix.
  - assert (Soup.find (u "head")
              (Rewriter.remove_nav Rewriter.nav_elements s1) = None) as ->.
    { apply find_none, remove_nav_clean.
      eapply fix_links_clean; [|exact Hfix|exact Hhead].
      apply not_elem_of_nil. }
    by left.
  - right. f_equal. revert Hfix. generalize s at 2.
    induction (Soup.soup_findAll (u "a")
                 [(u "data-linktype", u "relative-path")] s)
      as [|link links IH]; intros s0; simpl; [done|].
    destruct (Soup.id_of link); [|by intros [= <-]].
    destruct (Soup.get (Soup.attrs_of link) (u "href")); [|by intros [= <-]].
    destruct (Rewriter.fixed_href _ _ _ _); apply IH.
Qed.

Lemma rewrite_soup_no_head_witness :
  Rewriter.rewrite_soup (λ _, false) (u "/work") powershell_6
    [Soup.Text (u "Not Found")] sample_html_path sample_documents_dir
  = Raise AttributeError
  ∨ Rewriter.rewrite_soup (λ _, false) (u "/work") powershell_6
      [Soup.Text (u "Not Found")] sample_html_path sample_documents_dir
    = Raise (KeyError (u "href")).
Proof.
  apply (rewrite_soup_no_head (λ _, false) (u "/work") powershell_6
           [Soup.Text (u "Not Found")]).
  reflexivity.
Defined.

(** ** The scripts of the start page, in general *)

Section RemoveScriptsFacts.
Import Soup Rewriter.

Lemma extract_absent i s :
  (∀ n, n ∈ soup_descendants s → has_id i n = false) → extract i s = s.
Proof.
  assert (∀ n, (∀ n', n' ∈ descendants n → has_id i n' = false) →
               extract_in i n = n) as Hnode.
  { intros n. induction n as [t|j nm attrs contents IH] using node_induction;
      intros Hall; [done|].
    rewrite extract_in_tag. f_equal.
    change (descendants (Tag j nm attrs contents))
      with (soup_descendants contents) in Hall.
    induction IH as [|c cs Hc _ IHcs]; [done|]. simpl.
    rewrite (Hall c) by by left.
    rewrite Hc, IHcs; [done| |].
    - intros n Hn. apply Hall. rewrite soup_descendants_cons.
      apply elem_of_cons. right. apply elem_of_app. by right.
    - intros n Hn. apply Hall. rewrite soup_descendants_cons.
      apply elem_of_cons. right. apply elem_of_app. by left. }
  induction s as [|c cs IH]; intros Hall; [done|]. simpl.
  rewrite (Hall c) by by left.
  rewrite Hnode, IH; [done| |].
  - intros n Hn. apply Hall. rewrite soup_descendants_cons.
    apply elem_of_cons. right. apply elem_of_app. by right.
  - intros n Hn. apply Hall. rewrite soup_descendants_cons.
    apply elem_of_cons. right. apply elem_of_app. by left.
Qed.

Lemma extract_all_keeps_absent i found s :
  (∀ n, n ∈ soup_descendants s → has_id i n = false) →
  ∀ n, n ∈ soup_descendants (extract_all found s) → has_id i n = false.
Proof.
  revert s. induction found as [|f found IH]; intros s Hall; [done|].
  simpl. apply IH. destruct (id_of f) as [j|]; [|done].
  intros n Hn. destruct (extract_descendants _ _ _ Hn) as (d & Hd & Hl & _).
  rewrite (has_id_label i _ _ Hl). by apply Hall.
Qed.

(** After the extraction of a list of tags none of them is in the
    document. *)
Lemma extract_all_gone found s f i :
  f ∈ found → id_of f = Some i →
  ∀ n, n ∈ soup_descendants (extract_all found s) → has_id i n = false.
Proof.
  revert s. induction found as [|g found IH]; intros s Hf Hi.
  - by apply elem_of_nil in Hf.
  - simpl. apply elem_of_cons in Hf as [<-|Hf]; [|by apply IH].
    rewrite Hi. apply extract_all_keeps_absent.
    intros n Hn. by destruct (extract_descendants _ _ _ Hn) as (_ & _ & _ & ?).
Qed.

(** The second loop of [# remove script elems] changes nothing: it runs to
    its end when the first loop visited a script, and stops at its first
    turn otherwise. *)
Lemma body_loop head_script body_scripts s :
  (∀ f i, head_script = Some f → id_of f = Some i →
          ∀ n, n ∈ soup_descendants s → has_id i n = false) →
  (fix loop (found : list node) (s : soup) : result exn soup :=
     match found with
     | [] => Ok s
     | body_async_script :: rest =>
         match head_script with
         | None => Raise (UnboundLocalError (u "head_script"))
         | Some script => loop rest (extract_all [script] s)
         end
     end) body_scripts s
  = match body_scripts, head_script with
    | _ :: _, None => Raise (UnboundLocalError (u "head_script"))
    | _, _ => Ok s
    end.
Proof.
  intros Hgone. induction body_scripts as [|b rest IH]; [done|].
  destruct head_script as [f|]; [|done].
  assert (extract_all [f] s = s) as ->.
  { simpl. destruct (id_of f) as [i|] eqn:Hi; [|done].
    apply extract_absent. by apply (Hgone f). }
  rewrite IH. by destruct rest.
Qed.
End RemoveScriptsFacts.

(** X8. The two loops that remove scripts from the start page remove the
    scripts of the head and nothing else.  With a head and a body, the
    result is the document without the scripts of its head, except that an
    [UnboundLocalError] is raised when the head has no script and the body
    has a script with [async] and [defer]. *)
Theorem remove_scripts_spec (s : Soup.soup) (head : Soup.node) :
  Soup.find (u "head") s = Some head →
  let scripts := Soup.findAll (u "script") [] head in
  let s1 := Rewriter.extract_all scripts s in
  Rewriter.remove_scripts s =
    match Soup.find (u "body") s1 with
    | None => Raise AttributeError
    | Some body =>
        match Soup.findAll (u "script") [(u "async", []); (u "defer", [])] body,
              scripts with
        | _ :: _, [] => Raise (UnboundLocalError (u "head_script"))
        | _, _ => Ok s1
        end
    end.
Proof.
  intros Hhead scripts s1. unfold Rewriter.remove_scripts. rewrite Hhead.
  fold scripts. fold s1. destruct (Soup.find (u "body") s1) as [body|]; [|done].
  rewrite body_loop.
  - destruct (Soup.findAll (u "script") _ body) as [|b rest]; [done|].
    destruct scripts as [|f l] eqn:Hs; [done|].
    by destruct (last (f :: l)) eqn:Hlast; [|apply last_None in Hlast].
  - intros f i Hlast Hi. subst s1. apply (extract_all_gone _ _ f); [|done].
    apply last_Some in Hlast as [l' ->]. apply elem_of_app. right. by left.
Qed.

Lemma remove_scripts_spec_witness :
  Rewriter.remove_scripts sample_index_page_bare_head
  = Raise (UnboundLocalError (u "head_script")).
Proof.
  exact (remove_scripts_spec sample_index_page_bare_head
           (Soup.Tag 2 (u "head") [] []) eq_refl).
Defined.

Section IndexSoupFacts.
Import Soup Rewriter.
Variable unicode_alnum : char → bool.
Variable cwd : str.
Variable o : Crawler.oracle.

Lemma remove_scripts_clean nm wanted s s' :
  remove_scripts s = Ok s' → clean nm wanted s → clean nm wanted s'.
Proof.
  unfold remove_scripts. destruct (find (u "head") s) as [head|]; [|done].
  set (s1 := extract_all _ s). destruct (find (u "body") s1) as [body|]; [|done].
  intros Hrun Hs. assert (clean nm wanted s1) as Hs1 by by apply clean_extract_all.
  clearbody s1. revert s1 Hrun Hs1.
  generalize (last (findAll (u "script") [] head)). intros head_script.
  induction (findAll (u "script") [(u "async", []); (u "defer", [])] body)
    as [|b rest IH]; intros s1.
  - by intros [= <-].
  - destruct head_script as [script|]; [|done].
    intros Hrun Hs1. apply (IH _ Hrun). by apply clean_extract_all.
Qed.

Lemma fetch_theme_links_clean nm wanted documents_dir index_html_path links s w s' :
  u "href" ∉ wanted.*1 →
  (fetch_theme_links cwd o documents_dir index_html_path links s w).1 = Ok s' →
  clean nm wanted s → clean nm wanted s'.
Proof.
  intros Hk. revert s w. induction links as [|link links IH]; intros s w; simpl.
  - by intros [= <-].
  - destruct (id_of link) as [i|]; [|done].
    destruct (get (attrs_of link) (u "href")) as [href|]; [|done].
    destruct (stylesheet cwd documents_dir index_html_path href)
      as [[[rel_uri css_url] css_filepath]|]; [|apply IH].
    unfold bind. destruct (Crawler.download_textfile o css_url css_filepath w)
      as [[[]|e] w1]; [|done].
    intros Hrun Hs. apply (IH _ _ Hrun). by apply clean_assign.
Qed.
End IndexSoupFacts.

(** X9. In the start page that [rewrite_index_soup] returns no element
    matches any of the patterns of the site's navigation and header. *)
Theorem rewrite_index_soup_no_nav (unicode_alnum : char → bool) (cwd : str)
    (o : Crawler.oracle) (configuration : Configuration.t) (s : Soup.soup)
    (index_html_path documents_dir : str) (w : Crawler.world)
    (s' : Soup.soup) :
  (Rewriter.rewrite_index_soup unicode_alnum cwd o configuration s
     index_html_path documents_dir w).1 = Ok s' →
  Forall (λ nav : str * list (str * str),
            Soup.soup_findAll nav.1 nav.2 s' = [])
    Rewriter.index_nav_elements.
Proof.
  unfold Rewriter.rewrite_index_soup.
  destruct (Soup.soup_findAll (u "table") _ s) as [|content_table tables];
    [done|].
  unfold bind, Rewriter.lift.
  destruct (Rewriter.fix_index_links unicode_alnum _ s) as [s1|e]; [|done].
  set (s2 := Rewriter.remove_nav Rewriter.index_nav_elements _).
  destruct (Rewriter.remove_scripts s2) as [s3|e] eqn:Hscripts; [|done].
  destruct (Soup.find (u "head") s3) as [head|]; [|done].
  intros Hrun. apply Forall_forall. intros nav Hnav.
  eapply fetch_theme_links_clean; [|exact Hrun|].
  - by apply (proj1 (Forall_forall _ _) index_nav_elements_keys).
  - eapply remove_scripts_clean; [exact Hscripts|]. by apply remove_nav_clean.
Qed.

Lemma rewrite_index_soup_no_nav_witness :
  ∃ s',
    (Rewriter.rewrite_index_soup (λ _, false) (u "/work") always_up
       powershell_6 sample_index_page sample_index_path sample_index_dir
       Crawler.empty).1 = Ok s'
    ∧ Forall (λ nav : str * list (str * str),
                Soup.soup_findAll nav.1 nav.2 s' = [])
        Rewriter.index_nav_elements.
Proof.
  destruct (Rewriter.rewrite_index_soup (λ _, false) (u "/work") always_up
              powershell_6 sample_index_page sample_index_path
              sample_index_dir Crawler.empty).1
    as [s'|e] eqn:Hrun; [|by vm_compute in Hrun].
  exists s'. split; [done|].
  exact (rewrite_index_soup_no_nav _ _ _ _ _ _ _ _ _ Hrun).
Defined.

(** ** The theme resources of a page *)

Section ThemeResources.
Import Soup Rewriter.
Variable cwd : str.
Variables documents_dir html_path : str.

Lemma theme_links_records links s acc s' rs :
  theme_links cwd documents_dir html_path links s acc = Ok (s', rs) →
  ∃ new, rs = acc ++ new
         ∧ Forall (λ r, ∃ href, is_theme_resource cwd documents_dir href r) new.
Proof.
  revert s acc. induction links as [|link links IH]; intros s acc; simpl.
  - intros [= <- <-]. exists []. by rewrite app_nil_r.
  - destruct (id_of link) as [i|]; [|done].
    destruct (get (attrs_of link) (u "href")) as [href|]; [|done].
    destruct (stylesheet cwd documents_dir html_path href)
      as [[[rel_uri css_url] css_filepath]|] eqn:Hst; [|apply IH].
    intros Hrun. destruct (IH _ _ Hrun) as (new & -> & Hnew).
    eexists (_ :: new). rewrite <- app_assoc. split; [done|].
    constructor; [|done]. exists href. unfold is_theme_resource.
    unfold stylesheet in Hst.
    destruct (startswith (lstrip_char slash (strip href))
                Configuration.default_theme_uri) eqn:Hpre; [|done].
    simpl in Hst. injection Hst as <- <- <-. done.
Qed.
End ThemeResources.

(** X10. The resources that [rewrite_soup] returns are all for theme
    stylesheets and none is there twice.  The href of each, stripped of
    white space and of its leading slashes, starts with
    ["_themes/docs.theme/master/en-us/_themes"]; its URL is
    ["https://docs.microsoft.com/"] followed by the stripped href with its
    slashes; its path is that of the file under
    [documents_dir/docs.microsoft.com], relative to [documents_dir]. *)
Theorem rewrite_soup_theme_resources (unicode_alnum : char → bool) (cwd : str)
    (configuration : Configuration.t) (s : Soup.soup)
    (html_path documents_dir : str) (s' : Soup.soup)
    (theme_resources : list Rewriter.ThemeResourceRecord) :
  Rewriter.rewrite_soup unicode_alnum cwd configuration s html_path
    documents_dir = Ok (s', theme_resources) →
  NoDup theme_resources
  ∧ Forall (λ r, ∃ href, is_theme_resource cwd documents_dir href r)
      theme_resources.
Proof.
  unfold Rewriter.rewrite_soup.
  destruct (Rewriter.fix_links unicode_alnum configuration _ s)
    as [s1|e]; [|done].
  destruct (Soup.find (u "head") _) as [head|]; [|done].
  destruct (Soup.find (u "head") _) as [head'|]; [|done].
  destruct (Rewriter.theme_links cwd documents_dir html_path _ _ [])
    as [[s4 rs]|e] eqn:Hth; [|done].
  intros [= <- <-]. split; [apply NoDup_remove_dups|].
  pose proof (theme_links_records cwd documents_dir html_path _ _ _ _ _ Hth)
    as (new & Hrs & Hnew). simpl in Hrs.
  subst rs. apply Forall_forall. intros r Hr.
  rewrite elem_of_remove_dups in Hr.
  exact (proj1 (Forall_forall _ _) Hnew r Hr).
Qed.

Lemma rewrite_soup_theme_resources_witness :
  ∃ s' theme_resources,
    Rewriter.rewrite_soup (λ _, false) (u "/work") powershell_6 sample_page
      sample_html_path sample_documents_dir = Ok (s', theme_resources)
    ∧ NoDup theme_resources
    ∧ Forall (λ r, ∃ href,
                is_theme_resource (u "/work") sample_documents_dir href r)
        theme_resources.
Proof.
  destruct (Rewriter.rewrite_soup (λ _, false) (u "/work") powershell_6
              sample_page sample_html_path sample_documents_dir)
    as [[s' rs]|e] eqn:Hrun; [|by vm_compute in Hrun].
  exists s', rs. split; [done|].
  exact (rewrite_soup_theme_resources _ _ _ _ _ _ _ _ Hrun).
Defined.

(** ** What [make_docset] touches *)



Section IntoDirectory.
Import OsPath Packager.

Lemma no_sep_ext filename ext :
  sep ∉ filename → sep ∉ ext → sep ∉ filename ++ ext.
Proof. intros H1 H2. rewrite elem_of_app. by intros [?|?]. Qed.

Lemma join_length a b :
  sep ∉ b → (length a + length b ≤ length (join a b))%nat.
Proof.
  intros Hb. rewrite join_relative by by apply startswith_sep_no_sep.
  rewrite length_app. pose proof (joined_length a). lia.
Qed.

Lemma join_length_le a b :
  sep ∉ b → (length (join a b) ≤ length a + length b + 1)%nat.
Proof.
  intros Hb. rewrite join_relative by by apply startswith_sep_no_sep.
  rewrite length_app. unfold joined. destruct (_ || _); [lia|].
  rewrite length_app. simpl. lia.
Qed.
End IntoDirectory.

(** X12. When a directory stands at the path of the archive, in a file
    system where every entry lies in a directory, [make_docset] does not put
    the archive there: the last move puts it inside that directory, under
    the name [<filename>.tar.gz], and the directory stays. *)
Theorem make_docset_into_directory (source_dir dst_dir filename : str)
    (w : Packager.world) :
  let tar := OsPath.join dst_dir (filename ++ u ".tar") in
  let targz := OsPath.join dst_dir (filename ++ u ".tar.gz") in
  let docset := OsPath.join dst_dir (filename ++ u ".docset") in
  let inside := OsPath.join docset (filename ++ u ".tar.gz") in
  well_formed (Packager.fs w) →
  OsPath.sep ∉ filename →
  is_Some (Packager.fs w !! source_dir) →
  Packager.is_dir (Packager.fs w) tar = false →
  Packager.is_dir (Packager.fs w) targz = false →
  Packager.fs w !! docset = Some Packager.Dir →
  Packager.fs w !! inside = None →
  ∃ w' members,
    Packager.make_docset source_dir dst_dir filename w = (Ok (), w')
    ∧ Packager.fs w' !! docset = Some Packager.Dir
    ∧ Packager.fs w' !! inside = Some (Packager.File (Packager.TarGz members))
    ∧ List.last (Packager.ops w') (Packager.Move targz inside)
      = Packager.Move targz inside.
Proof.
  intros tar targz docset inside Hwf Hname Hsrc Htar Htargz Hdocset Hinside.
  destruct (well_formed_lookup _ _ Hwf Hsrc) as [Hplain _].
  destruct (well_formed_lookup _ docset Hwf) as [_ Hparent3];
    [by rewrite Hdocset|].
  assert (OsPath.sep ∉ u ".tar") as E1
    by (apply (bool_decide_eq_false_1 _); vm_compute; reflexivity).
  assert (OsPath.sep ∉ u ".tar.gz") as E2
    by (apply (bool_decide_eq_false_1 _); vm_compute; reflexivity).
  assert (OsPath.sep ∉ u ".docset") as E3
    by (apply (bool_decide_eq_false_1 _); vm_compute; reflexivity).
  assert (tar ≠ targz) as H1 by (by apply join_ext_ne).
  assert (targz ≠ docset) as H2 by (by apply join_ext_ne).
  assert (tar ≠ docset) as H3 by (by apply join_ext_ne).
  assert (length dst_dir + (length filename + 7) ≤ length docset)%nat as L3.
  { pose proof (join_length dst_dir _ (no_sep_ext _ _ Hname E3)) as L.
    rewrite length_app in L. exact L. }
  assert (length targz ≤ length dst_dir + (length filename + 7) + 1)%nat as L2.
  { pose proof (join_length_le dst_dir _ (no_sep_ext _ _ Hname E2)) as L.
    rewrite length_app in L. exact L. }
  assert (length tar ≤ length dst_dir + (length filename + 4) + 1)%nat as L1.
  { pose proof (join_length_le dst_dir _ (no_sep_ext _ _ Hname E1)) as L.
    rewrite length_app in L. exact L. }
  assert (length docset + (length filename + 7) ≤ length inside)%nat as L4.
  { pose proof (join_length docset _ (no_sep_ext _ _ Hname E2)) as L.
    rewrite length_app in L. exact L. }
  assert (inside ≠ tar) as H4
    by (intros Heq; apply (f_equal length) in Heq; lia).
  assert (inside ≠ targz) as H5
    by (intros Heq; apply (f_equal length) in Heq; lia).
  assert (inside ≠ docset) as H6
    by (intros Heq; apply (f_equal length) in Heq; lia).
  assert (OsPath.dirname tar = OsPath.dirname docset) as D1
    by (unfold docset, tar; by rewrite !dirname_join_ext).
  assert (OsPath.dirname targz = OsPath.dirname docset) as D2
    by (unfold docset, targz; by rewrite !dirname_join_ext).
  unfold Packager.make_docset. fold tar targz docset. unfold bind.
  rewrite (compress_ok _ _ _ Htar); [|by rewrite D1|done|done].
  erewrite move_ok; cycle 1.
  { simpl. apply lookup_insert_eq. }
  { simpl. by rewrite is_dir_insert_ne. }
  { simpl. rewrite D2. by apply dir_exists_insert. }
  unfold Packager.move. simpl.
  rewrite lookup_insert_eq.
  assert (Packager.is_dir
            (<[targz := Packager.File
                 (Packager.TarGz
                    (Packager.tar_members (Packager.fs w) source_dir
                       (OsPath.basename source_dir) tar))]>
               (delete tar
                  (<[tar := Packager.File
                       (Packager.TarGz
                          (Packager.tar_members (Packager.fs w) source_dir
                             (OsPath.basename source_dir) tar))]>
                     (Packager.fs w)))) docset = true) as ->.
  { rewrite is_dir_insert_ne, is_dir_delete_ne, is_dir_insert_ne by done.
    unfold Packager.is_dir. by rewrite Hdocset. }
  assert (OsPath.basename targz = filename ++ u ".tar.gz") as ->
    by (apply basename_join; by apply no_sep_ext).
  fold inside. unfold Packager.exists_.
  rewrite bool_decide_eq_false_2.
  2:{ rewrite lookup_insert_ne, lookup_delete_ne, lookup_insert_ne by done.
      rewrite Hinside. by intros [? ?]. }
  simpl. eexists _, _. split; [done|]. simpl.
  split.
  { rewrite lookup_insert_ne, lookup_delete_ne, lookup_insert_ne,
      lookup_delete_ne, lookup_insert_ne by done. exact Hdocset. }
  split; [apply lookup_insert_eq|].
  apply List.last_last.
Qed.

Lemma make_docset_into_directory_witness :
  ∃ w' members,
    Packager.make_docset
      (u "out/_build_6/_4_ready_to_be_packaged/Powershell.docset")
      (u "out/versions/6") (u "Powershell") sample_build_clash = (Ok (), w')
    ∧ Packager.fs w' !! OsPath.join (u "out/versions/6")
                          (u "Powershell" ++ u ".docset")
      = Some Packager.Dir
    ∧ Packager.fs w' !! OsPath.join
                          (OsPath.join (u "out/versions/6")
                             (u "Powershell" ++ u ".docset"))
                          (u "Powershell" ++ u ".tar.gz")
      = Some (Packager.File (Packager.TarGz members))
    ∧ List.last (Packager.ops w')
        (Packager.Move
           (OsPath.join (u "out/versions/6") (u "Powershell" ++ u ".tar.gz"))
           (OsPath.join
              (OsPath.join (u "out/versions/6")
                 (u "Powershell" ++ u ".docset"))
              (u "Powershell" ++ u ".tar.gz")))
      = Packager.Move
          (OsPath.join (u "out/versions/6") (u "Powershell" ++ u ".tar.gz"))
          (OsPath.join
             (OsPath.join (u "out/versions/6") (u "Powershell" ++ u ".docset"))
             (u "Powershell" ++ u ".tar.gz")).
Proof.
  apply (make_docset_into_directory
           (u "out/_build_6/_4_ready_to_be_packaged/Powershell.docset")
           (u "out/versions/6") (u "Powershell") sample_build_clash).
  - apply (bool_decide_unpack _). vm_compute. exact I.
  - apply (bool_decide_eq_false_1 _). vm_compute. reflexivity.
  - vm_compute. by eexists.
  - vm_compute. reflexivity.
  - vm_compute. reflexivity.
  - vm_compute. reflexivity.
  - vm_compute. reflexivity.
Defined.

(** ** The staging trees *)

Section StageFacts.
Import OsPath Packager Stage.

Lemma below_child (dst suffix : str) : below dst (dst ++ sep :: suffix) = true.
Proof.
  unfold below. apply orb_true_iff. right. apply startswith_spec.
  exists suffix. by rewrite <- app_assoc.
Qed.

Lemma below_inv (dst p : str) :
  below dst p = true → p = dst ∨ ∃ suffix, p = dst ++ sep :: suffix.
Proof.
  unfold below. intros [H|H]%orb_true_iff.
  - left. by apply eqb_eq.
  - right. apply startswith_spec in H as [r ->]. exists r.
    by rewrite <- app_assoc.
Qed.

(** Two trees of which neither is below the other share no path. *)
Lemma below_disjoint (src dst suffix : str) :
  below src dst = false → below dst src = false →
  below dst (src ++ sep :: suffix) = false.
Proof.
  intros H1 H2. apply not_true_iff_false. intros [Heq|[r Hr]]%below_inv.
  - rewrite <- Heq, below_child in H1. done.
  - apply app_eq_inv in Hr as [(k & Hsrc & Hk)|(k & Hdst & Hk)].
    + destruct k as [|c k].
      * rewrite app_nil_r in Hsrc. subst src. unfold below in H2.
        by rewrite eqb_refl in H2.
      * simpl in Hk. injection Hk as <- _. subst src.
        by rewrite below_child in H2.
    + destruct k as [|c k].
      * rewrite app_nil_r in Hdst. subst dst. unfold below in H1.
        by rewrite eqb_refl in H1.
      * simpl in Hk. injection Hk as <- _. subst dst.
        by rewrite below_child in H1.
Qed.

Lemma copies_spec (src dst : str) (m : gmap str entry) (k : str) (e : entry) :
  (k, e) ∈ copies src dst m ↔
  ∃ suffix, k = dst ++ sep :: suffix ∧ m !! (src ++ sep :: suffix) = Some e.
Proof.
  unfold copies. rewrite list_elem_of_fmap. split.
  - intros ([p e'] & [= -> ->] & Hin%list_elem_of_In%filter_In).
    destruct Hin as [Hin%list_elem_of_In%elem_of_map_to_list Hp]. simpl in *.
    apply startswith_spec in Hp as [r ->]. exists r.
    rewrite <- app_assoc in Hin |- *. simpl in *.
    by rewrite drop_app_length.
  - intros (suffix & -> & Hm). exists (src ++ sep :: suffix, e). simpl.
    rewrite drop_app_length. split; [done|].
    apply list_elem_of_In, filter_In. split.
    + apply list_elem_of_In. by apply elem_of_map_to_list.
    + simpl. apply startswith_spec. exists suffix. by rewrite <- app_assoc.
Qed.

Lemma lookup_copies (src dst : str) (m : gmap str entry) (suffix : str) :
  (list_to_map (copies src dst m) : gmap str entry) !! (dst ++ sep :: suffix)
  = m !! (src ++ sep :: suffix).
Proof.
  destruct (m !! (src ++ sep :: suffix)) as [e|] eqn:Hm.
  - apply elem_of_list_to_map_1'.
    + intros y (suffix' & Heq & Hy)%copies_spec.
      apply app_inv_head in Heq. injection Heq as <-. congruence.
    + apply copies_spec. by exists suffix.
  - apply not_elem_of_list_to_map_1. intros ([k e] & Hk & Hin)%list_elem_of_fmap.
    simpl in Hk. subst k. apply copies_spec in Hin as (suffix' & Heq & He).
    apply app_inv_head in Heq. injection Heq as <-. congruence.
Qed.

Lemma lookup_copies_other (src dst : str) (m : gmap str entry) (p : str) :
  (∀ suffix, p ≠ dst ++ sep :: suffix) →
  (list_to_map (copies src dst m) : gmap str entry) !! p = None.
Proof.
  intros Hp. apply not_elem_of_list_to_map_1.
  intros ([k e] & Hk & Hin)%list_elem_of_fmap. simpl in Hk. subst k.
  apply copies_spec in Hin as (suffix & -> & _). by apply (Hp suffix).
Qed.

(** What [rmtree] leaves: nothing below [dst], and the rest as it was. *)
Lemma rmtree_spec (dst : str) (m m0 : gmap str entry) :
  (∀ p, below dst p = true → is_Some (m !! p) → m !! dst = Some Dir) →
  rmtree dst m = Ok m0 →
  (∀ p, below dst p = true → m0 !! p = None)
  ∧ (∀ p, below dst p = false → m0 !! p = m !! p).
Proof.
  intros Hwf. unfold rmtree. destruct (m !! dst) as [[|c]|] eqn:Hd; [|done|].
  - intros [= <-]. split.
    + intros p Hp. apply map_lookup_filter_None. right. intros x _. simpl.
      by rewrite Hp.
    + intros p Hp. destruct (m !! p) as [e|] eqn:Hm.
      * by apply map_lookup_filter_Some.
      * apply map_lookup_filter_None. by left.
  - intros [= <-]. split; [|done]. intros p Hp.
    destruct (m !! p) as [e|] eqn:Hm; [|done].
    assert (is_Some (m !! p)) as Hs by (by rewrite Hm).
    by specialize (Hwf p Hp Hs).
Qed.
End StageFacts.





(** ** The crawl of the table of contents *)

Section CrawlTocFacts.
Import Crawler.
Variable urljoin : str → str → str.
Variable cwd : str.
Variable unicode_lower : str → str.
Variable o : oracle.
Variable toc_of : str → result exn (list toc_module).
Variable configuration : Configuration.t.
Variable download_dir : str.

Local Abbreviation infos := (infos_of cwd unicode_lower download_dir).
Local Abbreviation pages := (pages_of urljoin unicode_lower configuration).
Local Abbreviation crawl :=
  (crawl_modules urljoin cwd unicode_lower o configuration download_dir).
Local Abbreviation record d m :=
  (dict_set d (module_title m) (infos m)).

(** One module: the pages asked for, and the record made. *)
Lemma download_module_contents_run (m : toc_module) (w : world) :
  let run :=
    download_module_contents urljoin cwd unicode_lower o configuration
      (module_title m) (module_href m) (module_dir_of download_dir m)
      (children m) download_dir w in
  ∃ fetched,
    fetched `prefix_of` pages m
    ∧ requested run.2 = requested w ++ fetched
    ∧ (∀ i, run.1 = Ok i → fetched = pages m ∧ i = infos m).
Proof.
  exact (proj1 (download_module_contents_spec urljoin cwd unicode_lower o
                  configuration (module_title m) (module_href m)
                  (module_dir_of download_dir m) (children m) download_dir w)).
Qed.

(** The loop over the modules: the pages asked for are a beginning of the
    pages of the modules, in order, and all of them when the loop ends
    normally; each module is then recorded under its title. *)
Lemma crawl_modules_spec (ms : list toc_module) (acc : list (str * module_infos))
    (w : world) :
  ∃ fetched,
    fetched `prefix_of` concat (pages <$> ms)
    ∧ requested (crawl ms acc w).2 = requested w ++ fetched
    ∧ (∀ toc, (crawl ms acc w).1 = Ok toc →
         fetched = concat (pages <$> ms)
         ∧ toc = fold_left (λ d m, record d m) ms acc).
Proof.
  revert acc w. induction ms as [|m ms IH]; intros acc w.
  - exists []. simpl. split; [done|]. split; [by rewrite app_nil_r|].
    by intros toc [= <-].
  - cbn [crawl_modules]. unfold bind.
    destruct (download_module_contents_run m w) as (f1 & Hpre & Hreq & Hok).
    fold (module_dir_of download_dir m).
    destruct (download_module_contents _ _ _ _ _ _ _ _ _ _ w)
      as [[i|e] w1]; simpl in Hreq, Hok.
    + destruct (Hok i eq_refl) as [-> ->].
      destruct (IH (record acc m) w1) as (f2 & Hpre2 & Hreq2 & Hok2).
      exists (pages m ++ f2). split; [|split].
      * rewrite fmap_cons. cbn [concat]. by apply prefix_app.
      * by rewrite Hreq2, Hreq, <- app_assoc.
      * intros toc Ht. destruct (Hok2 toc Ht) as [-> ->]. done.
    + exists f1. split; [|split; [done|intros toc [=]]].
      rewrite fmap_cons. cbn [concat]. by apply prefix_app_r.
Qed.

Lemma crawl_modules_cause (ms : list toc_module)
    (acc : list (str * module_infos)) (w : world) (e : exn) :
  (crawl ms acc w).1 = Raise e → external o w e.
Proof.
  revert acc w. induction ms as [|m ms IH]; intros acc w; [done|].
  cbn [crawl_modules]. unfold bind.
  destruct (download_module_contents_cause urljoin cwd unicode_lower o
              configuration (module_title m) (module_href m)
              (OsPath.join
                 (OsPath.join download_dir Configuration.base_url)
                 (module_title m))
              (children m) download_dir w) as (Hcause & Hm & Hf).
  destruct (download_module_contents _ _ _ _ _ _ _ _ _ _ w) as [[i|e0] w1];
    simpl in *.
  - intros Hrun. apply (external_same o w w1); [done|done|].
    by apply (IH _ _ Hrun).
  - intros [= <-]. by apply Hcause.
Qed.

Lemma crawl_modules_total (ms : list toc_module)
    (acc : list (str * module_infos)) (w : world) :
  serves o → takes_all w → ∃ toc, (crawl ms acc w).1 = Ok toc.
Proof.
  intros Ho. revert acc w. induction ms as [|m ms IH]; intros acc w Hw.
  - by exists acc.
  - cbn [crawl_modules]. unfold bind.
    destruct (proj2 (download_module_contents_spec urljoin cwd unicode_lower o
                       configuration (module_title m) (module_href m)
                       (OsPath.join
                          (OsPath.join download_dir Configuration.base_url)
                          (module_title m))
                       (children m) download_dir w) Ho Hw) as [i Hi].
    pose proof (download_module_contents_takes_all urljoin cwd unicode_lower o
                  configuration (module_title m) (module_href m)
                  (OsPath.join
                     (OsPath.join download_dir Configuration.base_url)
                     (module_title m))
                  (children m) download_dir w Hw) as Hw1.
    destruct (download_module_contents _ _ _ _ _ _ _ _ _ _ w) as [[i'|e] w1];
      [|done].
    by apply IH.
Qed.
End CrawlTocFacts.

Section DictFacts.
Import Crawler.
Variable cwd : str.
Variable unicode_lower : str → str.
Variable download_dir : str.

Local Abbreviation infos := (infos_of cwd unicode_lower download_dir).
Local Abbreviation record d m :=
  (dict_set d (module_title m) (infos m)).

Lemma filter_both {A} (P Q R : A → bool) (l : list A) :
  (∀ y, R y = Q y && P y) → List.filter R l = List.filter P (List.filter Q l).
Proof.
  intros H. induction l as [|a l IH]; [done|]. simpl. rewrite H.
  destruct (Q a); simpl; [destruct (P a)|]; by rewrite IH.
Qed.

Lemma dict_set_keys (d : list (str * module_infos)) (k : str) (v : module_infos) :
  (dict_set d k v).*1 = if bool_decide (k ∈ d.*1) then d.*1 else d.*1 ++ [k].
Proof.
  induction d as [|[k' v'] d IH]; [done|]. cbn [dict_set].
  destruct (eqb k' k) eqn:Hk.
  - apply eqb_eq in Hk as ->. rewrite !fmap_cons. cbn [fst].
    rewrite bool_decide_eq_true_2; [done|by left].
  - apply eqb_neq in Hk. rewrite !fmap_cons, IH. cbn [fst].
    destruct (bool_decide (k ∈ d.*1)) eqn:Hd.
    + apply bool_decide_eq_true in Hd.
      rewrite bool_decide_eq_true_2; [done|by right].
    + apply bool_decide_eq_false in Hd.
      rewrite bool_decide_eq_false_2; [done|].
      intros [->|]%elem_of_cons; done.
Qed.

Lemma fold_record_keys (ms : list toc_module) (acc : list (str * module_infos)) :
  (fold_left (λ d m, record d m) ms acc).*1
  = acc.*1 ++ List.filter (λ y, negb (bool_decide (y ∈ acc.*1)))
                (first_occurrences (module_title <$> ms)).
Proof.
  revert acc. induction ms as [|m ms IH]; intros acc.
  - simpl. by rewrite app_nil_r.
  - cbn [fold_left]. rewrite IH, dict_set_keys. simpl.
    destruct (bool_decide (module_title m ∈ acc.*1)) eqn:Hin; simpl.
    + f_equal. apply filter_both. intros y.
      apply bool_decide_eq_true in Hin.
      destruct (eqb y (module_title m)) eqn:Hy; [|done].
      apply eqb_eq in Hy as ->. simpl. by rewrite bool_decide_eq_true_2.
    + rewrite <- app_assoc. simpl. do 2 f_equal. apply filter_both. intros y.
      destruct (eqb y (module_title m)) eqn:Hy; simpl.
      * apply eqb_eq in Hy as ->. rewrite bool_decide_eq_true_2; [done|].
        apply elem_of_app. right. by left.
      * apply eqb_neq in Hy. f_equal. apply bool_decide_ext.
        rewrite elem_of_app, list_elem_of_singleton. tauto.
Qed.

Lemma dict_get_set (d : list (str * module_infos)) (k : str) (v : module_infos)
    (k' : str) :
  dict_get (dict_set d k v) k' = if eqb k k' then Some v else dict_get d k'.
Proof.
  induction d as [|[k0 v0] d IH]; [done|]. simpl.
  destruct (eqb k0 k) eqn:H0; simpl.
  - apply eqb_eq in H0 as ->. by destruct (eqb k k').
  - rewrite IH. destruct (eqb k0 k') eqn:H1; [|done].
    apply eqb_eq in H1 as ->. destruct (eqb k k') eqn:H2; [|done].
    apply eqb_eq in H2 as ->. by rewrite eqb_refl in H0.
Qed.

Lemma fold_record_get (ms : list toc_module) (acc : list (str * module_infos))
    (n : str) :
  dict_get (fold_left (λ d m, record d m) ms acc) n
  = match last_named ms n with
    | Some m => Some (infos m)
    | None => dict_get acc n
    end.
Proof.
  revert acc. induction ms as [|m ms IH]; intros acc; [done|].
  cbn [fold_left]. rewrite IH, dict_get_set. unfold last_named. simpl.
  destruct (eqb (module_title m) n); [|done].
  rewrite last_cons. by destruct (last _).
Qed.

Lemma dict_get_elem (d : list (str * module_infos)) (n : str) (v : module_infos) :
  NoDup d.*1 → (n, v) ∈ d ↔ dict_get d n = Some v.
Proof.
  induction d as [|[k0 v0] d IH]; simpl.
  - intros _. split; [by intros ?%elem_of_nil|done].
  - intros [Hk Hd]%NoDup_cons. rewrite elem_of_cons, (IH Hd).
    destruct (eqb k0 n) eqn:H0.
    + apply eqb_eq in H0 as ->. split.
      * intros [[= ->]|Hg]; [done|]. exfalso. apply Hk.
        apply (IH Hd) in Hg. apply list_elem_of_fmap. by exists (n, v).
      * intros [= ->]. by left.
    + apply eqb_neq in H0. split; [|by right].
      intros [[= <- _]|]; done.
Qed.

Lemma first_occurrences_elem (l : list str) (x : str) :
  x ∈ first_occurrences l ↔ x ∈ l.
Proof.
  induction l as [|a l IH]; [done|]. simpl.
  rewrite !elem_of_cons, list_elem_of_In, filter_In, <- list_elem_of_In, IH.
  rewrite negb_true_iff. destruct (eqb x a) eqn:Hx.
  - apply eqb_eq in Hx. intuition congruence.
  - apply eqb_neq in Hx. tauto.
Qed.

Lemma first_occurrences_NoDup (l : list str) : NoDup (first_occurrences l).
Proof.
  induction l as [|a l IH]; simpl; [constructor|].
  apply NoDup_cons. split.
  - rewrite list_elem_of_In, filter_In. intros [_ H].
    by rewrite eqb_refl in H.
  - by apply NoDup_ListNoDup, List.NoDup_filter, NoDup_ListNoDup.
Qed.
End DictFacts.

(** X15. When [crawl_posh_contents] returns, the table of contents was
    served and decoded, the result has one item for each module title, in
    the order in which the titles come first, and under a title that is
    listed more than once it holds what was recorded for the last module of
    that title. *)
Theorem crawl_posh_contents_toc
    (urljoin : str → str → str) (cwd : str) (unicode_lower : str → str)
    (o : Crawler.oracle)
    (toc_of : str → result exn (list Crawler.toc_module))
    (configuration : Configuration.t) (download_dir : str)
    (w w' : Crawler.world) (content_toc : list (str * Crawler.module_infos)) :
  Crawler.crawl_posh_contents urljoin cwd unicode_lower o toc_of configuration
    download_dir w = (Ok content_toc, w') →
  ∃ text modules,
    o (length (Crawler.requested w)) (Configuration.docs_toc_url configuration)
    = Some text
    ∧ toc_of text = Ok modules
    ∧ content_toc.*1 = first_occurrences (Crawler.module_title <$> modules)
    ∧ ∀ n i, (n, i) ∈ content_toc ↔
        ∃ m, last_named modules n = Some m
             ∧ i = infos_of cwd unicode_lower download_dir m.
Proof.
  unfold Crawler.crawl_posh_contents, bind, Crawler.get_text.
  destruct (o _ _) as [text|] eqn:Ho; [|done].
  destruct (toc_of text) as [ms|e] eqn:Ht; [|done].
  intros Hrun. exists text, ms. split; [done|]. split; [done|].
  match type of Hrun with ?run = _ =>
    assert (run.1 = Ok content_toc) as H1 by by rewrite Hrun end.
  match type of H1 with
    (Crawler.crawl_modules _ _ _ _ _ _ _ ?acc ?w1).1 = _ =>
    destruct (crawl_modules_spec urljoin cwd unicode_lower o configuration
                download_dir ms acc w1) as (f & _ & _ & Hok)
  end.
  destruct (Hok _ H1) as [_ ->].
  assert ((fold_left
             (λ d m, Crawler.dict_set d (Crawler.module_title m)
                       (infos_of cwd unicode_lower download_dir m)) ms []).*1
          = first_occurrences (Crawler.module_title <$> ms)) as Hkeys.
  { rewrite fold_record_keys. simpl. apply List.filter_true. }
  split; [exact Hkeys|]. intros n i.
  rewrite dict_get_elem by (rewrite Hkeys; apply first_occurrences_NoDup).
  rewrite fold_record_get. simpl.
  destruct (last_named ms n) as [m|].
  - split; [intros [= <-]; by exists m|by intros (? & [= <-] & ->)].
  - split; [done|by intros (? & ? & _)].
Qed.

Lemma crawl_posh_contents_toc_witness :
  ∃ content_toc,
    sample_crawl_toc.1 = Ok content_toc
    ∧ content_toc.*1 = [u "CimCmdlets"; u "PSDiagnostics"]
    ∧ ∀ i, (u "CimCmdlets", i) ∈ content_toc →
        Crawler.name <$> Crawler.cmdlets i = [u "Get-CimInstance"].
Proof.
  destruct sample_crawl_toc as [[content_toc|e] w'] eqn:Hrun;
    [|by vm_compute in Hrun].
  destruct (crawl_posh_contents_toc urljoin_plain (u "/work") (λ s, s)
              always_up sample_toc_of powershell_6 (u "dl") Crawler.empty w'
              content_toc Hrun)
    as (text & ms & _ & Hms & Hkeys & Hget).
  injection Hms as <-. exists content_toc. split; [done|].
  split; [exact Hkeys|]. intros i (m & Hm & ->)%Hget.
  vm_compute in Hm. injection Hm as <-. reflexivity.
Defined.


